(** * Tag highlighter / prompt builder: a shallow embedding and its properties

    The repository holds two editor extensions:
    - the tag highlighter ([extension.js], functions [updateDecorations],
      [toAbsolute], [pathExists], [readFileTruncated], [retainWatcher],
      [releaseWatcher]), with the process-wide tables [WATCHERS] and [CACHE];
    - the prompt builder ([extension.ts], [makeKey], [expandedKeys] and the
      [onDidChangeVisibleTextEditors] handler).

    Conventions of the embedding:
    - a JavaScript string is a [string]; one character stands for one code unit;
    - a JavaScript number that the code uses as a counter, a size or a time stamp
      is a [Z]; an offset into a text is a [nat];
    - a [Map] is a [gmap], a [Set] is a [gset];
    - the platform ([path], [Buffer], [RegExp], [String.prototype.trim]) is the
      class [Host];
    - asynchronous code is cut at its suspension points: what runs between two
      [await]s is one function on the state of the process. *)

From Stdlib Require Import ZArith Ascii String List Lia Bool.
From stdpp Require Import gmap strings list fin_maps.

Local Open Scope string_scope.
Local Open Scope Z_scope.
Local Open Scope nat_scope.

(** ** The platform *)

(** A compiled pattern, seen through the one operation the regular expression
    engine offers to [exec]: an attempt to match at a given index of a text,
    which answers the end index of the match. *)
Definition Matcher : Type := string -> nat -> option nat.

(** What ECMAScript guarantees of a match attempt at index [j] of a text: the
    match ends at or after [j] and inside the text. *)
Definition matcher_ok (m : Matcher) : Prop :=
  forall (txt : string) (j e : nat),
    m txt j = Some e -> j <= e /\ e <= String.length txt.

Class Host : Type := {
  (** [path.join] of a base and further segments *)
  path_join : string -> list string -> string;
  (** [path.normalize] *)
  path_normalize : string -> string;
  (** [path.dirname] *)
  path_dirname : string -> string;
  (** [path.resolve] of one argument *)
  path_resolve : string -> string;
  (** [Buffer.prototype.toString('utf8')] *)
  buffer_toString : list Byte.byte -> string;
  (** [new RegExp(src, 'g')]; [None] when the constructor throws *)
  regexp_compile : string -> option Matcher;
  (** [String.prototype.trim]: the white space and the line terminators of
      ECMAScript taken off both ends *)
  string_trim : string -> string;
}.

(** ** Strings *)

Definition chars (s : string) : list ascii := list_ascii_of_string s.
Definition unchars (l : list ascii) : string := string_of_list_ascii l.

(** [s.slice(a, -b)]: from offset [a] to [b] characters before the end of the
    string, and empty when the two cross ([s.slice(2, -2)] is [slice_neg 2 2 s]). *)
Definition slice_neg (a b : nat) (s : string) : string :=
  let n := String.length s in
  substring a ((n - b) - a) s.

(** ** Regular expressions

    The fragment of ECMAScript patterns that the examples need, with the
    backtracking order of the language: alternatives left to right, a greedy
    star first tries one more iteration, a lazy star first tries to stop, and an
    iteration of a star that consumes nothing is rejected. *)
Inductive re : Type :=
| Eps : re
| Cls : (ascii -> bool) -> re
| Seq : re -> re -> re
| Alt : re -> re -> re
| Star : bool -> re -> re.

Definition orelse {A : Type} (x y : option A) : option A :=
  match x with Some _ => x | None => y end.

(** The iterations of a star whose body is run by [body]: at most [n] of
    them, each one consuming at least one character. *)
Fixpoint iterate (body : list ascii -> (list ascii -> option (list ascii)) -> option (list ascii))
    (greedy : bool) (k : list ascii -> option (list ascii))
    (n : nat) (s : list ascii) {struct n} : option (list ascii) :=
  match n with
  | O => k s
  | S n' =>
      let more :=
        body s (fun s' =>
          if length s' <? length s then iterate body greedy k n' s' else None) in
      if greedy then orelse more (k s) else orelse (k s) more
  end.

(** [re_run r s k] matches [r] at the front of [s] and hands the rest of the
    text to the continuation [k]; the answer is the rest of the text after the
    whole match. *)
Fixpoint re_run (r : re) (s : list ascii)
    (k : list ascii -> option (list ascii)) {struct r} : option (list ascii) :=
  match r with
  | Eps => k s
  | Cls p =>
      match s with
      | c :: s' => if p c then k s' else None
      | [] => None
      end
  | Seq a b => re_run a s (fun s' => re_run b s' k)
  | Alt a b => orelse (re_run a s k) (re_run b s k)
  | Star greedy a => iterate (re_run a) greedy k (S (length s)) s
  end.

Definition re_matcher (r : re) : Matcher :=
  fun txt j =>
    let n := String.length txt in
    if j <=? n
    then (fun rest => n - length rest) <$> re_run r (drop j (chars txt)) Some
    else None.

Definition Chr (c : ascii) : re := Cls (fun x => Ascii.eqb x c).
Definition Plus (greedy : bool) (r : re) : re := Seq r (Star greedy r).

Definition in_range (lo hi x : ascii) : bool :=
  (nat_of_ascii lo <=? nat_of_ascii x) && (nat_of_ascii x <=? nat_of_ascii hi).

(** The character class [[A-Za-z0-9._\-/:\\]] of the built-in pattern. *)
Definition tag_char (x : ascii) : bool :=
  in_range "A" "Z" x || in_range "a" "z" x || in_range "0" "9" x
  || Ascii.eqb x "." || Ascii.eqb x "_" || Ascii.eqb x "-"
  || Ascii.eqb x "/" || Ascii.eqb x ":" || Ascii.eqb x "\".

(** The literal [/<<[A-Za-z0-9._\-/:\\]+?>>/g] of [safeRegex]. *)
Definition default_re : re :=
  Seq (Chr "<") (Seq (Chr "<") (Seq (Plus false (Cls tag_char)) (Seq (Chr ">") (Chr ">")))).

Definition default_pattern_src : string := "<<[A-Za-z0-9._\-/:\\]+?>>".

(** ** [RegExp.prototype.exec] for a pattern with the [g] flag *)

Record RegExp : Type := mkRegExp {
  matcher : Matcher;
  lastIndex : nat;
}.

(** The result of a successful [exec]: [m.index] and the end of [m[0]]. *)
Record Match : Type := mkMatch {
  index : nat;
  endIndex : nat;
}.

(** The first index from [i] on, up to the length of the text, at which the
    pattern matches. *)
Definition first_match (m : Matcher) (txt : string) (i : nat) : option Match :=
  head (omap (fun j => mkMatch j <$> m txt j) (seq i (S (String.length txt) - i))).

(** [pattern.exec(text)]: the match, if any, and the pattern with its new
    [lastIndex] (the end of the match, or 0 after a failure). *)
Definition exec (R : RegExp) (txt : string) : option Match * RegExp :=
  match first_match (matcher R) txt (lastIndex R) with
  | Some m => (Some m, mkRegExp (matcher R) (endIndex m))
  | None => (None, mkRegExp (matcher R) 0)
  end.

(** [m[0]] *)
Definition matched (txt : string) (m : Match) : string :=
  substring (index m) (endIndex m - index m) txt.

(** ** The tag highlighter: path resolution ([toAbsolute]) *)

Definition starts_with (p s : list ascii) : bool :=
  bool_decide (take (length p) s = p).

Definition cons_head (c : ascii) (l : list (list ascii)) : list (list ascii) :=
  match l with
  | h :: t => (c :: h) :: t
  | [] => [[c]]
  end.

(** The pieces of [s] between the characters that satisfy [p]: what
    [s.split(/[...]/)] answers for a class of single characters. *)
Fixpoint split_where (p : ascii -> bool) (s : list ascii) : list (list ascii) :=
  match s with
  | [] => [[]]
  | c :: s' => if p c then [] :: split_where p s' else cons_head c (split_where p s')
  end.

(** The pieces of [s] between the occurrences of a non-empty separator, found
    left to right; [skip] counts the characters of an occurrence still to pass. *)
Fixpoint split_sep (sep : list ascii) (skip : nat) (s : list ascii) : list (list ascii) :=
  match s with
  | [] => [[]]
  | c :: s' =>
      match skip with
      | S k => split_sep sep k s'
      | O =>
          if starts_with sep s
          then [] :: split_sep sep (length sep - 1) s'
          else cons_head c (split_sep sep 0 s')
      end
  end.

(** [s.split(sep)] for a string separator: an empty separator cuts between
    all characters. *)
Definition split (sep s : string) : list string :=
  match chars sep with
  | [] => (fun c => String c EmptyString) <$> chars s
  | cs => unchars <$> split_sep cs 0 (chars s)
  end.

Definition is_slash (c : ascii) : bool := Ascii.eqb c "/" || Ascii.eqb c "\".

(** [p.split(/[\/\\]/)] *)
Definition split_slashes (s : string) : list string :=
  unchars <$> split_where is_slash (chars s).

Definition nonempty (s : string) : bool :=
  match s with EmptyString => false | _ => true end.

(** [tagInner.split(sep).flatMap(p => p.split(/[\/\\]/)).filter(Boolean)] *)
Definition segments (sep tagInner : string) : list string :=
  filter (fun p => nonempty p = true) (split sep tagInner ≫= split_slashes).

Definition toAbsolute `{Host} (baseDir tagInner sep : string) : string :=
  path_normalize (path_join baseDir (segments sep tagInner)).

(** ** The tag highlighter: the file system, [CACHE] and [WATCHERS] *)

Inductive Kind : Type := KFile | KDir | KOther.

(** What the file system holds at a path: what [stat] reports and what
    [readFile] would answer ([None]: the read throws). *)
Record Node : Type := mkNode {
  kind : Kind;
  node_mtimeMs : Z;
  bytes : option (list Byte.byte);
}.

(** A path without a node does not exist: [stat] throws. *)
Definition FS : Type := gmap string Node.

Definition fs_stat (fs : FS) (p : string) : option Node := fs !! p.

(** [fs.promises.readFile(p)]: fails on a missing path and on a directory. *)
Definition fs_readFile (fs : FS) (p : string) : option (list Byte.byte) :=
  match fs !! p with
  | Some n => match kind n with KDir => None | _ => bytes n end
  | None => None
  end.

Definition isFile (n : Node) : bool := match kind n with KFile => true | _ => false end.
Definition isDirectory (n : Node) : bool := match kind n with KDir => true | _ => false end.

Record CacheEntry : Type := mkCacheEntry {
  mtimeMs : Z;
  text : string;
}.

Record WatchInfo : Type := mkWatchInfo {
  watcher : nat;
  refs : Z;
}.

(** One entry of a decoration list handed to [setDecorations]. *)
Record Range : Type := mkRange {
  startOffset : nat;
  endOffset : nat;
}.

Record Deco : Type := mkDeco {
  range : Range;
  hoverMessage : option string;
  contentText : option string;
}.

Record Editor : Type := mkEditor {
  fsPath : string;
  getText : string;
  inlineDecos : list Deco;
  hideDecos : list Deco;
}.

(** [workspace.getConfiguration('tagHighlighter')]: a missing option is [None]. *)
Record Config : Type := mkConfig {
  cfg_pattern : option string;
  cfg_pathSeparator : option string;
  cfg_onlyHighlightExistingPaths : option bool;
  cfg_showInline : option bool;
  cfg_showHover : option bool;
  cfg_maxBytes : option Z;
  cfg_newlineJoiner : option string;
}.

(** One element of [matches]. *)
Record Item : Type := mkItem {
  it_range : Range;
  it_inner : string;
  it_absPath : string;
}.

(** What a call of [updateDecorations] holds in its local variables while it is
    suspended at [await Promise.all]. *)
Record Pass : Type := mkPass {
  pass_editor : nat;
  pass_onlyExisting : bool;
  pass_showInline : bool;
  pass_showHover : bool;
  pass_maxBytes : Z;
  pass_joiner : string;
  pass_matches : list Item;
}.

(** The state of the extension host process.  Watchers and decoration types
    are numbered in the order of their creation; [liveWatchers] maps a watcher
    that was not disposed to the path its callback clears from [CACHE]. *)
Record World : Type := mkWorld {
  fs : FS;
  config : Config;
  CACHE : gmap string CacheEntry;
  WATCHERS : gmap string WatchInfo;
  liveWatchers : gmap nat string;
  nextWatcher : nat;
  tagDecoInline : nat;
  tagDecoHide : nat;
  nextDecoType : nat;
  disposedDecoTypes : list nat;
  editors : gmap nat Editor;
  activeTextEditor : option nat;
  inflight : list Pass;
}.

Definition with_fs (x : FS) (w : World) : World :=
  mkWorld x (config w) (CACHE w) (WATCHERS w) (liveWatchers w) (nextWatcher w)
    (tagDecoInline w) (tagDecoHide w) (nextDecoType w) (disposedDecoTypes w)
    (editors w) (activeTextEditor w) (inflight w).
Definition with_config (x : Config) (w : World) : World :=
  mkWorld (fs w) x (CACHE w) (WATCHERS w) (liveWatchers w) (nextWatcher w)
    (tagDecoInline w) (tagDecoHide w) (nextDecoType w) (disposedDecoTypes w)
    (editors w) (activeTextEditor w) (inflight w).
Definition with_CACHE (x : gmap string CacheEntry) (w : World) : World :=
  mkWorld (fs w) (config w) x (WATCHERS w) (liveWatchers w) (nextWatcher w)
    (tagDecoInline w) (tagDecoHide w) (nextDecoType w) (disposedDecoTypes w)
    (editors w) (activeTextEditor w) (inflight w).
Definition with_WATCHERS (x : gmap string WatchInfo) (w : World) : World :=
  mkWorld (fs w) (config w) (CACHE w) x (liveWatchers w) (nextWatcher w)
    (tagDecoInline w) (tagDecoHide w) (nextDecoType w) (disposedDecoTypes w)
    (editors w) (activeTextEditor w) (inflight w).
Definition with_liveWatchers (x : gmap nat string) (n : nat) (w : World) : World :=
  mkWorld (fs w) (config w) (CACHE w) (WATCHERS w) x n
    (tagDecoInline w) (tagDecoHide w) (nextDecoType w) (disposedDecoTypes w)
    (editors w) (activeTextEditor w) (inflight w).
Definition with_decoTypes (i h n : nat) (d : list nat) (w : World) : World :=
  mkWorld (fs w) (config w) (CACHE w) (WATCHERS w) (liveWatchers w) (nextWatcher w)
    i h n d (editors w) (activeTextEditor w) (inflight w).
Definition with_editors (x : gmap nat Editor) (w : World) : World :=
  mkWorld (fs w) (config w) (CACHE w) (WATCHERS w) (liveWatchers w) (nextWatcher w)
    (tagDecoInline w) (tagDecoHide w) (nextDecoType w) (disposedDecoTypes w)
    x (activeTextEditor w) (inflight w).
Definition with_inflight (x : list Pass) (w : World) : World :=
  mkWorld (fs w) (config w) (CACHE w) (WATCHERS w) (liveWatchers w) (nextWatcher w)
    (tagDecoInline w) (tagDecoHide w) (nextDecoType w) (disposedDecoTypes w)
    (editors w) (activeTextEditor w) x.

(** ** The tag highlighter: [pathExists] and [readFileTruncated] *)

Definition pathExists (p : string) (w : World) : bool :=
  match fs_stat (fs w) p with
  | Some stat => isFile stat || isDirectory stat
  | None => false
  end.

(** [buf.subarray(0, e)]: a negative end counts from the end of the buffer. *)
Definition subarray0 (e : Z) (buf : list Byte.byte) : list Byte.byte :=
  if (e <? 0)%Z
  then take (Z.to_nat (Z.max 0 (Z.of_nat (length buf) + e))) buf
  else take (Z.to_nat e) buf.

(** [if (maxBytes && buf.byteLength > maxBytes) buf = buf.subarray(0, maxBytes)] *)
Definition truncated (maxBytes : Z) (buf : list Byte.byte) : list Byte.byte :=
  if negb (maxBytes =? 0)%Z && (Z.of_nat (length buf) >? maxBytes)%Z
  then subarray0 maxBytes buf
  else buf.

(** [cached && cached.mtimeMs === st.mtimeMs] *)
Definition cache_hit (st : Node) (cached : option CacheEntry) : option string :=
  match cached with
  | Some c => if (mtimeMs c =? node_mtimeMs st)%Z then Some (text c) else None
  | None => None
  end.

(** The file system is read as it is when the call starts: nothing else runs
    between the [stat] and the [readFile] of one call. *)
Definition readFileTruncated `{Host} (p : string) (maxBytes : Z) (w : World)
    : string * World :=
  match fs_stat (fs w) p with
  | None => ("", w)
  | Some st =>
      match cache_hit st (CACHE w !! p) with
      | Some t => (t, w)
      | None =>
          match fs_readFile (fs w) p with
          | None => ("", w)
          | Some buf =>
              let t := buffer_toString (truncated maxBytes buf) in
              (t, with_CACHE (<[p := mkCacheEntry (node_mtimeMs st) t]> (CACHE w)) w)
          end
      end
  end.

(** ** The tag highlighter: [retainWatcher] and [releaseWatcher] *)

Definition retainWatcher (absPath : string) (w : World) : World :=
  match WATCHERS w !! absPath with
  | Some existing =>
      with_WATCHERS
        (<[absPath := mkWatchInfo (watcher existing) (refs existing + 1)]> (WATCHERS w)) w
  | None =>
      let id := nextWatcher w in
      with_WATCHERS (<[absPath := mkWatchInfo id 1]> (WATCHERS w))
        (with_liveWatchers (<[id := absPath]> (liveWatchers w)) (S id) w)
  end.

Definition releaseWatcher (absPath : string) (w : World) : World :=
  match WATCHERS w !! absPath with
  | None => w
  | Some info =>
      let r := (refs info - 1)%Z in
      if (r <=? 0)%Z
      then
        with_CACHE (delete absPath (CACHE w))
          (with_WATCHERS (delete absPath (WATCHERS w))
             (with_liveWatchers (delete (watcher info) (liveWatchers w)) (nextWatcher w) w))
      else with_WATCHERS (<[absPath := mkWatchInfo (watcher info) r]> (WATCHERS w)) w
  end.

(** ** The tag highlighter: the match loop of [updateDecorations] *)

Definition safeRegex `{Host} (src : string) : RegExp :=
  match regexp_compile src with
  | Some m => mkRegExp m 0
  | None => mkRegExp (re_matcher default_re) 0
  end.

(** [if (m.index === pattern.lastIndex) pattern.lastIndex++] *)
Definition advance (m : Match) (pattern : RegExp) : RegExp :=
  if index m =? lastIndex pattern
  then mkRegExp (matcher pattern) (S (lastIndex pattern))
  else pattern.

Definition makeItem `{Host} (baseDir sep txt : string) (m : Match) : Item :=
  let full := matched txt m in
  let inner := slice_neg 2 2 full in
  mkItem (mkRange (index m) (index m + String.length full)) inner
    (toAbsolute baseDir inner sep).

(** [while ((m = pattern.exec(text)) !== null) { ... }]: [fuel] bounds the
    number of calls of [exec]; [None] stands for a loop that is still running
    when the fuel is spent. *)
Fixpoint matchLoop `{Host} (fuel : nat) (baseDir sep txt : string)
    (pattern : RegExp) (matches : list Item) : option (list Item) :=
  match fuel with
  | O => None
  | S fuel' =>
      match exec pattern txt with
      | (None, _) => Some matches
      | (Some m, pattern') =>
          matchLoop fuel' baseDir sep txt (advance m pattern')
            (matches ++ [makeItem baseDir sep txt m])
      end
  end.

(** [x || d] for an option of the configuration that holds a string *)
Definition or_string (x : option string) (d : string) : string :=
  match x with
  | Some s => if nonempty s then s else d
  | None => d
  end.

(** The synchronous first part of [updateDecorations(editor)], up to
    [await Promise.all(...)]; [None] when there is no such editor or the match
    loop is not over after one call of [exec] for each position of the text
    and two more. *)
Definition updateDecorations_begin `{Host} (ed : nat) (w : World) : option Pass :=
  e ← editors w !! ed;
  let cfg := config w in
  let pattern := safeRegex (or_string (cfg_pattern cfg) default_pattern_src) in
  let sep := or_string (cfg_pathSeparator cfg) ":" in
  let onlyExisting := default true (cfg_onlyHighlightExistingPaths cfg) in
  let showInline := default true (cfg_showInline cfg) in
  let showHover := default true (cfg_showHover cfg) in
  let maxBytes := Z.max 0 (default 8192%Z (cfg_maxBytes cfg)) in
  let joiner := or_string (cfg_newlineJoiner cfg) " â†© " in
  let baseDir := path_dirname (fsPath e) in
  let txt := getText e in
  matches ← matchLoop (String.length txt + 2) baseDir sep txt pattern [];
  Some (mkPass ed onlyExisting showInline showHover maxBytes joiner matches).

(** ** The tag highlighter: the second part of [updateDecorations] *)

(** [text.replace(/\r?\n/g, joiner)], for a joiner without [$] patterns. *)
Fixpoint join_lines (joiner s : list ascii) : list ascii :=
  match s with
  | [] => []
  | c :: s' =>
      if Ascii.eqb c "010" then joiner ++ join_lines joiner s'
      else
        match s' with
        | d :: s'' =>
            if Ascii.eqb c "013" && Ascii.eqb d "010"
            then joiner ++ join_lines joiner s''
            else c :: join_lines joiner s'
        | [] => [c]
        end
  end.

Definition oneLine (joiner txt : string) : string :=
  unchars (join_lines (chars joiner) (chars txt)).

Definition fence (txt : string) : string :=
  "```text" ++ String "010" txt ++ String "010" "```".

(** The local state of the second part: the process, [inlineDecos],
    [hideDecos] and [needed]. *)
Record Resolving : Type := mkResolving {
  rs_world : World;
  rs_inline : list Deco;
  rs_hide : list Deco;
  rs_needed : gset string;
}.

(** The callback of [matches.map] for one element.  Its three [await]s are
    taken in one step, and the callbacks of one call run one after the other,
    in the order of [matches]. *)
Definition resolveItem `{Host} (ps : Pass) (st : Resolving) (it : Item) : Resolving :=
  let w := rs_world st in
  let p := it_absPath it in
  let exists_ := pathExists p w in
  if pass_onlyExisting ps && negb exists_ then st
  else
    let w1 := if exists_ then retainWatcher p w else w in
    let needed := if exists_ then {[p]} ∪ rs_needed st else rs_needed st in
    let '(txt, w2) :=
      if exists_ then readFileTruncated p (pass_maxBytes ps) w1 else ("", w1) in
    let hover :=
      if pass_showHover ps
      then Some (if exists_ then fence txt else "_Path not found_")
      else None in
    if pass_showInline ps
    then
      mkResolving w2
        (rs_inline st ++
           [mkDeco (it_range it) hover
              (Some (if exists_ then oneLine (pass_joiner ps) txt else "(missing)"))])
        (rs_hide st ++ [mkDeco (it_range it) hover None])
        needed
    else if pass_showHover ps
    then mkResolving w2 (rs_inline st ++ [mkDeco (it_range it) hover None]) (rs_hide st) needed
    else mkResolving w2 (rs_inline st) (rs_hide st) needed.

Definition resolveAll `{Host} (ps : Pass) (w : World) : Resolving :=
  foldl (resolveItem ps) (mkResolving w [] [] ∅) (pass_matches ps).

(** [editor.setDecorations(tagDecoInline, inl); editor.setDecorations(tagDecoHide, hid)] *)
Definition setDecorations (ed : nat) (inl hid : list Deco) (w : World) : World :=
  with_editors
    (alter (fun e => mkEditor (fsPath e) (getText e) inl hid) ed (editors w)) w.

(** [for (const [p, info] of WATCHERS) if (!needed.has(p)) releaseWatcher(p)] *)
Definition releaseUnneeded (needed : gset string) (w : World) : World :=
  foldl (fun w' p => if decide (p ∈ needed) then w' else releaseWatcher p w')
    w (elements (dom (WATCHERS w))).

(** The part of [updateDecorations] that runs once [Promise.all] has settled. *)
Definition updateDecorations_end `{Host} (ps : Pass) (w : World) : World :=
  let st := resolveAll ps w in
  releaseUnneeded (rs_needed st)
    (setDecorations (pass_editor ps) (rs_inline st) (rs_hide st) (rs_world st)).

(** The render plan of a pass: the two decoration lists it hands to the editor. *)
Definition plan `{Host} (ps : Pass) (w : World) : list Deco * list Deco :=
  let st := resolveAll ps w in (rs_inline st, rs_hide st).

Definition applied (ed : nat) (w : World) : option (list Deco * list Deco) :=
  (fun e => (inlineDecos e, hideDecos e)) <$> editors w !! ed.

(** ** The tag highlighter: the events of [activate] *)

(** [disposeDecorations(); createDecorations()]: disposing a decoration type
    removes its decorations from every editor. *)
Definition recreateDecorations (w : World) : World :=
  let n := nextDecoType w in
  with_editors ((fun e => mkEditor (fsPath e) (getText e) [] []) <$> editors w)
    (with_decoTypes n (S n) (S (S n))
       (disposedDecoTypes w ++ [tagDecoInline w; tagDecoHide w]) w).

Inductive Event : Type :=
| EvBegin (ed : nat)
    (** [updateDecorations(ed)] is called and runs up to its [await] *)
| EvComplete (i : nat)
    (** the [i]-th suspended call of [updateDecorations] runs to its end *)
| EvEdit (ed : nat) (txt : string)
    (** the text of a document changes *)
| EvConfig (cfg : Config)
    (** the configuration changes: [onDidChangeConfiguration] *)
| EvFs (p : string) (n : option Node)
    (** a file is written, created or removed *)
| EvWatch (id : nat)
    (** the file system watcher [id] reports a change *).

(** One event; [None] when the event cannot happen in this state or the match
    loop of a new call does not come to an end. *)
Definition step `{Host} (w : World) (ev : Event) : option World :=
  match ev with
  | EvBegin ed =>
      ps ← updateDecorations_begin ed w;
      Some (with_inflight (inflight w ++ [ps]) w)
  | EvComplete i =>
      ps ← inflight w !! i;
      Some (with_inflight (delete i (inflight w)) (updateDecorations_end ps w))
  | EvEdit ed txt =>
      e ← editors w !! ed;
      Some (with_editors
              (<[ed := mkEditor (fsPath e) txt (inlineDecos e) (hideDecos e)]> (editors w)) w)
  | EvConfig cfg => Some (recreateDecorations (with_config cfg w))
  | EvFs p n => Some (with_fs (match n with
                               | Some x => <[p := x]> (fs w)
                               | None => delete p (fs w)
                               end) w)
  | EvWatch id =>
      p ← liveWatchers w !! id;
      let w' := with_CACHE (delete p (CACHE w)) w in
      match activeTextEditor w with
      | Some ed =>
          ps ← updateDecorations_begin ed w';
          Some (with_inflight (inflight w' ++ [ps]) w')
      | None => Some w'
      end
  end.

Fixpoint run `{Host} (w : World) (evs : list Event) : option World :=
  match evs with
  | [] => Some w
  | ev :: evs' => w' ← step w ev; run w' evs'
  end.

(** The process right after [activate], before any editor is decorated. *)
Definition initial (files : FS) (cfg : Config) (eds : gmap nat Editor)
    (active : option nat) : World :=
  mkWorld files cfg ∅ ∅ ∅ 0 0 1 2 [] eds active [].

(** Watcher bookkeeping seen from outside: a sequence of calls. *)
Inductive WatchOp : Type :=
| Retain (absPath : string)
| Release (absPath : string).

Definition watchOp (w : World) (op : WatchOp) : World :=
  match op with
  | Retain p => retainWatcher p w
  | Release p => releaseWatcher p w
  end.

(** ** The prompt builder: [expandedKeys] and its reconciliation *)

Definition PREVIEW_SCHEME : string := "prompt-builder-preview".

Fixpoint decimal_go (fuel n : nat) (acc : string) : string :=
  match fuel with
  | O => acc
  | S fuel' =>
      let acc' := String (ascii_of_nat (48 + n mod 10)) acc in
      if n / 10 =? 0 then acc' else decimal_go fuel' (n / 10) acc'
  end.

(** [`${startOffset}`] for an offset *)
Definition decimal (n : nat) : string := decimal_go (S n) n "".

(** [makeKey(docUri, startOffset)]; the URI is taken in its printed form. *)
Definition makeKey (docUri : string) (startOffset : nat) : string :=
  docUri ++ ":" ++ decimal startOffset.

Definition ends_with (suffix s : string) : bool :=
  bool_decide (drop (String.length s - String.length suffix) (chars s) = chars suffix).

(** One result of [TAG_REGEX.exec]: [match.index], [match[1]], [match[2]]. *)
Record TagMatch : Type := mkTagMatch {
  tm_index : nat;
  tm_folder : string;
  tm_file : string;
}.

(** A visible editor as the handler reads it: [ed.document.uri.scheme] and
    [new URLSearchParams(u.query).get("target")]. *)
Record VisibleEditor : Type := mkVisibleEditor {
  ve_scheme : string;
  ve_target : option string;
}.

(** An element of [vscode.workspace.textDocuments]. *)
Record TextDocument : Type := mkTextDocument {
  td_uri : string;
  td_scheme : string;
  td_fileName : string;
  td_fsPath : string;
  td_text : string;
}.

Section Reconciliation.
Context `{Host}.

(** [TAG_REGEX] is one object of the module, with the flag [g]: every loop
    over [TAG_REGEX.exec] starts where [TAG_REGEX.lastIndex] stands and leaves
    it at 0, the last [exec] of a loop being the one that answers [null].

    [tagMatches lastIndex text]: the matches that the loop
    [while ((match = TAG_REGEX.exec(text)))] visits when it starts with
    [TAG_REGEX.lastIndex] at [lastIndex] and nothing else runs before it is
    over, as in the handler, whose loop holds no [await]. *)
Variable tagMatches : nat -> string -> list TagMatch.

(** One turn of the loop over the matches of a document, on
    [presentPreviewKeys]. *)
Definition addKey (target : string) (doc : TextDocument) (present : gset string)
    (m : TagMatch) : gset string :=
  let folderPart := string_trim (tm_folder m) in
  let filePart := string_trim (tm_file m) in
  let docDir := path_dirname (td_fsPath doc) in
  let candidate := path_join docDir [folderPart; filePart] in
  if String.eqb (path_resolve candidate) (path_resolve target)
  then {[makeKey (td_uri doc) (tm_index m)]} ∪ present
  else present.

(** The loop [while ((match = TAG_REGEX.exec(text)))] of the handler over
    one document, on [presentPreviewKeys] and [TAG_REGEX.lastIndex]. *)
Definition scanDocument (target : string) (st : gset string * nat)
    (doc : TextDocument) : gset string * nat :=
  (foldl (addKey target doc) st.1 (tagMatches st.2 (td_text doc)), 0).

(** The turn of the inner loop for one open document. *)
Definition keysOfDocument (target : string) (st : gset string * nat)
    (doc : TextDocument) : gset string * nat :=
  if negb (String.eqb (td_scheme doc) "file") || negb (ends_with ".txt" (td_fileName doc))
  then st
  else scanDocument target st doc.

(** The turn of the outer loop for one visible editor. *)
Definition keysOfEditor (docs : list TextDocument) (st : gset string * nat)
    (ed : VisibleEditor) : gset string * nat :=
  if String.eqb (ve_scheme ed) PREVIEW_SCHEME
  then
    match ve_target ed with
    | Some target => if nonempty target then foldl (keysOfDocument target) st docs else st
    | None => st
    end
  else st.

(** [presentPreviewKeys] at the end of the two loops of the handler, which
    starts with [TAG_REGEX.lastIndex] at [lastIndex]. *)
Definition presentPreviewKeys (lastIndex : nat) (eds : list VisibleEditor)
    (docs : list TextDocument) : gset string :=
  (foldl (keysOfEditor docs) (∅, lastIndex) eds).1.
End Reconciliation.

(** [expandedKeys.has(key)] *)
Definition isExpanded (key : string) (expandedKeys : gset string) : bool :=
  bool_decide (key ∈ expandedKeys).

(** [expandedKeys.add(key)] in [openInlinePeek] *)
Definition markExpanded (key : string) (expandedKeys : gset string) : gset string :=
  {[key]} ∪ expandedKeys.

(** [expandedKeys.clear()] *)
Definition clearExpanded (expandedKeys : gset string) : gset string := ∅.

(** [expandedKeys.clear(); for (const k of presentPreviewKeys) expandedKeys.add(k)] *)
Definition reconcile (present expandedKeys : gset string) : gset string :=
  foldl (fun acc k => markExpanded k acc) (clearExpanded expandedKeys) (elements present).

(** The handler of [onDidChangeVisibleTextEditors], on [expandedKeys]. *)
Definition onDidChangeVisibleTextEditors `{Host} (tagMatches : nat -> string -> list TagMatch)
    (lastIndex : nat) (eds : list VisibleEditor) (docs : list TextDocument)
    (expandedKeys : gset string) : gset string :=
  reconcile (presentPreviewKeys tagMatches lastIndex eds docs) expandedKeys.

(** ** A host for the examples: POSIX paths, ASCII files, two patterns *)

Module Posix.

Definition is_sep (c : ascii) : bool := Ascii.eqb c "/".

Definition join_with (l : list (list ascii)) : list ascii :=
  match l with
  | [] => []
  | h :: t => h ++ (t ≫= fun x => "/"%char :: x)
  end.

(** [normalizeString]: [stack] holds the segments kept so far, last first. *)
Fixpoint normalize_go (allowAboveRoot : bool) (stack segs : list (list ascii))
    : list (list ascii) :=
  match segs with
  | [] => rev stack
  | seg :: rest =>
      if bool_decide (seg = []) || bool_decide (seg = chars ".")
      then normalize_go allowAboveRoot stack rest
      else if bool_decide (seg = chars "..")
      then
        match stack with
        | top :: stack' =>
            if bool_decide (top = chars "..")
            then normalize_go allowAboveRoot
                   (if allowAboveRoot then seg :: stack else stack) rest
            else normalize_go allowAboveRoot stack' rest
        | [] =>
            normalize_go allowAboveRoot (if allowAboveRoot then [seg] else []) rest
        end
      else normalize_go allowAboveRoot (seg :: stack) rest
  end.

Definition normalizeString (allowAboveRoot : bool) (p : list ascii) : list ascii :=
  join_with (normalize_go allowAboveRoot [] (split_where is_sep p)).

Definition isAbsolute (p : list ascii) : bool :=
  match p with c :: _ => is_sep c | [] => false end.

Definition trailingSeparator (p : list ascii) : bool :=
  match rev p with c :: _ => is_sep c | [] => false end.

Definition normalize (path : string) : string :=
  let p := chars path in
  match p with
  | [] => "."
  | _ =>
      let body := normalizeString (negb (isAbsolute p)) p in
      match body with
      | [] => if isAbsolute p then "/" else if trailingSeparator p then "./" else "."
      | _ =>
          let body' := if trailingSeparator p then (body ++ ["/"%char])%list else body in
          unchars (if isAbsolute p then "/"%char :: body' else body')
      end
  end.

Definition join (base : string) (parts : list string) : string :=
  let args := filter (fun x => x <> []) (chars <$> (base :: parts)) in
  match args with
  | [] => "."
  | _ => normalize (unchars (join_with args))
  end.

Fixpoint skip_while (p : ascii -> bool) (s : list ascii) : list ascii :=
  match s with
  | c :: s' => if p c then skip_while p s' else s
  | [] => []
  end.

Definition dirname (path : string) : string :=
  match chars path with
  | [] => "."
  | c0 :: body =>
      let hasRoot := is_sep c0 in
      let found :=
        skip_while (fun c => negb (is_sep c)) (skip_while is_sep (rev body)) in
      match found with
      | [] => if hasRoot then "/" else "."
      | _ :: before =>
          if hasRoot && (length found =? 1) then "//"
          else unchars (c0 :: rev before)
      end
  end.

(** [path.resolve(p)] in a process whose working directory is the root. *)
Definition resolve (path : string) : string :=
  let p := chars path in
  let full := if isAbsolute p then p else "/"%char :: p in
  unchars ("/"%char :: normalizeString false full).

Definition toString (buf : list Byte.byte) : string := string_of_list_byte buf.

(** The white space that an ASCII text can hold. *)
Definition is_space (c : ascii) : bool :=
  let n := nat_of_ascii c in (n =? 32) || ((9 <=? n) && (n <=? 13)).

Fixpoint drop_spaces (s : list ascii) : list ascii :=
  match s with
  | c :: s' => if is_space c then drop_spaces s' else s
  | [] => []
  end.

Definition trim (s : string) : string :=
  unchars (rev (drop_spaces (rev (drop_spaces (chars s))))).

(** A pattern compiler that knows the built-in source and the source [x*],
    and refuses every other source. *)
Definition compile (src : string) : option Matcher :=
  if String.eqb src default_pattern_src then Some (re_matcher default_re)
  else if String.eqb src "x*" then Some (re_matcher (Star true (Chr "x")))
  else None.

Definition host : Host :=
  {| path_join := join;
     path_normalize := normalize;
     path_dirname := dirname;
     path_resolve := resolve;
     buffer_toString := toString;
     regexp_compile := compile;
     string_trim := trim |}.

End Posix.

(** ** Predicates of the statements *)

(** An occurrence lies inside the text, possibly empty. *)
Definition in_text (txt : string) (it : Item) : Prop :=
  startOffset (it_range it) <= endOffset (it_range it)
  /\ endOffset (it_range it) <= String.length txt.

(** [a] starts strictly before [b] and ends where [b] starts at the latest. *)
Definition precedes (a b : Item) : Prop :=
  startOffset (it_range a) < startOffset (it_range b)
  /\ endOffset (it_range a) <= startOffset (it_range b).

(** Every earlier element of the list precedes every later one. *)
Definition ordered (l : list Item) : Prop :=
  forall (i j : nat) (a b : Item),
    i < j -> l !! i = Some a -> l !! j = Some b -> precedes a b.

(** The pattern never matches the empty string in this text. *)
Definition never_empty (m : Matcher) (txt : string) : Prop :=
  forall j : nat, m txt j <> Some j.

(** Every registered watcher is held by at least one reference. *)
Definition refs_positive (w : World) : Prop :=
  map_Forall (fun _ info => (0 < refs info)%Z) (WATCHERS w).

(** The characters that end a segment of a tag when the configured
    separator is the single character [c]. *)
Definition is_delim (c x : ascii) : bool := Ascii.eqb x c || is_slash x.

(** Two spellings of a tag that agree up to the choice of the delimiter at
    each place where one stands. *)
Definition same_spelling (c : ascii) (s1 s2 : string) : Prop :=
  Forall2 (fun x y => x = y \/ (is_delim c x = true /\ is_delim c y = true))
    (chars s1) (chars s2).

(** A continuation of the matcher that never answers more text than it got. *)
Definition shrinking (k : list ascii -> option (list ascii)) : Prop :=
  forall s t, k s = Some t -> length t <= length s.

(** The state of the loop: what was collected lies in the text, is ordered,
    and ends before the place where the next search starts. *)
Definition loop_inv (txt : string) (R : RegExp) (acc : list Item) : Prop :=
  Forall (in_text txt) acc /\ ordered acc
  /\ Forall (fun a => startOffset (it_range a) < lastIndex R
                      /\ endOffset (it_range a) <= lastIndex R) acc.

(** Two spellings that resolve to one target under the separator [sep]: they
    have the same segments, or, for a separator of one character, they differ
    only in the delimiter chosen at each place. *)
Definition same_target (sep s1 s2 : string) : Prop :=
  segments sep s1 = segments sep s2
  \/ exists c, sep = String c "" /\ same_spelling c s1 s2.

(** ** A workspace for the examples

    The directory [/ws] holds the document [doc.txt] and the file [a/b] of ten
    bytes; nothing is configured. *)

Definition sample_node : Node :=
  mkNode KFile 1 (Some (list_byte_of_string "0123456789")).

Definition sample_files : FS := {[ "/ws/a/b" := sample_node ]}.

Definition no_config : Config := mkConfig None None None None None None None.

Definition sample_editors : gmap nat Editor :=
  {[ 0 := mkEditor "/ws/doc.txt" "<<a:b>>" [] [] ]}.

Definition sample_world : World :=
  initial sample_files no_config sample_editors (Some 0).

(** The same workspace with a text cached for [a/b] under an older
    modification time than the one the file has. *)
Definition stale_world : World :=
  with_CACHE {[ "/ws/a/b" := mkCacheEntry 0 "old" ]} sample_world.

(** The configuration after the user sets [maxBytes] to 4. *)
Definition four_bytes : Config :=
  mkConfig None None None None None (Some 4%Z) None.

(** A pass, a change of [maxBytes], and the next pass. *)
Definition limit_change : list Event :=
  [EvBegin 0; EvComplete 0; EvConfig four_bytes; EvBegin 0; EvComplete 0].

(** Two suspended calls for the editor 0: the first saw the tag at offset 0,
    the second, started after an edit, sees it at offset 3. *)
Definition early_pass : Pass :=
  mkPass 0 true true true 8192 " " [mkItem (mkRange 0 7) "a:b" "/ws/a/b"].

Definition late_pass : Pass :=
  mkPass 0 true true true 8192 " " [mkItem (mkRange 3 10) "a:b" "/ws/a/b"].

Definition overlap_world : World :=
  with_inflight [early_pass; late_pass] sample_world.

Definition after_late : World :=
  with_inflight [early_pass] (@updateDecorations_end Posix.host late_pass overlap_world).

Definition after_both : World :=
  with_inflight [] (@updateDecorations_end Posix.host early_pass after_late).

(** The limit of the configuration set to 0. *)
Definition zero_bytes : Config :=
  mkConfig None None None None None (Some 0%Z) None.

(** A document with a tag whose target [shared/header.txt] holds [Hello]. *)
Definition header_world : World :=
  initial {[ "/ws/shared/header.txt" := mkNode KFile 7 (Some (list_byte_of_string "Hello")) ]}
    no_config {[ 0 := mkEditor "/ws/doc.txt" "Intro <<shared:header.txt>> body" [] [] ]}
    (Some 0).

(** A directory at [/ws/a/b] instead of the file. *)
Definition dir_node : Node := mkNode KDir 1 None.

(** A pass over the sample workspace, after which the file [a/b] gives way to
    a directory that carries the modification time the file had. *)
Definition file_becomes_directory : list Event :=
  [EvBegin 0; EvComplete 0; EvFs "/ws/a/b" (Some dir_node)].

Definition dir_world : World :=
  initial {[ "/ws/a/b" := dir_node ]} no_config sample_editors (Some 0).

(** ** The tag highlighter: [debounce] *)

(** The closure that [debounce(fn, ms)] returns, with the timers it has armed:
    [db_t] is its variable [t], [db_timers] maps each armed timer to the
    arguments its callback will pass to [fn], and [db_invoked] lists the calls
    of [fn] so far.  Timers are numbered in the order of their creation. *)
Record Debounced (A : Type) : Type := mkDebounced {
  db_t : option nat;
  db_timers : gmap nat A;
  db_nextTimer : nat;
  db_invoked : list A;
}.
Arguments mkDebounced {A}.
Arguments db_t {A}.
Arguments db_timers {A}.
Arguments db_nextTimer {A}.
Arguments db_invoked {A}.

(** [debounce(fn, ms)] *)
Definition debounce (A : Type) : Debounced A := mkDebounced None ∅ 0 [].

(** A call of the debounced function:
    [if (t) clearTimeout(t); t = setTimeout(() => fn(...args), ms)]. *)
Definition debounced_call {A : Type} (args : A) (d : Debounced A) : Debounced A :=
  let timers :=
    match db_t d with
    | Some t => delete t (db_timers d)
    | None => db_timers d
    end in
  let t := db_nextTimer d in
  mkDebounced (Some t) (<[t := args]> timers) (S t) (db_invoked d).

(** The timer [t] expires: its callback, if the timer is still armed, calls
    [fn] with the arguments of the call that armed it. *)
Definition timer_fires {A : Type} (t : nat) (d : Debounced A) : Debounced A :=
  match db_timers d !! t with
  | Some args =>
      mkDebounced (db_t d) (delete t (db_timers d)) (db_nextTimer d)
        (db_invoked d ++ [args])%list
  | None => d
  end.

Inductive DebounceOp (A : Type) : Type :=
| DbCall (args : A)
| DbFire (t : nat).
Arguments DbCall {A}.
Arguments DbFire {A}.

Definition debounceOp {A : Type} (d : Debounced A) (op : DebounceOp A) : Debounced A :=
  match op with
  | DbCall args => debounced_call args d
  | DbFire t => timer_fires t d
  end.

(** The number of calls of the debounced function among some operations. *)
Definition calls_of {A : Type} (ops : list (DebounceOp A)) : nat :=
  length (omap (fun op => match op with DbCall args => Some args | DbFire _ => None end) ops).

(** ** The tag highlighter: [openVirtualPreview] *)

(** [s.slice(a, b)] for offsets [a] and [b] *)
Definition slice (a b : nat) (s : string) : string := substring a (b - a) s.

(** [s.slice(a)] *)
Definition slice_from (a : nat) (s : string) : string :=
  substring a (String.length s - a) s.

(** [chunks.join('')] *)
Definition join_chunks (chunks : list string) : string :=
  foldr String.append "" chunks.

(** [`<<MISSING:${inner}>>`] *)
Definition missing_marker (inner : string) : string :=
  "<<MISSING:" ++ inner ++ ">>".

(** The state of the loop of [openVirtualPreview]: [chunks], [last] and the
    process. *)
Record Substituting : Type := mkSubstituting {
  sb_chunks : list string;
  sb_last : nat;
  sb_world : World;
}.

(** The body of the loop for one match. *)
Definition substituteMatch `{Host} (baseDir sep : string) (maxBytes : Z)
    (srcText : string) (st : Substituting) (m : Match) : Substituting :=
  let chunks := (sb_chunks st ++ [slice (sb_last st) (index m) srcText])%list in
  let inner := slice_neg 2 2 (matched srcText m) in
  let abs := toAbsolute baseDir inner sep in
  let exists_ := pathExists abs (sb_world st) in
  let '(piece, w) :=
    if exists_ then readFileTruncated abs maxBytes (sb_world st)
    else (missing_marker inner, sb_world st) in
  mkSubstituting (chunks ++ [piece])%list
    (index m + String.length (matched srcText m)) w.

(** The loop of [openVirtualPreview], with the same fuel as the match loop. *)
Fixpoint previewLoop `{Host} (fuel : nat) (baseDir sep : string) (maxBytes : Z)
    (srcText : string) (pattern : RegExp) (st : Substituting) : option Substituting :=
  match fuel with
  | O => None
  | S fuel' =>
      match exec pattern srcText with
      | (None, _) => Some st
      | (Some m, pattern') =>
          previewLoop fuel' baseDir sep maxBytes srcText (advance m pattern')
            (substituteMatch baseDir sep maxBytes srcText st m)
      end
  end.

(** [openVirtualPreview()] up to the registration of the content provider:
    the text [substituted] and the process after the reads; [None] when no
    editor is active or the loop is not over within its fuel. *)
Definition openVirtualPreview `{Host} (w : World) : option (string * World) :=
  ed ← activeTextEditor w;
  e ← editors w !! ed;
  let cfg := config w in
  let pattern := safeRegex (or_string (cfg_pattern cfg) default_pattern_src) in
  let sep := or_string (cfg_pathSeparator cfg) ":" in
  let maxBytes := Z.max 0 (default 8192%Z (cfg_maxBytes cfg)) in
  let baseDir := path_dirname (fsPath e) in
  let srcText := getText e in
  st ← previewLoop (String.length srcText + 2) baseDir sep maxBytes srcText pattern
         (mkSubstituting [] 0 w);
  Some (join_chunks (sb_chunks st ++ [slice_from (sb_last st) srcText])%list,
        sb_world st).


(** ** The prompt builder: decorations and links *)

(** A result of [TAG_REGEX.exec] with the length of [match[0]]. *)
Record TagHit : Type := mkTagHit {
  hit_match : TagMatch;
  hit_length : nat;
}.

(** A visible editor as [refreshAllOpenTextEditors] reads it: its document
    and [ed.document.languageId]. *)
Record TextEditor : Type := mkTextEditor {
  te_document : TextDocument;
  te_languageId : string;
}.

(** A document link: its range and the arguments encoded in its command URI,
    [[docUriStr, startOffset, endOffset, targetPath]]. *)
Record DocumentLink : Type := mkDocumentLink {
  link_range : Range;
  link_docUri : string;
  link_startOffset : nat;
  link_endOffset : nat;
  link_targetPath : string;
  link_tooltip : string;
}.

(** [fs.access(p)]: succeeds when something exists at [p]. *)
Definition fs_access (files : FS) (p : string) : bool :=
  bool_decide (is_Some (files !! p)).

Definition targetPath `{Host} (doc : TextDocument) (m : TagMatch) : string :=
  path_join (path_dirname (td_fsPath doc))
    [string_trim (tm_folder m); string_trim (tm_file m)].

Definition hit_range (h : TagHit) : Range :=
  mkRange (tm_index (hit_match h)) (tm_index (hit_match h) + hit_length h).

Definition is_plain_txt (languageId fileName : string) : bool :=
  String.eqb languageId "plaintext" && ends_with ".txt" fileName.

Section Refresh.
Context `{Host}.

(** The matches that one run of a loop over [TAG_REGEX.exec] visits on a
    text, with their lengths.  The loops of the link provider and of the
    refresh are suspended at every [await fs.access], and go on from where
    [TAG_REGEX.lastIndex] stands then, which another loop may have moved in
    between: the sequence they visit is left open here. *)
Variable tagHits : string -> list TagHit.

(** One turn of the second loop of [refreshAllOpenTextEditors], on
    [fileDecos2] and [expDecos2]. *)
Definition refreshHit (files : FS) (expandedKeys : gset string) (doc : TextDocument)
    (decos : list Range * list Range) (h : TagHit) : list Range * list Range :=
  if fs_access files (targetPath doc (hit_match h))
  then
    ((decos.1 ++ [hit_range h])%list,
     if isExpanded (makeKey (td_uri doc) (tm_index (hit_match h))) expandedKeys
     then (decos.2 ++ [hit_range h])%list
     else decos.2)
  else decos.

(** What [refreshAllOpenTextEditors] sets on one visible editor: the ranges
    of [existingFileDecoration] and those of [expandedDecoration]. *)
Definition refreshEditor (files : FS) (expandedKeys : gset string) (ed : TextEditor)
    : list Range * list Range :=
  let doc := te_document ed in
  if negb (is_plain_txt (te_languageId ed) (td_fileName doc))
  then ([], [])
  else foldl (refreshHit files expandedKeys doc) ([], []) (tagHits (td_text doc)).

(** [provideDocumentLinks(document)] *)
Definition provideDocumentLinks (files : FS) (ed : TextEditor) : list DocumentLink :=
  let doc := te_document ed in
  if negb (is_plain_txt (te_languageId ed) (td_fileName doc))
  then []
  else
    h ← tagHits (td_text doc);
    let m := hit_match h in
    if fs_access files (targetPath doc m)
    then
      [mkDocumentLink (hit_range h) (td_uri doc) (tm_index m)
         (tm_index m + hit_length h) (targetPath doc m)
         ("Open referenced file: " ++ string_trim (tm_folder m) ++ "/"
          ++ string_trim (tm_file m))]
    else [].
End Refresh.

(** The number that a string of decimal digits writes. *)
Definition digit_value (c : ascii) : nat := nat_of_ascii c - 48.

Definition is_digit (c : ascii) : bool :=
  (48 <=? nat_of_ascii c) && (nat_of_ascii c <=? 57).

Definition undecimal (s : string) : nat :=
  foldl (fun acc c => 10 * acc + digit_value c) 0 (chars s).

(** ** Predicates of the further properties *)

(** What one call of [releaseWatcher] leaves of an entry of [WATCHERS]. *)
Definition released (entry : option WatchInfo) : option WatchInfo :=
  info ← entry;
  if (refs info - 1 <=? 0)%Z then None
  else Some (mkWatchInfo (watcher info) (refs info - 1)).

(** The count of an entry of [WATCHERS], 0 for a path without one. *)
Definition refs_of (entry : option WatchInfo) : Z :=
  default 0%Z (refs <$> entry).

(** The watchers that were not disposed are those of [WATCHERS]: the watcher
    of a registered path is live and clears that path, and a live watcher was
    created before and belongs to the entry of the path it clears. *)
Definition watchers_live (w : World) : Prop :=
  (forall p info, WATCHERS w !! p = Some info ->
     liveWatchers w !! watcher info = Some p)
  /\ (forall id p, liveWatchers w !! id = Some p ->
        id < nextWatcher w
        /\ exists info, WATCHERS w !! p = Some info /\ watcher info = id).

(** What a pass leaves alone: everything of the process but [CACHE],
    [WATCHERS], the watchers and the decorations. *)
Definition outside_tables (w : World)
    : FS * Config * option nat * list Pass * (nat * nat * nat * list nat) :=
  (fs w, config w, activeTextEditor w, inflight w,
   (tagDecoInline w, tagDecoHide w, nextDecoType w, disposedDecoTypes w)).

(** The document of an editor: its path and its text. *)
Definition document (e : Editor) : string * string := (fsPath e, getText e).

(** The number of occurrences of a pass that resolve to the path [q]. *)
Definition occurrences_of (q : string) (matches : list Item) : nat :=
  length (filter (fun it => it_absPath it = q) matches).

(** An occurrence is decorated when its target exists or missing targets are
    shown as well. *)
Definition shown (ps : Pass) (w : World) (it : Item) : bool :=
  negb (pass_onlyExisting ps) || pathExists (it_absPath it) w.

(** What the two decoration lists of a pass have in common for an
    occurrence: its range and its hover text. *)
Definition deco_key (d : Deco) : Range * option string := (range d, hoverMessage d).

(** A segment as [toAbsolute] hands it to [path.join]: not empty, and free of
    the characters that satisfy [p]. *)
Definition clean_segment (p : ascii -> bool) (seg : string) : Prop :=
  seg <> "" /\ Forall (fun c => p c = false) (chars seg).

(** An occurrence is a match of the pattern: a match attempt at its start
    ends at its end. *)
Definition is_match (m : Matcher) (txt : string) (it : Item) : Prop :=
  m txt (startOffset (it_range it)) = Some (endOffset (it_range it)).

(** The position [j] is the start of an occurrence of the list or lies
    strictly inside one. *)
Definition covered (l : list Item) (j : nat) : Prop :=
  exists it, it ∈ l
    /\ (startOffset (it_range it) = j
        \/ startOffset (it_range it) < j < endOffset (it_range it)).

(** The inner text and the path of an occurrence are those of its range. *)
Definition well_formed_item `{Host} (baseDir sep txt : string) (it : Item) : Prop :=
  it_inner it =
    slice_neg 2 2 (slice (startOffset (it_range it)) (endOffset (it_range it)) txt)
  /\ it_absPath it = toAbsolute baseDir (it_inner it) sep.

(** Only the timer held in [t] can be armed. *)
Definition one_timer {A : Type} (d : Debounced A) : Prop :=
  forall (t : nat) (args : A), db_timers d !! t = Some args -> db_t d = Some t.



(** A visible editor that shows no preview of a target. *)
Definition no_preview (ed : VisibleEditor) : Prop :=
  ve_scheme ed <> PREVIEW_SCHEME \/ ve_target ed = None \/ ve_target ed = Some "".

(** The target that a visible editor shows a preview of, if it does. *)
Definition previewTarget (ed : VisibleEditor) : option string :=
  if String.eqb (ve_scheme ed) PREVIEW_SCHEME
  then match ve_target ed with
       | Some target => if nonempty target then Some target else None
       | None => None
       end
  else None.

(** The open documents that the handler scans. *)
Definition is_scanned (doc : TextDocument) : bool :=
  String.eqb (td_scheme doc) "file" && ends_with ".txt" (td_fileName doc).

(** The scans that one run of the handler makes, in their order: for each
    visible preview, in the order of the editors, one scan of each open
    [.txt] document of the [file] scheme, in the order of the documents. *)
Definition scans (eds : list VisibleEditor) (docs : list TextDocument)
    : list (string * TextDocument) :=
  target ← omap previewTarget eds;
  pair target <$> filter (fun doc => is_scanned doc = true) docs.

(** ** A document of the prompt builder for the examples *)

Definition sample_document : TextDocument :=
  mkTextDocument "file:///ws/doc.txt" "file" "/ws/doc.txt" "/ws/doc.txt"
    "<<shared:header.txt>>".

Definition sample_text_editor : TextEditor := mkTextEditor sample_document "plaintext".

(** The one match of [TAG_REGEX] on the text of the sample document. *)
Definition sample_hits (txt : string) : list TagHit :=
  if String.eqb txt "<<shared:header.txt>>"
  then [mkTagHit (mkTagMatch 0 "shared" "header.txt") 21]
  else [].

(** The same match as a scan that starts at [lastIndex] visits it: only a
    scan from the start of the text meets the tag. *)
Definition sample_matches (lastIndex : nat) (txt : string) : list TagMatch :=
  if lastIndex =? 0 then hit_match <$> sample_hits txt else [].

Definition sample_link : DocumentLink :=
  mkDocumentLink (mkRange 0 21) "file:///ws/doc.txt" 0 21 "/ws/shared/header.txt"
    "Open referenced file: shared/header.txt".

(** ** Facts about strings *)

Lemma length_chars (s : string) : length (chars s) = String.length s.
Proof. induction s as [|c s IH]; simpl; [reflexivity | now rewrite IH]. Qed.

Lemma chars_unchars (l : list ascii) : chars (unchars l) = l.
Proof. apply list_ascii_of_string_of_list_ascii. Qed.

Lemma substring_length (a n : nat) (s : string) :
  a + n <= String.length s -> String.length (substring a n s) = n.
Proof.
  revert a n. induction s as [|c s IH]; intros a n Hle; simpl in *.
  - destruct a, n; simpl; lia.
  - destruct a as [|a].
    + destruct n as [|n]; simpl; [reflexivity|]. rewrite (IH 0 n); lia.
    + apply IH. lia.
Qed.

(** ** Facts about the regular expression engine *)

Lemma iterate_shrinking body greedy k :
  (forall k', shrinking k' -> shrinking (fun s' => body s' k')) ->
  shrinking k -> forall n, shrinking (iterate body greedy k n).
Proof.
  intros Hbody Hk n. induction n as [|n IHn]; intros s t; simpl.
  - apply Hk.
  - set (kk := fun s' => if length s' <? length s then iterate body greedy k n s' else None).
    assert (Hkk : shrinking kk).
    { intros s' t'. unfold kk. destruct (length s' <? length s); [apply IHn | discriminate]. }
    pose proof (Hbody kk Hkk s) as Hmore. unfold orelse.
    destruct greedy.
    + destruct (body s kk) eqn:Em.
      * intros [= <-]. now apply Hmore.
      * apply Hk.
    + destruct (k s) eqn:Ek.
      * intros [= <-]. exact (Hk _ _ Ek).
      * apply Hmore.
Qed.

Lemma re_run_shrinking (r : re) :
  forall k, shrinking k -> shrinking (fun s' => re_run r s' k).
Proof.
  induction r as [|p|a IHa b IHb|a IHa b IHb|g a IHa]; intros k Hk s t; simpl.
  - apply Hk.
  - destruct s as [|c s']; [discriminate|].
    destruct (p c); [|discriminate]. intros E. apply Hk in E. simpl. lia.
  - apply (IHa _ (IHb k Hk)).
  - unfold orelse. destruct (re_run a s k) eqn:Ea.
    + intros [= <-]. exact (IHa k Hk _ _ Ea).
    + apply (IHb k Hk).
  - exact (iterate_shrinking (re_run a) g k IHa Hk (S (length s)) s t).
Qed.

Lemma re_matcher_ok (r : re) : matcher_ok (re_matcher r).
Proof.
  intros txt j e. unfold re_matcher.
  destruct (j <=? String.length txt) eqn:Hj; [|discriminate].
  apply Nat.leb_le in Hj.
  destruct (re_run r (drop j (chars txt)) Some) as [rest|] eqn:Er; [|discriminate].
  simpl. intros [= <-].
  assert (Hs : shrinking Some) by (intros s t [= <-]; lia).
  apply (re_run_shrinking r Some Hs) in Er.
  rewrite length_drop, length_chars in Er. lia.
Qed.

(** ** Facts about [exec] and the match loop *)

Lemma first_match_spec (m : Matcher) (txt : string) (i : nat) (mt : Match) :
  matcher_ok m ->
  first_match m txt i = Some mt ->
  i <= index mt /\ index mt <= endIndex mt /\ endIndex mt <= String.length txt
  /\ m txt (index mt) = Some (endIndex mt).
Proof.
  intros Hok Hfm. unfold first_match in Hfm.
  apply head_Some_elem_of, list_elem_of_omap in Hfm.
  destruct Hfm as (j & Hj & Hm).
  apply elem_of_seq in Hj.
  destruct (m txt j) as [e|] eqn:Hmj; [|discriminate].
  simpl in Hm. injection Hm as <-. simpl.
  destruct (Hok _ _ _ Hmj). repeat split; try lia. exact Hmj.
Qed.

Lemma exec_some (R R' : RegExp) (txt : string) (mt : Match) :
  matcher_ok (matcher R) ->
  exec R txt = (Some mt, R') ->
  lastIndex R <= index mt /\ index mt <= endIndex mt
  /\ endIndex mt <= String.length txt
  /\ matcher R txt (index mt) = Some (endIndex mt)
  /\ R' = mkRegExp (matcher R) (endIndex mt).
Proof.
  intros Hok. unfold exec.
  destruct (first_match (matcher R) txt (lastIndex R)) as [m'|] eqn:Hfm; [|discriminate].
  intros [= -> <-].
  destruct (first_match_spec _ _ _ _ Hok Hfm) as (? & ? & ? & ?). auto.
Qed.

Lemma advance_matcher (mt : Match) (R : RegExp) : matcher (advance mt R) = matcher R.
Proof. unfold advance. now destruct (index mt =? lastIndex R). Qed.

Lemma advance_lastIndex (mt : Match) (R : RegExp) :
  lastIndex R = endIndex mt -> index mt <= endIndex mt ->
  index mt < lastIndex (advance mt R) /\ endIndex mt <= lastIndex (advance mt R)
  /\ (endIndex mt = index mt -> lastIndex (advance mt R) = S (index mt)).
Proof.
  intros HR Hle. unfold advance.
  destruct (index mt =? lastIndex R) eqn:E; simpl.
  - apply Nat.eqb_eq in E. lia.
  - apply Nat.eqb_neq in E. lia.
Qed.

Lemma matchLoop_total `{Host} (baseDir sep txt : string) :
  forall (fuel : nat) (R : RegExp) (acc : list Item),
    matcher_ok (matcher R) ->
    S (String.length txt) - lastIndex R < fuel ->
    exists matches, matchLoop fuel baseDir sep txt R acc = Some matches.
Proof.
  induction fuel as [|fuel IH]; intros R acc Hok Hfuel; [lia|].
  simpl. destruct (exec R txt) as [[mt|] R'] eqn:He; [|eauto].
  destruct (exec_some _ _ _ _ Hok He) as (Hlo & Hle & Hhi & _ & ->).
  destruct (advance_lastIndex mt (mkRegExp (matcher R) (endIndex mt)) eq_refl Hle)
    as (Hadv & _ & _).
  apply IH.
  - now rewrite advance_matcher.
  - lia.
Qed.

Lemma ordered_nil : ordered [].
Proof. intros i j a b _ Hi. now rewrite lookup_nil in Hi. Qed.

Lemma ordered_snoc (l : list Item) (it : Item) :
  ordered l -> Forall (fun a => precedes a it) l -> ordered (l ++ [it]).
Proof.
  intros Hord Hall i j a b Hij Hi Hj.
  destruct (decide (j < length l)) as [Hlt|Hge].
  - rewrite lookup_app_l in Hi by lia. rewrite lookup_app_l in Hj by lia.
    exact (Hord i j a b Hij Hi Hj).
  - assert (Hjl : j = length l).
    { apply lookup_lt_Some in Hj. rewrite length_app in Hj. simpl in Hj. lia. }
    subst j. rewrite lookup_app_l in Hi by lia.
    rewrite lookup_app_r in Hj by lia. rewrite Nat.sub_diag in Hj. simpl in Hj.
    injection Hj as <-.
    rewrite Forall_forall in Hall. apply Hall.
    now apply list_elem_of_lookup_2 in Hi.
Qed.

Lemma makeItem_range `{Host} (baseDir sep txt : string) (mt : Match) :
  index mt <= endIndex mt -> endIndex mt <= String.length txt ->
  it_range (makeItem baseDir sep txt mt) = mkRange (index mt) (endIndex mt).
Proof.
  intros Hle Hhi. unfold makeItem, matched. simpl.
  rewrite substring_length by lia. f_equal. lia.
Qed.

Lemma matchLoop_inv `{Host} (baseDir sep txt : string) :
  forall (fuel : nat) (R : RegExp) (acc matches : list Item),
    matcher_ok (matcher R) ->
    loop_inv txt R acc ->
    matchLoop fuel baseDir sep txt R acc = Some matches ->
    Forall (in_text txt) matches /\ ordered matches.
Proof.
  induction fuel as [|fuel IH]; intros R acc matches Hok Hinv; simpl; [discriminate|].
  destruct (exec R txt) as [[mt|] R'] eqn:He.
  2:{ intros [= <-]. destruct Hinv as (? & ? & _). auto. }
  destruct (exec_some _ _ _ _ Hok He) as (Hlo & Hle & Hhi & _ & ->).
  destruct (advance_lastIndex mt (mkRegExp (matcher R) (endIndex mt)) eq_refl Hle)
    as (Hadv & Hadv' & _).
  pose proof (makeItem_range baseDir sep txt mt Hle Hhi) as Hrange.
  destruct Hinv as (Hin & Hord & Hbound).
  apply IH.
  - now rewrite advance_matcher.
  - split; [|split].
    + apply Forall_app. split; [exact Hin|].
      constructor; [|constructor]. unfold in_text. rewrite Hrange. simpl. lia.
    + apply ordered_snoc; [exact Hord|].
      eapply Forall_impl; [exact Hbound|]. intros a [Ha Hb].
      unfold precedes. rewrite Hrange. simpl. lia.
    + apply Forall_app. split.
      * eapply Forall_impl; [exact Hbound|]. intros a [Ha Hb]. simpl in *. lia.
      * constructor; [|constructor]. rewrite Hrange. simpl. lia.
Qed.

Lemma matchLoop_nonempty `{Host} (baseDir sep txt : string) :
  forall (fuel : nat) (R : RegExp) (acc matches : list Item),
    matcher_ok (matcher R) ->
    never_empty (matcher R) txt ->
    Forall (fun a => startOffset (it_range a) < endOffset (it_range a)) acc ->
    matchLoop fuel baseDir sep txt R acc = Some matches ->
    Forall (fun a => startOffset (it_range a) < endOffset (it_range a)) matches.
Proof.
  induction fuel as [|fuel IH]; intros R acc matches Hok Hne Hacc; simpl; [discriminate|].
  destruct (exec R txt) as [[mt|] R'] eqn:He.
  2:{ now intros [= <-]. }
  destruct (exec_some _ _ _ _ Hok He) as (Hlo & Hle & Hhi & Hm & ->).
  pose proof (makeItem_range baseDir sep txt mt Hle Hhi) as Hrange.
  apply IH.
  - now rewrite advance_matcher.
  - now rewrite advance_matcher.
  - apply Forall_app. split; [exact Hacc|].
    constructor; [|constructor]. rewrite Hrange. simpl.
    assert (index mt <> endIndex mt); [|lia].
    intros E. apply (Hne (index mt)). now rewrite E at 2.
Qed.

Lemma default_re_never_empty (txt : string) : never_empty (re_matcher default_re) txt.
Proof.
  intros j. unfold re_matcher.
  destruct (j <=? String.length txt) eqn:Hj; [|discriminate].
  apply Nat.leb_le in Hj.
  destruct (re_run default_re (drop j (chars txt)) Some) as [rest|] eqn:Er; [|discriminate].
  simpl. intros [= E].
  assert (Hlen : length (drop j (chars txt)) = String.length txt - j)
    by now rewrite length_drop, length_chars.
  destruct (drop j (chars txt)) as [|c s'] eqn:Hs; [discriminate|].
  change (re_run default_re (c :: s') Some) with
    (if Ascii.eqb c "<"
     then re_run (Seq (Chr "<") (Seq (Plus false (Cls tag_char)) (Seq (Chr ">") (Chr ">"))))
            s' Some
     else None) in Er.
  destruct (Ascii.eqb c "<"); [|discriminate].
  assert (Hs' : shrinking Some) by (intros s t [= <-]; lia).
  apply (re_run_shrinking _ Some Hs') in Er. simpl in Hlen. lia.
Qed.

(** ** Facts about the tables *)

Lemma retainWatcher_fs (p : string) (w : World) : fs (retainWatcher p w) = fs w.
Proof. unfold retainWatcher. now destruct (WATCHERS w !! p). Qed.

Lemma retainWatcher_CACHE (p : string) (w : World) : CACHE (retainWatcher p w) = CACHE w.
Proof. unfold retainWatcher. now destruct (WATCHERS w !! p). Qed.

Lemma retainWatcher_editors (p : string) (w : World) :
  editors (retainWatcher p w) = editors w.
Proof. unfold retainWatcher. now destruct (WATCHERS w !! p). Qed.

Lemma releaseWatcher_editors (p : string) (w : World) :
  editors (releaseWatcher p w) = editors w.
Proof.
  unfold releaseWatcher. destruct (WATCHERS w !! p) as [info|]; [|reflexivity].
  now destruct (refs info - 1 <=? 0)%Z.
Qed.

Lemma readFileTruncated_editors `{Host} (p : string) (maxBytes : Z) (w : World) :
  editors (readFileTruncated p maxBytes w).2 = editors w.
Proof.
  unfold readFileTruncated.
  destruct (fs_stat (fs w) p) as [st|]; [|reflexivity].
  destruct (cache_hit st (CACHE w !! p)); [reflexivity|].
  now destruct (fs_readFile (fs w) p).
Qed.

Lemma cache_hit_Some (st : Node) (c : CacheEntry) :
  mtimeMs c = node_mtimeMs st -> cache_hit st (Some c) = Some (text c).
Proof. intros E. unfold cache_hit. now rewrite E, Z.eqb_refl. Qed.

Lemma cache_hit_None (st : Node) (o : option CacheEntry) :
  (forall c, o = Some c -> mtimeMs c <> node_mtimeMs st) -> cache_hit st o = None.
Proof.
  intros Hne. destruct o as [c|]; [|reflexivity]. unfold cache_hit.
  destruct (mtimeMs c =? node_mtimeMs st)%Z eqn:E; [|reflexivity].
  apply Z.eqb_eq in E. now destruct (Hne c eq_refl).
Qed.

Lemma truncated_prefix (maxBytes : Z) (buf : list Byte.byte) :
  truncated maxBytes buf `prefix_of` buf.
Proof.
  unfold truncated, subarray0.
  destruct (negb (maxBytes =? 0)%Z && (Z.of_nat (length buf) >? maxBytes)%Z); [|reflexivity].
  destruct (maxBytes <? 0)%Z; apply prefix_take.
Qed.

Lemma truncated_length (maxBytes : Z) (buf : list Byte.byte) :
  (0 < maxBytes)%Z -> (Z.of_nat (length (truncated maxBytes buf)) <= maxBytes)%Z.
Proof.
  intros Hpos. unfold truncated, subarray0.
  destruct (maxBytes =? 0)%Z eqn:E0; [apply Z.eqb_eq in E0; lia|]. simpl.
  destruct (Z.of_nat (length buf) >? maxBytes)%Z eqn:Egt.
  - destruct (maxBytes <? 0)%Z eqn:Eneg; [apply Z.ltb_lt in Eneg; lia|].
    rewrite length_take. lia.
  - rewrite Z.gtb_ltb in Egt. apply Z.ltb_ge in Egt. lia.
Qed.

Lemma truncated_zero (buf : list Byte.byte) : truncated 0 buf = buf.
Proof. reflexivity. Qed.

Lemma truncated_take (maxBytes : Z) (buf : list Byte.byte) :
  (0 < maxBytes)%Z -> truncated maxBytes buf = take (Z.to_nat maxBytes) buf.
Proof.
  intros Hpos. unfold truncated, subarray0.
  destruct (maxBytes =? 0)%Z eqn:E0; [apply Z.eqb_eq in E0; lia|]. simpl.
  destruct (Z.of_nat (length buf) >? maxBytes)%Z eqn:Egt.
  - destruct (maxBytes <? 0)%Z eqn:Eneg; [apply Z.ltb_lt in Eneg; lia | reflexivity].
  - rewrite Z.gtb_ltb in Egt. apply Z.ltb_ge in Egt.
    symmetry. apply take_ge. lia.
Qed.

Lemma retainWatcher_refs_positive (p : string) (w : World) :
  refs_positive w -> refs_positive (retainWatcher p w).
Proof.
  unfold refs_positive, retainWatcher. intros Hpos.
  destruct (WATCHERS w !! p) as [existing|] eqn:E; simpl.
  - apply map_Forall_insert_2; [|exact Hpos].
    pose proof (Hpos p existing E) as Hp. simpl in *. lia.
  - apply map_Forall_insert_2; [simpl; lia | exact Hpos].
Qed.

Lemma releaseWatcher_refs_positive (p : string) (w : World) :
  refs_positive w -> refs_positive (releaseWatcher p w).
Proof.
  unfold refs_positive, releaseWatcher. intros Hpos.
  destruct (WATCHERS w !! p) as [info|] eqn:E; [|exact Hpos].
  destruct (refs info - 1 <=? 0)%Z eqn:Er; simpl.
  - now apply map_Forall_delete.
  - apply map_Forall_insert_2; [|exact Hpos]. simpl. apply Z.leb_gt in Er. lia.
Qed.

Lemma watchOps_refs_positive (ops : list WatchOp) (w : World) :
  refs_positive w -> refs_positive (foldl watchOp w ops).
Proof.
  revert w. induction ops as [|op ops IH]; intros w Hpos; simpl; [exact Hpos|].
  apply IH. destruct op; simpl.
  - now apply retainWatcher_refs_positive.
  - now apply releaseWatcher_refs_positive.
Qed.

Lemma releaseWatcher_last (p : string) (info : WatchInfo) (w : World) :
  WATCHERS w !! p = Some info -> refs info = 1%Z ->
  releaseWatcher p w =
    with_CACHE (delete p (CACHE w))
      (with_WATCHERS (delete p (WATCHERS w))
         (with_liveWatchers (delete (watcher info) (liveWatchers w)) (nextWatcher w) w)).
Proof. intros E Hr. unfold releaseWatcher. now rewrite E, Hr. Qed.

Lemma readFileTruncated_WATCHERS `{Host} (p : string) (maxBytes : Z) (w : World) :
  WATCHERS (readFileTruncated p maxBytes w).2 = WATCHERS w.
Proof.
  unfold readFileTruncated.
  destruct (fs_stat (fs w) p) as [st|]; [|reflexivity].
  destruct (cache_hit st (CACHE w !! p)); [reflexivity|].
  now destruct (fs_readFile (fs w) p).
Qed.

Lemma resolveItem_refs_positive `{Host} (ps : Pass) (st : Resolving) (it : Item) :
  refs_positive (rs_world st) -> refs_positive (rs_world (resolveItem ps st it)).
Proof.
  intros Hpos. unfold resolveItem.
  destruct (pass_onlyExisting ps && negb (pathExists (it_absPath it) (rs_world st)));
    [exact Hpos|].
  destruct (pathExists (it_absPath it) (rs_world st)).
  - pose proof (readFileTruncated_WATCHERS (it_absPath it) (pass_maxBytes ps)
                  (retainWatcher (it_absPath it) (rs_world st))) as Hw.
    pose proof (retainWatcher_refs_positive (it_absPath it) _ Hpos) as Hpos'.
    destruct (readFileTruncated _ _ _) as [txt w2]. simpl in Hw.
    assert (Hw2 : refs_positive w2) by (unfold refs_positive; now rewrite Hw).
    destruct (pass_showInline ps); [exact Hw2|].
    destruct (pass_showHover ps); exact Hw2.
  - destruct (pass_showInline ps); [exact Hpos|].
    destruct (pass_showHover ps); exact Hpos.
Qed.

Lemma updateDecorations_end_refs_positive `{Host} (ps : Pass) (w : World) :
  refs_positive w -> refs_positive (updateDecorations_end ps w).
Proof.
  intros Hpos. unfold updateDecorations_end.
  assert (Hres : refs_positive (rs_world (resolveAll ps w))).
  { unfold resolveAll.
    assert (Hst : refs_positive (rs_world (mkResolving w [] [] ∅))) by exact Hpos.
    revert Hst. generalize (mkResolving w [] [] ∅). generalize (pass_matches ps).
    intros l. induction l as [|it l IH]; intros st Hst; simpl; [exact Hst|].
    apply IH. now apply resolveItem_refs_positive. }
  unfold releaseUnneeded.
  set (w0 := setDecorations _ _ _ _).
  assert (Hw0 : refs_positive w0) by exact Hres.
  generalize (elements (dom (WATCHERS w0))). revert Hw0. generalize w0.
  intros w1 Hw1 l. revert w1 Hw1.
  induction l as [|p l IH]; intros w1 Hw1; simpl; [exact Hw1|].
  apply IH. destruct (decide (p ∈ rs_needed (resolveAll ps w))); [exact Hw1|].
  now apply releaseWatcher_refs_positive.
Qed.

(** The counts stay positive along every run of the extension. *)
Lemma step_refs_positive `{Host} (w w' : World) (ev : Event) :
  refs_positive w -> step w ev = Some w' -> refs_positive w'.
Proof.
  intros Hpos. destruct ev as [ed|i|ed txt|cfg|p n|id]; simpl.
  - destruct (updateDecorations_begin ed w); [|discriminate]. now intros [= <-].
  - destruct (inflight w !! i) as [ps|]; [|discriminate]. simpl. intros [= <-].
    exact (updateDecorations_end_refs_positive ps w Hpos).
  - destruct (editors w !! ed); [|discriminate]. now intros [= <-].
  - now intros [= <-].
  - now intros [= <-].
  - destruct (liveWatchers w !! id) as [p|]; [|discriminate]. simpl.
    destruct (activeTextEditor w) as [ed|]; [|now intros [= <-]].
    destruct (updateDecorations_begin ed _); [|discriminate]. now intros [= <-].
Qed.

Lemma run_refs_positive `{Host} (evs : list Event) (w w' : World) :
  refs_positive w -> run w evs = Some w' -> refs_positive w'.
Proof.
  revert w. induction evs as [|ev evs IH]; intros w Hpos; simpl.
  - now intros [= <-].
  - destruct (step w ev) as [w1|] eqn:Hstep; [|discriminate]. simpl.
    apply IH. exact (step_refs_positive w w1 ev Hpos Hstep).
Qed.

(** ** Facts about the expanded set *)

Lemma foldl_markExpanded (l : list string) (acc : gset string) :
  foldl (fun acc k => markExpanded k acc) acc l = list_to_set l ∪ acc.
Proof.
  revert acc. induction l as [|k l IH]; intros acc; cbn [foldl].
  - now rewrite list_to_set_nil, (left_id_L ∅ (∪)).
  - rewrite IH, list_to_set_cons. unfold markExpanded.
    apply set_eq. intros x. rewrite !elem_of_union. tauto.
Qed.

Lemma reconcile_eq (present expandedKeys : gset string) :
  reconcile present expandedKeys = present.
Proof.
  unfold reconcile, clearExpanded. rewrite foldl_markExpanded.
  now rewrite list_to_set_elements_L, (right_id_L ∅ (∪)).
Qed.

(** ** Facts about the second part of [updateDecorations] *)

Lemma resolveItem_editors `{Host} (ps : Pass) (st : Resolving) (it : Item) :
  editors (rs_world (resolveItem ps st it)) = editors (rs_world st).
Proof.
  unfold resolveItem.
  destruct (pass_onlyExisting ps && negb (pathExists (it_absPath it) (rs_world st)));
    [reflexivity|].
  destruct (pathExists (it_absPath it) (rs_world st)).
  - pose proof (readFileTruncated_editors (it_absPath it) (pass_maxBytes ps)
                  (retainWatcher (it_absPath it) (rs_world st))) as Hed.
    destruct (readFileTruncated _ _ _) as [txt w2]. simpl in Hed.
    rewrite retainWatcher_editors in Hed.
    destruct (pass_showInline ps); [exact Hed|].
    destruct (pass_showHover ps); exact Hed.
  - destruct (pass_showInline ps); [reflexivity|].
    destruct (pass_showHover ps); reflexivity.
Qed.

Lemma resolveAll_editors `{Host} (ps : Pass) (w : World) :
  editors (rs_world (resolveAll ps w)) = editors w.
Proof.
  unfold resolveAll.
  change (editors w) with (editors (rs_world (mkResolving w [] [] ∅))).
  generalize (mkResolving w [] [] ∅). generalize (pass_matches ps).
  intros l. induction l as [|it l IH]; intros st; simpl; [reflexivity|].
  rewrite IH. apply resolveItem_editors.
Qed.

Lemma releaseUnneeded_editors (needed : gset string) (w : World) :
  editors (releaseUnneeded needed w) = editors w.
Proof.
  unfold releaseUnneeded. generalize (elements (dom (WATCHERS w))).
  intros l. revert w. induction l as [|p l IH]; intros w; simpl; [reflexivity|].
  rewrite IH. destruct (decide (p ∈ needed)); [reflexivity|].
  apply releaseWatcher_editors.
Qed.

Lemma updateDecorations_end_applied `{Host} (ps : Pass) (w : World) :
  is_Some (editors w !! pass_editor ps) ->
  applied (pass_editor ps) (updateDecorations_end ps w) = Some (plan ps w).
Proof.
  intros [e He]. unfold applied, updateDecorations_end, plan.
  rewrite releaseUnneeded_editors. unfold setDecorations. simpl.
  rewrite lookup_alter_eq, resolveAll_editors, He. reflexivity.
Qed.

(** ** Facts about the segments of a tag *)

Lemma split_where_cons (p : ascii -> bool) (s : list ascii) :
  exists h t, split_where p s = h :: t.
Proof.
  induction s as [|x s (h & t & IH)]; simpl; [eauto|].
  destruct (p x); [eauto|]. rewrite IH. simpl. eauto.
Qed.

(** Cutting at the characters of [p] and then at those of [q] is cutting at
    the characters of either. *)
Lemma split_where_bind (p q : ascii -> bool) (s : list ascii) :
  split_where p s ≫= split_where q = split_where (fun x => p x || q x) s.
Proof.
  induction s as [|x s IH]; [reflexivity|]. cbn [split_where].
  destruct (p x) eqn:Hp; cbn [orb].
  - rewrite <- IH. reflexivity.
  - destruct (split_where_cons p s) as (h & t & Hs). rewrite Hs in *.
    cbn [cons_head]. rewrite bind_cons in IH. rewrite bind_cons, <- IH.
    cbn [split_where]. destruct (q x); [reflexivity|].
    destruct (split_where_cons q h) as (h' & t' & Hh). rewrite Hh. reflexivity.
Qed.

Lemma starts_with_single (c x : ascii) (s : list ascii) :
  starts_with [c] (x :: s) = Ascii.eqb x c.
Proof.
  unfold starts_with. simpl. rewrite take_0.
  destruct (Ascii.eqb x c) eqn:E.
  - apply Ascii.eqb_eq in E. subst. now apply bool_decide_eq_true.
  - apply Ascii.eqb_neq in E. apply bool_decide_eq_false. congruence.
Qed.

Lemma split_sep_single (c : ascii) (s : list ascii) :
  split_sep [c] 0 s = split_where (fun x => Ascii.eqb x c) s.
Proof.
  induction s as [|x s IH]; [reflexivity|].
  cbn [split_sep split_where]. rewrite starts_with_single. simpl. now rewrite IH.
Qed.

Lemma bind_fmap_unchars (l : list (list ascii)) :
  (unchars <$> l) ≫= split_slashes = unchars <$> (l ≫= split_where is_slash).
Proof.
  induction l as [|h t IH]; [reflexivity|].
  rewrite fmap_cons, !bind_cons, fmap_app, IH. unfold split_slashes at 1.
  now rewrite chars_unchars.
Qed.

(** With a separator of one character, the segments of a tag are the
    non-empty pieces between its delimiters. *)
Lemma segments_single (c : ascii) (s : string) :
  segments (String c "") s =
  filter (fun p => nonempty p = true) (unchars <$> split_where (is_delim c) (chars s)).
Proof.
  unfold segments, split. simpl.
  now rewrite split_sep_single, bind_fmap_unchars, split_where_bind.
Qed.

Lemma same_spelling_split (c : ascii) (s1 s2 : list ascii) :
  Forall2 (fun x y => x = y \/ (is_delim c x = true /\ is_delim c y = true)) s1 s2 ->
  split_where (is_delim c) s1 = split_where (is_delim c) s2.
Proof.
  induction 1 as [|x y s1 s2 Hxy _ IH]; [reflexivity|]. simpl.
  destruct Hxy as [<-|[Hx Hy]].
  - now rewrite IH.
  - now rewrite Hx, Hy, IH.
Qed.

Lemma same_spelling_segments (c : ascii) (s1 s2 : string) :
  same_spelling c s1 s2 -> segments (String c "") s1 = segments (String c "") s2.
Proof.
  intros Hsp. rewrite !segments_single. now rewrite (same_spelling_split c _ _ Hsp).
Qed.

(** * The properties *)

(** ** Content cache *)

(** C1. A read of a path whose cached entry carries the current modification
    time answers the cached text and leaves the process as it is.  A read
    that finds no such entry and can read the file answers the decoded,
    truncated content and stores it under the current modification time, in
    the place of an older entry if there is one: the bytes decoded are a
    prefix of the content, the first [maxBytes] bytes for a positive limit.
    From then on, as long as that entry stays and the modification time is
    the same, every read answers this very text, whatever the limit. *)
Theorem read_consults_cache `{Host} (p : string) (maxBytes : Z) (w : World) (st : Node) :
  fs_stat (fs w) p = Some st ->
  (forall c, CACHE w !! p = Some c -> mtimeMs c = node_mtimeMs st ->
     readFileTruncated p maxBytes w = (text c, w))
  /\ (forall buf,
        (forall c, CACHE w !! p = Some c -> mtimeMs c <> node_mtimeMs st) ->
        fs_readFile (fs w) p = Some buf ->
        let t := buffer_toString (truncated maxBytes buf) in
        let w1 := with_CACHE (<[p := mkCacheEntry (node_mtimeMs st) t]> (CACHE w)) w in
        readFileTruncated p maxBytes w = (t, w1)
        /\ truncated maxBytes buf `prefix_of` buf
        /\ ((0 < maxBytes)%Z -> truncated maxBytes buf = take (Z.to_nat maxBytes) buf)
        /\ forall (w2 : World) (st2 : Node) (maxBytes2 : Z),
             CACHE w2 !! p = CACHE w1 !! p ->
             fs_stat (fs w2) p = Some st2 ->
             node_mtimeMs st2 = node_mtimeMs st ->
             readFileTruncated p maxBytes2 w2 = (t, w2)).
Proof.
  intros Hst. split.
  - intros c Hc Hm. unfold readFileTruncated.
    now rewrite Hst, Hc, (cache_hit_Some st c Hm).
  - intros buf Hmiss Hbuf t w1. split; [|split; [|split]].
    + unfold readFileTruncated.
      now rewrite Hst, (cache_hit_None st _ Hmiss), Hbuf.
    + apply truncated_prefix.
    + apply truncated_take.
    + intros w2 st2 maxBytes2 Hc Hst2 Hm. unfold readFileTruncated.
      rewrite Hst2, Hc. unfold w1. simpl. rewrite lookup_insert_eq.
      rewrite cache_hit_Some; [reflexivity|]. simpl. now rewrite Hm.
Qed.

Lemma read_consults_cache_witness :
  fs_stat (fs stale_world) "/ws/a/b" = Some sample_node
  /\ CACHE stale_world !! "/ws/a/b" = Some (mkCacheEntry 0 "old")
  /\ exists w1 : World,
       @readFileTruncated Posix.host "/ws/a/b" 4 stale_world = ("0123", w1)
       /\ CACHE w1 !! "/ws/a/b" = Some (mkCacheEntry 1 "0123")
       /\ @readFileTruncated Posix.host "/ws/a/b" 4 w1 = ("0123", w1)
       /\ @readFileTruncated Posix.host "/ws/a/b" 8192 w1 = ("0123", w1).
Proof.
  split; [reflexivity|]. split; [reflexivity|].
  destruct (@read_consults_cache Posix.host "/ws/a/b" 4%Z stale_world sample_node
              eq_refl) as [_ Hmiss].
  destruct (Hmiss (list_byte_of_string "0123456789")) as (Hread & _ & _ & Hlater).
  - intros c [= <-]. discriminate.
  - reflexivity.
  - exists (with_CACHE (<["/ws/a/b" := mkCacheEntry 1 "0123"]> (CACHE stale_world))
              stale_world).
    split; [exact Hread|]. split; [reflexivity|]. split.
    + exact (proj1 (@read_consults_cache Posix.host "/ws/a/b" 4%Z
                      (with_CACHE (<["/ws/a/b" := mkCacheEntry 1 "0123"]>
                                     (CACHE stale_world)) stale_world)
                      sample_node eq_refl)
               (mkCacheEntry 1 "0123") eq_refl eq_refl).
    + exact (Hlater (with_CACHE (<["/ws/a/b" := mkCacheEntry 1 "0123"]>
                                   (CACHE stale_world)) stale_world)
               sample_node 8192%Z eq_refl eq_refl eq_refl).
Defined.

(** C6, as the code has it.  When no cached entry with the current
    modification time stands in the way: a failing [stat] or [readFile] gives
    the empty string; otherwise the answer is decoded from a prefix of the
    content, of at most [maxBytes] bytes when [maxBytes] is positive and the
    whole content when [maxBytes] is 0.  A pass takes the limit from the
    configuration, 8192 when none is set, and never a negative one. *)
Theorem read_truncates `{Host} (p : string) (maxBytes : Z) (w : World) :
  (forall st c, fs_stat (fs w) p = Some st -> CACHE w !! p = Some c ->
     mtimeMs c <> node_mtimeMs st) ->
  (fs_stat (fs w) p = None \/ fs_readFile (fs w) p = None ->
     readFileTruncated p maxBytes w = ("", w))
  /\ (forall st buf,
        fs_stat (fs w) p = Some st -> fs_readFile (fs w) p = Some buf ->
        exists bs,
          (readFileTruncated p maxBytes w).1 = buffer_toString bs
          /\ bs `prefix_of` buf
          /\ ((0 < maxBytes)%Z -> (Z.of_nat (length bs) <= maxBytes)%Z)
          /\ (maxBytes = 0%Z -> bs = buf))
  /\ (forall ed ps,
        updateDecorations_begin ed w = Some ps ->
        pass_maxBytes ps = Z.max 0 (default 8192%Z (cfg_maxBytes (config w)))).
Proof.
  intros Hmiss. split; [|split].
  - intros Hfail. unfold readFileTruncated.
    destruct (fs_stat (fs w) p) as [st|] eqn:Hst; [|reflexivity].
    rewrite (cache_hit_None st _ (fun c => Hmiss st c eq_refl)).
    destruct Hfail as [Hf|Hf]; [discriminate|]. now rewrite Hf.
  - intros st buf Hst Hbuf. exists (truncated maxBytes buf).
    unfold readFileTruncated.
    rewrite Hst, (cache_hit_None st _ (fun c => Hmiss st c Hst)), Hbuf. simpl.
    split; [reflexivity|]. split; [apply truncated_prefix|].
    split; [apply truncated_length|]. intros ->. apply truncated_zero.
  - intros ed ps. unfold updateDecorations_begin.
    destruct (editors w !! ed) as [e|]; [|discriminate]. simpl.
    destruct (matchLoop _ _ _ _ _ _); [|discriminate]. simpl.
    now intros [= <-].
Qed.

Lemma read_truncates_witness :
  (forall st c, fs_stat (fs sample_world) "/ws/a/b" = Some st ->
     CACHE sample_world !! "/ws/a/b" = Some c -> mtimeMs c <> node_mtimeMs st)
  /\ exists bs,
       (@readFileTruncated Posix.host "/ws/a/b" 4 sample_world).1 = Posix.toString bs
       /\ (Z.of_nat (length bs) <= 4)%Z.
Proof.
  assert (Hmiss : forall st c, fs_stat (fs sample_world) "/ws/a/b" = Some st ->
            CACHE sample_world !! "/ws/a/b" = Some c -> mtimeMs c <> node_mtimeMs st).
  { intros st c _ Hc. discriminate Hc. }
  split; [exact Hmiss|].
  destruct (@read_truncates Posix.host "/ws/a/b" 4%Z sample_world Hmiss) as (_ & Hread & _).
  destruct (Hread sample_node (list_byte_of_string "0123456789") eq_refl eq_refl)
    as (bs & Hbs & _ & Hlen & _).
  exists bs. split; [exact Hbs|]. apply Hlen. reflexivity.
Defined.

(** C6 as stated fails: with the limit 0 the whole file of ten bytes is
    answered, which no buffer of at most 0 bytes decodes to. *)
Lemma zero_limit_reads_whole_file :
  (@readFileTruncated Posix.host "/ws/a/b" 0 sample_world).1 = "0123456789"
  /\ (forall bs : list Byte.byte,
        Posix.toString bs = "0123456789" -> ~ (Z.of_nat (length bs) <= 0)%Z)
  /\ (w ← @run Posix.host (with_config zero_bytes sample_world) [EvBegin 0; EvComplete 0];
      (fun e => contentText <$> inlineDecos e) <$> editors w !! 0)
     = Some [Some "0123456789"].
Proof.
  split; [reflexivity|]. split; [|vm_compute; reflexivity].
  intros bs Hbs Hlen.
  destruct bs as [|b bs]; [discriminate Hbs | simpl in Hlen; lia].
Qed.

(** C8 fails on the code.  After a pass with the default limit, the limit is
    set to 4 and the next pass runs: the decoration types were disposed and
    created anew, the new pass carries the limit 4, and yet the text shown
    is the ten bytes cached by the first pass, not the first four. *)
Theorem limit_change_keeps_cached_text :
  exists w : World,
    @run Posix.host sample_world limit_change = Some w
    /\ disposedDecoTypes w = [0; 1] /\ tagDecoInline w = 2 /\ tagDecoHide w = 3
    /\ (fun e => contentText <$> inlineDecos e) <$> editors w !! 0
       = Some [Some "0123456789"]
    /\ (@readFileTruncated Posix.host "/ws/a/b" 4 w).1 = "0123456789"
    /\ (@readFileTruncated Posix.host "/ws/a/b" 4 (with_CACHE ∅ w)).1 = "0123".
Proof. eexists. split; [vm_compute; reflexivity|]. vm_compute. tauto. Qed.

(** C10, as the code has it.  A path that is a directory exists for
    [pathExists]; a read of it gives the empty string and stores nothing
    unless [CACHE] holds a text for the path under the modification time of
    the directory, the cache being looked up before [readFile] is tried; and
    the pass then shows the tag with an empty text, not with the mark of a
    missing target, also when only existing paths are to be shown. *)
Theorem directory_exists_reads_empty `{Host} (p : string) (w : World) (n : Node) :
  fs w !! p = Some n ->
  kind n = KDir ->
  (forall c, CACHE w !! p = Some c -> mtimeMs c <> node_mtimeMs n) ->
  pathExists p w = true
  /\ (forall maxBytes, readFileTruncated p maxBytes w = ("", w))
  /\ (forall ps st it,
        rs_world st = w -> it_absPath it = p -> pass_showInline ps = true ->
        rs_inline (resolveItem ps st it) =
          (rs_inline st ++
             [mkDeco (it_range it)
                (if pass_showHover ps then Some (fence "") else None) (Some "")])%list).
Proof.
  intros Hn Hdir Hmiss.
  assert (Hex : pathExists p w = true).
  { unfold pathExists, fs_stat. rewrite Hn. unfold isFile, isDirectory. now rewrite Hdir. }
  assert (Hread : forall maxBytes w',
            fs w' = fs w -> CACHE w' = CACHE w -> readFileTruncated p maxBytes w' = ("", w')).
  { intros maxBytes w' Hfs Hc. unfold readFileTruncated, fs_stat, fs_readFile.
    rewrite Hfs, Hc, Hn, (cache_hit_None n _ Hmiss), Hdir. reflexivity. }
  split; [exact Hex|]. split; [intros maxBytes; now apply Hread|].
  intros ps st it Hw Hp Hinl. unfold resolveItem. rewrite Hw, Hp, Hex, Hinl.
  rewrite andb_false_r.
  rewrite (Hread (pass_maxBytes ps) (retainWatcher p w)
             (retainWatcher_fs p w) (retainWatcher_CACHE p w)).
  simpl. destruct (pass_showHover ps); reflexivity.
Qed.

Lemma directory_exists_reads_empty_witness :
  fs dir_world !! "/ws/a/b" = Some dir_node
  /\ kind dir_node = KDir
  /\ @pathExists "/ws/a/b" dir_world = true
  /\ @readFileTruncated Posix.host "/ws/a/b" 8192 dir_world = ("", dir_world).
Proof.
  assert (Hmiss : forall c, CACHE dir_world !! "/ws/a/b" = Some c ->
            mtimeMs c <> node_mtimeMs dir_node).
  { intros c Hc. discriminate Hc. }
  destruct (@directory_exists_reads_empty Posix.host "/ws/a/b" dir_world dir_node
              eq_refl eq_refl Hmiss) as (Hex & Hread & _).
  split; [reflexivity|]. split; [reflexivity|]. split; [exact Hex|]. apply Hread.
Defined.

(** C10 as stated fails: the file [a/b] was read by a pass and then gave way
    to a directory with the same modification time; the path exists, and the
    read answers the ten bytes of the file that is gone, which the next pass
    shows for the tag. *)
Lemma cached_text_read_for_directory :
  exists w : World,
    @run Posix.host sample_world file_becomes_directory = Some w
    /\ fs w !! "/ws/a/b" = Some dir_node
    /\ kind dir_node = KDir
    /\ pathExists "/ws/a/b" w = true
    /\ (@readFileTruncated Posix.host "/ws/a/b" 8192 w).1 = "0123456789"
    /\ (w' ← @run Posix.host w [EvBegin 0; EvComplete 0];
        (fun e => contentText <$> inlineDecos e) <$> editors w' !! 0)
       = Some [Some "0123456789"].
Proof. eexists. split; [vm_compute; reflexivity|]. vm_compute. tauto. Qed.

(** ** Watchers *)

(** C4. Along any sequence of [retainWatcher] and [releaseWatcher], every
    registered path keeps a positive count; releasing a path that is not
    registered changes nothing; and releasing the last reference of a path
    disposes its watcher and removes its entries from [WATCHERS] and [CACHE],
    after which a further release changes nothing. *)
Theorem watcher_refcount (w : World) (ops : list WatchOp) :
  refs_positive w ->
  let w' := foldl watchOp w ops in
  (forall p info, WATCHERS w' !! p = Some info -> (0 < refs info)%Z)
  /\ (forall p, WATCHERS w' !! p = None -> releaseWatcher p w' = w')
  /\ (forall p info,
        WATCHERS w' !! p = Some info -> refs info = 1%Z ->
        let w'' := releaseWatcher p w' in
        WATCHERS w'' !! p = None /\ CACHE w'' !! p = None
        /\ liveWatchers w'' !! watcher info = None
        /\ releaseWatcher p w'' = w'').
Proof.
  intros Hpos w'. split; [|split].
  - intros p info Hp. exact (watchOps_refs_positive ops w Hpos p info Hp).
  - intros p Hp. unfold releaseWatcher. now rewrite Hp.
  - intros p info Hp Hr w''. unfold w''.
    rewrite (releaseWatcher_last p info w' Hp Hr). simpl.
    rewrite !lookup_delete_eq. repeat split.
    unfold releaseWatcher. simpl. now rewrite lookup_delete_eq.
Qed.

Lemma watcher_refcount_witness :
  refs_positive sample_world
  /\ WATCHERS (foldl watchOp sample_world
                 [Retain "/ws/a/b"; Retain "/ws/a/b"; Release "/ws/a/b";
                  Release "/ws/a/b"; Release "/ws/a/b"]) !! "/ws/a/b" = None.
Proof.
  assert (Hpos : refs_positive sample_world).
  { intros p info Hp. discriminate Hp. }
  split; [exact Hpos|].
  destruct (watcher_refcount sample_world
              [Retain "/ws/a/b"; Retain "/ws/a/b"; Release "/ws/a/b"] Hpos)
    as (_ & _ & Hlast).
  destruct (Hlast "/ws/a/b" (mkWatchInfo 0 1) eq_refl eq_refl) as (_ & _ & _ & Hagain).
  change (foldl watchOp sample_world
            [Retain "/ws/a/b"; Retain "/ws/a/b"; Release "/ws/a/b";
             Release "/ws/a/b"; Release "/ws/a/b"])
    with (releaseWatcher "/ws/a/b"
            (releaseWatcher "/ws/a/b"
               (foldl watchOp sample_world
                  [Retain "/ws/a/b"; Retain "/ws/a/b"; Release "/ws/a/b"]))).
  rewrite Hagain. reflexivity.
Defined.

(** ** Expanded state *)

(** C2. After the handler has replaced the expanded set by the keys of the
    visible previews, a key is expanded exactly when it is one of these keys,
    whatever the set held before. *)
Theorem reconcile_total `{Host} (tagMatches : nat -> string -> list TagMatch)
    (lastIndex : nat) (eds : list VisibleEditor) (docs : list TextDocument)
    (present expandedKeys : gset string) (k : string) :
  isExpanded k (reconcile present expandedKeys) = bool_decide (k ∈ present)
  /\ isExpanded k (onDidChangeVisibleTextEditors tagMatches lastIndex eds docs expandedKeys)
     = bool_decide (k ∈ presentPreviewKeys tagMatches lastIndex eds docs).
Proof.
  unfold onDidChangeVisibleTextEditors, isExpanded.
  now rewrite !reconcile_eq.
Qed.

(** ** Overlapping passes *)

Lemma updateDecorations_end_editors `{Host} (ps : Pass) (w : World) :
  is_Some (editors (updateDecorations_end ps w) !! pass_editor ps)
  <-> is_Some (editors w !! pass_editor ps).
Proof.
  unfold updateDecorations_end. rewrite releaseUnneeded_editors.
  unfold setDecorations. simpl.
  now rewrite lookup_alter_is_Some, resolveAll_editors.
Qed.

(** C3, as the code has it.  A call of [updateDecorations] carries no pass
    counter and nothing is checked before its decorations are applied: each
    call that completes sets the decorations of its editor to its own plan.
    Of two suspended calls for one editor, when the one started later
    completes first, its plan is applied, and the plan of the one started
    earlier replaces it when that call completes. *)
Theorem last_completion_wins `{Host} (w w1 w2 : World) (i j : nat) (p1 p2 : Pass) :
  i < j ->
  inflight w !! i = Some p1 ->
  inflight w !! j = Some p2 ->
  pass_editor p1 = pass_editor p2 ->
  is_Some (editors w !! pass_editor p1) ->
  step w (EvComplete j) = Some w1 ->
  step w1 (EvComplete i) = Some w2 ->
  applied (pass_editor p1) w1 = Some (plan p2 w)
  /\ applied (pass_editor p1) w2 = Some (plan p1 w1).
Proof.
  intros Hij Hi Hj Hed Hsome. simpl. rewrite Hj. simpl. intros [= <-].
  simpl. rewrite list_lookup_delete_lt by exact Hij. rewrite Hi. simpl.
  intros [= <-]. split.
  - rewrite Hed. unfold applied at 1. simpl.
    apply (updateDecorations_end_applied p2 w). now rewrite <- Hed.
  - unfold applied at 1. simpl.
    apply (updateDecorations_end_applied p1
             (with_inflight (delete j (inflight w)) (updateDecorations_end p2 w))).
    simpl. rewrite Hed. apply updateDecorations_end_editors. now rewrite <- Hed.
Qed.

Lemma last_completion_wins_witness :
  0 < 1
  /\ inflight overlap_world !! 0 = Some early_pass
  /\ inflight overlap_world !! 1 = Some late_pass
  /\ pass_editor early_pass = pass_editor late_pass
  /\ is_Some (editors overlap_world !! pass_editor early_pass)
  /\ @step Posix.host overlap_world (EvComplete 1) = Some after_late
  /\ @step Posix.host after_late (EvComplete 0) = Some after_both
  /\ applied 0 after_both = Some (@plan Posix.host early_pass after_late).
Proof.
  assert (Hlt : 0 < 1) by lia.
  assert (Hed : is_Some (editors overlap_world !! pass_editor early_pass)).
  { eexists. reflexivity. }
  split; [exact Hlt|]. split; [reflexivity|]. split; [reflexivity|].
  split; [reflexivity|]. split; [exact Hed|]. split; [reflexivity|].
  split; [reflexivity|].
  exact (proj2 (@last_completion_wins Posix.host overlap_world after_late after_both
                  0 1 early_pass late_pass Hlt eq_refl eq_refl eq_refl Hed
                  eq_refl eq_refl)).
Defined.

(** C3 as stated fails: the second call starts after an edit and completes
    first; when the first call completes, the editor shows the range of the
    text before the edit, not the range that the later call had set. *)
Lemma stale_pass_overwrites :
  exists w1 w2 : World,
    @run Posix.host sample_world [EvBegin 0; EvEdit 0 "xx <<a:b>>"; EvBegin 0; EvComplete 1]
      = Some w1
    /\ @step Posix.host w1 (EvComplete 0) = Some w2
    /\ (fun e => range <$> inlineDecos e) <$> editors w1 !! 0 = Some [mkRange 3 10]
    /\ (fun e => range <$> inlineDecos e) <$> editors w2 !! 0 = Some [mkRange 0 7]
    /\ getText <$> editors w2 !! 0 = Some "xx <<a:b>>".
Proof.
  eexists _, _. split; [vm_compute; reflexivity|].
  split; [vm_compute; reflexivity|]. vm_compute. tauto.
Qed.

(** ** The matcher *)

(** C9. For every pattern whose match attempts respect the text, the match
    loop over a text comes to an end within as many calls of [exec] as the
    text has characters, plus two; and each turn of the loop leaves
    [lastIndex] strictly after the start of its match, one character after
    it when the match is empty. *)
Theorem match_loop_terminates `{Host} (m : Matcher) (baseDir sep txt : string) :
  matcher_ok m ->
  (exists matches,
     matchLoop (String.length txt + 2) baseDir sep txt (mkRegExp m 0) [] = Some matches)
  /\ (forall R mt R',
        matcher R = m -> exec R txt = (Some mt, R') ->
        lastIndex R <= index mt
        /\ index mt < lastIndex (advance mt R')
        /\ (endIndex mt = index mt -> lastIndex (advance mt R') = S (index mt))).
Proof.
  intros Hok. split.
  - apply matchLoop_total; simpl; [exact Hok | lia].
  - intros R mt R' <- He.
    destruct (exec_some _ _ _ _ Hok He) as (Hlo & Hle & _ & _ & ->).
    destruct (advance_lastIndex mt (mkRegExp (matcher R) (endIndex mt)) eq_refl Hle)
      as (Hadv & _ & Hempty).
    auto.
Qed.

Lemma match_loop_terminates_witness :
  matcher_ok (re_matcher (Star true (Chr "x")))
  /\ exists matches,
       @matchLoop Posix.host (String.length "xxbx" + 2) "/ws" ":" "xxbx"
         (mkRegExp (re_matcher (Star true (Chr "x"))) 0) [] = Some matches.
Proof.
  split; [apply re_matcher_ok|].
  exact (proj1 (@match_loop_terminates Posix.host (re_matcher (Star true (Chr "x")))
                  "/ws" ":" "xxbx" (re_matcher_ok _))).
Defined.

(** C5, as the code has it.  Every occurrence that the loop collects satisfies
    [startOffset <= endOffset <= length txt]; each occurrence starts strictly
    before every later one and ends where that one starts at the latest; and
    when the pattern does not match the empty string in the text, every
    occurrence has [startOffset < endOffset]. *)
Theorem occurrences_ordered `{Host} (m : Matcher) (fuel : nat)
    (baseDir sep txt : string) (matches : list Item) :
  matcher_ok m ->
  matchLoop fuel baseDir sep txt (mkRegExp m 0) [] = Some matches ->
  Forall (in_text txt) matches
  /\ ordered matches
  /\ (never_empty m txt ->
      Forall (fun a => startOffset (it_range a) < endOffset (it_range a)) matches).
Proof.
  intros Hok Hloop.
  assert (Hinv : loop_inv txt (mkRegExp m 0) []).
  { split; [constructor|]. split; [apply ordered_nil | constructor]. }
  destruct (matchLoop_inv baseDir sep txt fuel (mkRegExp m 0) [] matches Hok Hinv Hloop)
    as [Hin Hord].
  split; [exact Hin|]. split; [exact Hord|].
  intros Hne.
  exact (matchLoop_nonempty baseDir sep txt fuel (mkRegExp m 0) [] matches
           Hok Hne (Forall_nil_2 _) Hloop).
Qed.

Lemma occurrences_ordered_witness :
  matcher_ok (re_matcher default_re)
  /\ @matchLoop Posix.host 5 "/ws" ":" "<<a:b>> <<c>>" (mkRegExp (re_matcher default_re) 0) []
     = Some [mkItem (mkRange 0 7) "a:b" "/ws/a/b"; mkItem (mkRange 8 13) "c" "/ws/c"]
  /\ ordered [mkItem (mkRange 0 7) "a:b" "/ws/a/b"; mkItem (mkRange 8 13) "c" "/ws/c"].
Proof.
  assert (Hloop : @matchLoop Posix.host 5 "/ws" ":" "<<a:b>> <<c>>"
                    (mkRegExp (re_matcher default_re) 0) []
                  = Some [mkItem (mkRange 0 7) "a:b" "/ws/a/b";
                          mkItem (mkRange 8 13) "c" "/ws/c"]).
  { vm_compute. reflexivity. }
  split; [apply re_matcher_ok|]. split; [exact Hloop|].
  exact (proj1 (proj2 (@occurrences_ordered Posix.host (re_matcher default_re) 5
                         "/ws" ":" "<<a:b>> <<c>>" _ (re_matcher_ok _) Hloop))).
Defined.

(** C5 as stated fails: the pattern [x*] matches the empty string at both
    positions of the text [b], and both matches are collected, so that an
    occurrence has [startOffset = endOffset]. *)
Lemma empty_match_is_collected :
  @matchLoop Posix.host (String.length "b" + 2) "/ws" ":" "b" (@safeRegex Posix.host "x*") []
  = Some [mkItem (mkRange 0 0) "" "/ws"; mkItem (mkRange 1 1) "" "/ws"]
  /\ ~ Forall (fun a => startOffset (it_range a) < endOffset (it_range a)
                        /\ endOffset (it_range a) <= String.length "b")
         [mkItem (mkRange 0 0) "" "/ws"; mkItem (mkRange 1 1) "" "/ws"].
Proof.
  split; [vm_compute; reflexivity|].
  intros Hall. apply Forall_cons_1 in Hall. destruct Hall as [[Hlt _] _].
  simpl in Hlt. lia.
Qed.

(** The built-in pattern never matches the empty string: its occurrences
    are never empty. *)
Lemma default_occurrences_nonempty `{Host} (fuel : nat)
    (baseDir sep txt : string) (matches : list Item) :
  matchLoop fuel baseDir sep txt (mkRegExp (re_matcher default_re) 0) [] = Some matches ->
  Forall (fun a => startOffset (it_range a) < endOffset (it_range a)) matches.
Proof.
  intros Hloop.
  exact (matchLoop_nonempty baseDir sep txt fuel (mkRegExp (re_matcher default_re) 0)
           [] matches (re_matcher_ok default_re) (default_re_never_empty txt)
           (Forall_nil_2 _) Hloop).
Qed.

(** ** Path resolution *)

(** C7. Two spellings of a tag that denote one target under the separator
    (the same segments; for a separator of one character, spellings that
    differ only in which delimiter stands at each place, as [a/b:c] and
    [a:b:c] under [:]) resolve to the same normalized path; [toAbsolute]
    being a function of the base directory, the tag and the separator,
    resolving one tag twice gives one path. *)
Theorem toAbsolute_same_target `{Host} (baseDir sep s1 s2 : string) :
  same_target sep s1 s2 ->
  toAbsolute baseDir s1 sep = toAbsolute baseDir s2 sep.
Proof.
  intros [Hseg | (c & -> & Hsp)]; unfold toAbsolute.
  - now rewrite Hseg.
  - now rewrite (same_spelling_segments c s1 s2 Hsp).
Qed.

Lemma toAbsolute_same_target_witness :
  same_target ":" "a/b:c" "a:b:c"
  /\ @toAbsolute Posix.host "/ws" "a/b:c" ":" = "/ws/a/b/c"
  /\ @toAbsolute Posix.host "/ws" "a:b:c" ":" = "/ws/a/b/c".
Proof.
  assert (Hsame : same_target ":" "a/b:c" "a:b:c").
  { right. exists ":"%char. split; [reflexivity|].
    unfold same_spelling. simpl.
    repeat (constructor; [first [now left | right; split; reflexivity]|]).
    constructor. }
  split; [exact Hsame|]. split; [reflexivity|].
  rewrite <- (@toAbsolute_same_target Posix.host "/ws" ":" "a/b:c" "a:b:c" Hsame).
  reflexivity.
Defined.

(** ** The scenarios of the whole extension *)

(** A tag whose target exists is shown with the content of the target, over
    the range of the whole tag. *)
Example existing_target_is_shown :
  (w ← @run Posix.host header_world [EvBegin 0; EvComplete 0];
   (fun e => (fun d => (range d, contentText d)) <$> inlineDecos e) <$> editors w !! 0)
  = Some [(mkRange 6 27, Some "Hello")].
Proof. vm_compute. reflexivity. Qed.

(** The same tag without its target is left out when only existing paths are
    shown, and is marked as missing otherwise. *)
Example missing_target :
  (w ← @run Posix.host (with_fs ∅ header_world) [EvBegin 0; EvComplete 0];
   (fun e => contentText <$> inlineDecos e) <$> editors w !! 0) = Some []
  /\ (w ← @run Posix.host
            (with_config (mkConfig None None (Some false) None None None None)
               (with_fs ∅ header_world))
            [EvBegin 0; EvComplete 0];
      (fun e => (fun d => (contentText d, hoverMessage d)) <$> inlineDecos e)
        <$> editors w !! 0)
     = Some [(Some "(missing)", Some "_Path not found_")].
Proof. split; vm_compute; reflexivity. Qed.

(** A change of the target on disk, reported by its watcher, shows in the
    pass that the watcher starts. *)
Example changed_target_is_reread :
  (w ← @run Posix.host header_world
         [EvBegin 0; EvComplete 0;
          EvFs "/ws/shared/header.txt" (Some (mkNode KFile 8 (Some (list_byte_of_string "Bye"))));
          EvWatch 0; EvComplete 0];
   (fun e => contentText <$> inlineDecos e) <$> editors w !! 0)
  = Some [Some "Bye"].
Proof. vm_compute. reflexivity. Qed.

(** * Further properties *)

(** ** Reads *)

(** A read that directly follows a read of the same path answers what the
    first one answered, whatever its limit, and changes nothing. *)
Theorem read_twice `{Host} (p : string) (maxBytes maxBytes' : Z) (w : World) :
  readFileTruncated p maxBytes' (readFileTruncated p maxBytes w).2
  = readFileTruncated p maxBytes w.
Proof.
  unfold readFileTruncated at 2 3.
  destruct (fs_stat (fs w) p) as [st|] eqn:Hst.
  2:{ simpl. unfold readFileTruncated. now rewrite Hst. }
  destruct (cache_hit st (CACHE w !! p)) as [t|] eqn:Hhit.
  { simpl. unfold readFileTruncated. now rewrite Hst, Hhit. }
  destruct (fs_readFile (fs w) p) as [buf|] eqn:Hbuf.
  2:{ simpl. unfold readFileTruncated. now rewrite Hst, Hhit, Hbuf. }
  simpl. unfold readFileTruncated. simpl. rewrite Hst, lookup_insert_eq.
  unfold cache_hit. simpl. now rewrite Z.eqb_refl.
Qed.

(** A read changes nothing but [CACHE], and there nothing but the entry of
    the path it reads; an entry that it writes carries the modification time
    that [stat] reported and the text that the read answers. *)
Theorem read_frame `{Host} (p : string) (maxBytes : Z) (w : World) :
  let r := readFileTruncated p maxBytes w in
  fs r.2 = fs w /\ config r.2 = config w /\ WATCHERS r.2 = WATCHERS w
  /\ liveWatchers r.2 = liveWatchers w /\ editors r.2 = editors w
  /\ inflight r.2 = inflight w
  /\ (forall q, q <> p -> CACHE r.2 !! q = CACHE w !! q)
  /\ (CACHE r.2 !! p = CACHE w !! p
      \/ exists st, fs_stat (fs w) p = Some st
           /\ CACHE r.2 !! p = Some (mkCacheEntry (node_mtimeMs st) r.1)).
Proof.
  unfold readFileTruncated.
  destruct (fs_stat (fs w) p) as [st|] eqn:Hst; [|simpl; tauto].
  destruct (cache_hit st (CACHE w !! p)) as [t|]; [simpl; tauto|].
  destruct (fs_readFile (fs w) p) as [buf|]; [|simpl; tauto].
  simpl. repeat (split; [reflexivity|]). split.
  - intros q Hq. now rewrite lookup_insert_ne.
  - right. exists st. split; [reflexivity|]. apply lookup_insert_eq.
Qed.

(** Once the watcher of a path has reported a change, the path has no cached
    text, and the next read of the path answers the content that the file has
    now, also when its modification time is the one that was cached. *)
Theorem watch_event_forces_reread `{Host} (w w' : World) (id : nat) (p : string)
    (buf : list Byte.byte) (maxBytes : Z) :
  liveWatchers w !! id = Some p ->
  step w (EvWatch id) = Some w' ->
  fs_readFile (fs w) p = Some buf ->
  CACHE w' !! p = None
  /\ (readFileTruncated p maxBytes w').1 = buffer_toString (truncated maxBytes buf).
Proof.
  intros Hlive Hstep Hbuf. simpl in Hstep. rewrite Hlive in Hstep. simpl in Hstep.
  assert (Hw' : fs w' = fs w /\ CACHE w' = delete p (CACHE w)).
  { destruct (activeTextEditor w) as [ed|].
    - destruct (updateDecorations_begin ed _) as [ps|]; [|discriminate].
      simpl in Hstep. injection Hstep as <-. now split.
    - injection Hstep as <-. now split. }
  destruct Hw' as [Hfs Hc].
  assert (Hnone : CACHE w' !! p = None) by (rewrite Hc; apply lookup_delete_eq).
  split; [exact Hnone|].
  unfold readFileTruncated. rewrite Hfs, Hnone.
  assert (Hst : is_Some (fs_stat (fs w) p)).
  { unfold fs_readFile in Hbuf. unfold fs_stat. destruct (fs w !! p); [eauto|discriminate]. }
  destruct Hst as [st Hst]. rewrite Hst. simpl. now rewrite Hbuf.
Qed.

Lemma watch_event_forces_reread_witness :
  exists w w' : World,
    @run Posix.host header_world [EvBegin 0; EvComplete 0] = Some w
    /\ liveWatchers w !! 0 = Some "/ws/shared/header.txt"
    /\ @step Posix.host w (EvWatch 0) = Some w'
    /\ (@readFileTruncated Posix.host "/ws/shared/header.txt" 3 w').1 = "Hel".
Proof.
  destruct (@run Posix.host header_world [EvBegin 0; EvComplete 0]) as [w|] eqn:Hrun;
    [|vm_compute in Hrun; discriminate Hrun].
  destruct (@step Posix.host w (EvWatch 0)) as [w'|] eqn:Hstep.
  2:{ vm_compute in Hrun. injection Hrun as <-. vm_compute in Hstep. discriminate Hstep. }
  assert (Hlive : liveWatchers w !! 0 = Some "/ws/shared/header.txt").
  { vm_compute in Hrun. injection Hrun as <-. reflexivity. }
  assert (Hbuf : fs_readFile (fs w) "/ws/shared/header.txt"
                 = Some (list_byte_of_string "Hello")).
  { vm_compute in Hrun. injection Hrun as <-. reflexivity. }
  exists w, w'. split; [reflexivity|]. split; [exact Hlive|]. split; [exact Hstep|].
  rewrite (proj2 (@watch_event_forces_reread Posix.host w w' 0 "/ws/shared/header.txt"
                    (list_byte_of_string "Hello") 3%Z Hlive Hstep Hbuf)).
  reflexivity.
Defined.

(** ** Watchers: how the operations compose *)

Lemma world_eta (w : World) :
  mkWorld (fs w) (config w) (CACHE w) (WATCHERS w) (liveWatchers w) (nextWatcher w)
    (tagDecoInline w) (tagDecoHide w) (nextDecoType w) (disposedDecoTypes w)
    (editors w) (activeTextEditor w) (inflight w) = w.
Proof. now destruct w. Qed.

Lemma retainWatcher_registered (p : string) (info : WatchInfo) (w : World) :
  WATCHERS w !! p = Some info ->
  retainWatcher p w =
    with_WATCHERS (<[p := mkWatchInfo (watcher info) (refs info + 1)]> (WATCHERS w)) w.
Proof. intros E. unfold retainWatcher. now rewrite E. Qed.

Lemma retainWatcher_fresh (p : string) (w : World) :
  WATCHERS w !! p = None ->
  retainWatcher p w =
    with_WATCHERS (<[p := mkWatchInfo (nextWatcher w) 1]> (WATCHERS w))
      (with_liveWatchers (<[nextWatcher w := p]> (liveWatchers w)) (S (nextWatcher w)) w).
Proof. intros E. unfold retainWatcher. now rewrite E. Qed.

Lemma releaseWatcher_shared (p : string) (info : WatchInfo) (w : World) :
  WATCHERS w !! p = Some info -> (1 < refs info)%Z ->
  releaseWatcher p w =
    with_WATCHERS (<[p := mkWatchInfo (watcher info) (refs info - 1)]> (WATCHERS w)) w.
Proof.
  intros E Hr. unfold releaseWatcher. rewrite E.
  destruct (refs info - 1 <=? 0)%Z eqn:El; [apply Z.leb_le in El; lia | reflexivity].
Qed.

(** A release that follows a retain of the same path undoes it: for a path
    that was registered the process is as before; for a path that was not,
    [WATCHERS] is as before, the watcher made for it is disposed, and the
    cached text of the path is dropped. *)
Theorem retain_then_release (p : string) (w : World) :
  refs_positive w ->
  let w' := releaseWatcher p (retainWatcher p w) in
  WATCHERS w' = WATCHERS w
  /\ (is_Some (WATCHERS w !! p) -> w' = w)
  /\ (WATCHERS w !! p = None ->
      CACHE w' = delete p (CACHE w)
      /\ liveWatchers w' !! nextWatcher w = None
      /\ nextWatcher w' = S (nextWatcher w)).
Proof.
  intros Hpos. destruct (WATCHERS w !! p) as [info|] eqn:E.
  - assert (Hr : (0 < refs info)%Z) by exact (Hpos p info E).
    assert (Heq : releaseWatcher p (retainWatcher p w) = w).
    { rewrite (retainWatcher_registered p info w E).
      rewrite (releaseWatcher_shared p (mkWatchInfo (watcher info) (refs info + 1)));
        [|simpl; apply lookup_insert_eq | simpl; lia].
      unfold with_WATCHERS. simpl. rewrite insert_insert_eq.
      replace (refs info + 1 - 1)%Z with (refs info) by lia.
      replace (mkWatchInfo (watcher info) (refs info)) with info by now destruct info.
      rewrite (insert_id _ _ _ E). apply world_eta. }
    simpl. rewrite Heq. split; [reflexivity|]. split; [reflexivity|]. discriminate.
  - rewrite (retainWatcher_fresh p w E).
    rewrite (releaseWatcher_last p (mkWatchInfo (nextWatcher w) 1));
      [|simpl; apply lookup_insert_eq | reflexivity].
    simpl. split; [now apply delete_insert_id|].
    split; [intros [? ?]; discriminate|]. intros _.
    split; [reflexivity|]. split; [apply lookup_delete_eq | reflexivity].
Qed.

Lemma retain_then_release_witness :
  refs_positive sample_world
  /\ WATCHERS (releaseWatcher "/ws/a/b" (retainWatcher "/ws/a/b" sample_world))
     = WATCHERS sample_world.
Proof.
  assert (Hpos : refs_positive sample_world).
  { intros p info Hp. discriminate Hp. }
  split; [exact Hpos|].
  exact (proj1 (retain_then_release "/ws/a/b" sample_world Hpos)).
Defined.

Lemma retains_count (p : string) (n : nat) (w : World) :
  WATCHERS w !! p = None ->
  let w' := Nat.iter (S n) (retainWatcher p) w in
  WATCHERS w' !! p = Some (mkWatchInfo (nextWatcher w) (Z.of_nat (S n)))
  /\ nextWatcher w' = S (nextWatcher w)
  /\ liveWatchers w' = <[nextWatcher w := p]> (liveWatchers w)
  /\ CACHE w' = CACHE w.
Proof.
  intros E. induction n as [|n IH].
  - simpl. rewrite (retainWatcher_fresh p w E). simpl.
    split; [apply lookup_insert_eq|]. auto.
  - destruct IH as (Hw & Hn & Hl & Hc).
    change (Nat.iter (S (S n)) (retainWatcher p) w)
      with (retainWatcher p (Nat.iter (S n) (retainWatcher p) w)).
    cbv zeta. rewrite (retainWatcher_registered p _ _ Hw). simpl.
    rewrite lookup_insert_eq. split; [do 2 f_equal; lia|]. auto.
Qed.

Lemma releases_count (p : string) (k : nat) (id : nat) (r : Z) (w : World) :
  WATCHERS w !! p = Some (mkWatchInfo id r) ->
  (Z.of_nat k < r)%Z ->
  let w' := Nat.iter k (releaseWatcher p) w in
  WATCHERS w' !! p = Some (mkWatchInfo id (r - Z.of_nat k))
  /\ liveWatchers w' = liveWatchers w
  /\ CACHE w' = CACHE w.
Proof.
  intros E. induction k as [|k IH]; intros Hk.
  - simpl. rewrite E. split; [do 2 f_equal; lia|]. auto.
  - destruct IH as (Hw & Hl & Hc); [lia|].
    change (Nat.iter (S k) (releaseWatcher p) w)
      with (releaseWatcher p (Nat.iter k (releaseWatcher p) w)).
    cbv zeta. rewrite (releaseWatcher_shared p _ _ Hw); [|simpl; lia]. simpl.
    rewrite lookup_insert_eq. split; [do 2 f_equal; lia|]. auto.
Qed.

(** Retains and releases of one path balance.  After [n + 1] retains of a
    path that was not registered, one watcher has been created; [k <= n]
    releases leave it registered with [n + 1 - k] references, its watcher
    live and the cache as it was; the release after [n] releases removes the
    entry and disposes the watcher. *)
Theorem retains_and_releases_balance (p : string) (n k : nat) (w : World) :
  WATCHERS w !! p = None ->
  k <= n ->
  let held := Nat.iter (S n) (retainWatcher p) w in
  let w' := Nat.iter k (releaseWatcher p) held in
  nextWatcher held = S (nextWatcher w)
  /\ WATCHERS w' !! p = Some (mkWatchInfo (nextWatcher w) (Z.of_nat (S n - k)))
  /\ liveWatchers w' !! nextWatcher w = Some p
  /\ CACHE w' = CACHE w
  /\ (let gone := Nat.iter (S n) (releaseWatcher p) held in
      WATCHERS gone !! p = None /\ liveWatchers gone !! nextWatcher w = None).
Proof.
  intros E Hk held w'.
  destruct (retains_count p n w E) as (Hw & Hn & Hl & Hc). fold held in Hw, Hn, Hl, Hc.
  split; [exact Hn|].
  destruct (releases_count p k _ _ held Hw) as (Hw' & Hl' & Hc'); [lia|].
  fold w' in Hw', Hl', Hc'.
  split; [rewrite Hw'; do 2 f_equal; lia|].
  split; [rewrite Hl', Hl; apply lookup_insert_eq|].
  split; [now rewrite Hc', Hc|].
  destruct (releases_count p n _ _ held Hw) as (Hwn & Hln & Hcn); [lia|].
  change (Nat.iter (S n) (releaseWatcher p) held)
    with (releaseWatcher p (Nat.iter n (releaseWatcher p) held)).
  cbv zeta. rewrite (releaseWatcher_last p _ _ Hwn); [|simpl; lia]. simpl.
  split; apply lookup_delete_eq.
Qed.

Lemma retains_and_releases_balance_witness :
  WATCHERS sample_world !! "/ws/a/b" = None
  /\ 1 <= 2
  /\ WATCHERS (Nat.iter 1 (releaseWatcher "/ws/a/b")
                 (Nat.iter 3 (retainWatcher "/ws/a/b") sample_world)) !! "/ws/a/b"
     = Some (mkWatchInfo 0 2).
Proof.
  assert (Hle : 1 <= 2) by lia.
  split; [reflexivity|]. split; [exact Hle|].
  exact (proj1 (proj2 (retains_and_releases_balance "/ws/a/b" 2 1 sample_world
                         eq_refl Hle))).
Defined.

(** ** Watchers along the runs of the extension *)

Lemma retainWatcher_watchers_live (p : string) (w : World) :
  watchers_live w -> watchers_live (retainWatcher p w).
Proof.
  intros [Hreg Hlive]. destruct (WATCHERS w !! p) as [info|] eqn:E.
  - rewrite (retainWatcher_registered p info w E). split; simpl.
    + intros q iq Hq. destruct (decide (q = p)) as [->|Hne].
      * rewrite lookup_insert_eq in Hq. injection Hq as <-. simpl. now apply Hreg.
      * rewrite lookup_insert_ne in Hq by congruence. now apply Hreg.
    + intros id q Hq. destruct (Hlive id q Hq) as (Hlt & iq & Hiq & Hid).
      split; [exact Hlt|]. destruct (decide (q = p)) as [->|Hne].
      * rewrite E in Hiq. injection Hiq as <-.
        eexists. rewrite lookup_insert_eq. split; [reflexivity | exact Hid].
      * exists iq. rewrite lookup_insert_ne by congruence. now split.
  - rewrite (retainWatcher_fresh p w E). split; simpl.
    + intros q iq Hq. destruct (decide (q = p)) as [->|Hne].
      * rewrite lookup_insert_eq in Hq. injection Hq as <-. simpl.
        apply lookup_insert_eq.
      * rewrite lookup_insert_ne in Hq by congruence.
        pose proof (Hreg q iq Hq) as Hl. destruct (Hlive _ _ Hl) as (Hlt & _).
        rewrite lookup_insert_ne by lia. exact Hl.
    + intros id q Hq. destruct (decide (id = nextWatcher w)) as [->|Hne].
      * rewrite lookup_insert_eq in Hq. injection Hq as <-. split; [lia|].
        eexists. rewrite lookup_insert_eq. split; reflexivity.
      * rewrite lookup_insert_ne in Hq by congruence.
        destruct (Hlive id q Hq) as (Hlt & iq & Hiq & Hid). split; [lia|].
        exists iq. split; [|exact Hid].
        rewrite lookup_insert_ne; [exact Hiq|]. intros ->. congruence.
Qed.

Lemma releaseWatcher_watchers_live (p : string) (w : World) :
  watchers_live w -> watchers_live (releaseWatcher p w).
Proof.
  intros [Hreg Hlive]. unfold releaseWatcher.
  destruct (WATCHERS w !! p) as [info|] eqn:E; [|now split].
  destruct (refs info - 1 <=? 0)%Z; split; simpl.
  - intros q iq Hq. apply lookup_delete_Some in Hq. destruct Hq as [Hne Hq].
    pose proof (Hreg q iq Hq) as Hl.
    rewrite lookup_delete_ne; [exact Hl|].
    intros Heq. rewrite <- Heq, (Hreg p info E) in Hl. congruence.
  - intros id q Hq. apply lookup_delete_Some in Hq. destruct Hq as [Hne Hq].
    destruct (Hlive id q Hq) as (Hlt & iq & Hiq & Hid). split; [exact Hlt|].
    exists iq. split; [|exact Hid].
    rewrite lookup_delete_ne; [exact Hiq|].
    intros <-. rewrite E in Hiq. injection Hiq as <-. congruence.
  - intros q iq Hq. destruct (decide (q = p)) as [->|Hne].
    + rewrite lookup_insert_eq in Hq. injection Hq as <-. simpl. now apply Hreg.
    + rewrite lookup_insert_ne in Hq by congruence. now apply Hreg.
  - intros id q Hq. destruct (Hlive id q Hq) as (Hlt & iq & Hiq & Hid).
    split; [exact Hlt|]. destruct (decide (q = p)) as [->|Hne].
    + rewrite E in Hiq. injection Hiq as <-.
      eexists. rewrite lookup_insert_eq. split; [reflexivity | exact Hid].
    + exists iq. rewrite lookup_insert_ne by congruence. now split.
Qed.

Lemma readFileTruncated_watchers_live `{Host} (p : string) (maxBytes : Z) (w : World) :
  watchers_live w -> watchers_live (readFileTruncated p maxBytes w).2.
Proof.
  intros Hl. unfold readFileTruncated.
  destruct (fs_stat (fs w) p) as [st|]; [|exact Hl].
  destruct (cache_hit st (CACHE w !! p)); [exact Hl|].
  destruct (fs_readFile (fs w) p); exact Hl.
Qed.

Lemma resolveItem_watchers_live `{Host} (ps : Pass) (st : Resolving) (it : Item) :
  watchers_live (rs_world st) -> watchers_live (rs_world (resolveItem ps st it)).
Proof.
  intros Hl. unfold resolveItem.
  destruct (pass_onlyExisting ps && negb (pathExists (it_absPath it) (rs_world st)));
    [exact Hl|].
  destruct (pathExists (it_absPath it) (rs_world st)).
  - pose proof (retainWatcher_watchers_live (it_absPath it) _ Hl) as Hl'.
    pose proof (readFileTruncated_watchers_live (it_absPath it) (pass_maxBytes ps) _
                  Hl') as Hl2.
    destruct (readFileTruncated _ _ _) as [txt w2]. simpl in Hl2.
    destruct (pass_showInline ps); [exact Hl2|].
    destruct (pass_showHover ps); exact Hl2.
  - destruct (pass_showInline ps); [exact Hl|].
    destruct (pass_showHover ps); exact Hl.
Qed.

Lemma updateDecorations_end_watchers_live `{Host} (ps : Pass) (w : World) :
  watchers_live w -> watchers_live (updateDecorations_end ps w).
Proof.
  intros Hw. unfold updateDecorations_end.
  assert (Hres : watchers_live (rs_world (resolveAll ps w))).
  { unfold resolveAll.
    assert (Hst : watchers_live (rs_world (mkResolving w [] [] ∅))) by exact Hw.
    revert Hst. generalize (mkResolving w [] [] ∅). generalize (pass_matches ps).
    intros l. induction l as [|it l IH]; intros st Hst; simpl; [exact Hst|].
    apply IH. now apply resolveItem_watchers_live. }
  unfold releaseUnneeded.
  set (w0 := setDecorations _ _ _ _).
  assert (Hw0 : watchers_live w0) by exact Hres.
  generalize (elements (dom (WATCHERS w0))). revert Hw0. generalize w0.
  intros w1 Hw1 l. revert w1 Hw1.
  induction l as [|p l IH]; intros w1 Hw1; simpl; [exact Hw1|].
  apply IH. destruct (decide (p ∈ rs_needed (resolveAll ps w))); [exact Hw1|].
  now apply releaseWatcher_watchers_live.
Qed.

Lemma step_watchers_live `{Host} (w w' : World) (ev : Event) :
  watchers_live w -> step w ev = Some w' -> watchers_live w'.
Proof.
  intros Hw. destruct ev as [ed|i|ed txt|cfg|p n|id]; simpl.
  - destruct (updateDecorations_begin ed w); [|discriminate]. now intros [= <-].
  - destruct (inflight w !! i) as [ps|]; [|discriminate]. simpl. intros [= <-].
    exact (updateDecorations_end_watchers_live ps w Hw).
  - destruct (editors w !! ed); [|discriminate]. now intros [= <-].
  - now intros [= <-].
  - now intros [= <-].
  - destruct (liveWatchers w !! id) as [p|]; [|discriminate]. simpl.
    destruct (activeTextEditor w) as [ed|]; [|now intros [= <-]].
    destruct (updateDecorations_begin ed _); [|discriminate]. now intros [= <-].
Qed.

Lemma run_watchers_live `{Host} (evs : list Event) (w w' : World) :
  watchers_live w -> run w evs = Some w' -> watchers_live w'.
Proof.
  revert w. induction evs as [|ev evs IH]; intros w Hw; simpl.
  - now intros [= <-].
  - destruct (step w ev) as [w1|] eqn:Hstep; [|discriminate]. simpl.
    apply IH. exact (step_watchers_live w w1 ev Hw Hstep).
Qed.

Lemma initial_watchers_live (files : FS) (cfg : Config) (eds : gmap nat Editor)
    (active : option nat) :
  watchers_live (initial files cfg eds active).
Proof.
  split; simpl.
  - intros p info Hp. now rewrite lookup_empty in Hp.
  - intros id p Hp. now rewrite lookup_empty in Hp.
Qed.

(** Along every run of passes, edits, changes of the configuration and of the
    files, and watcher events, the live watchers are exactly the watchers of
    the registered paths: no registered path is without its watcher, no
    watcher outlives its entry, and two paths never share a watcher. *)
Theorem watchers_match_registrations `{Host} (files : FS) (cfg : Config)
    (eds : gmap nat Editor) (active : option nat) (evs : list Event) (w : World) :
  run (initial files cfg eds active) evs = Some w ->
  watchers_live w
  /\ (forall p q ip iq,
        WATCHERS w !! p = Some ip -> WATCHERS w !! q = Some iq ->
        watcher ip = watcher iq -> p = q).
Proof.
  intros Hrun.
  pose proof (run_watchers_live evs _ w (initial_watchers_live files cfg eds active) Hrun)
    as Hl.
  split; [exact Hl|]. intros p q ip iq Hp Hq Heq.
  destruct Hl as [Hreg _]. pose proof (Hreg p ip Hp) as H1.
  pose proof (Hreg q iq Hq) as H2. rewrite Heq in H1. congruence.
Qed.

Lemma watchers_match_registrations_witness :
  exists w : World,
    @run Posix.host sample_world limit_change = Some w /\ watchers_live w.
Proof.
  destruct (@run Posix.host sample_world limit_change) as [w|] eqn:Hrun;
    [|vm_compute in Hrun; discriminate Hrun].
  exists w. split; [reflexivity|].
  exact (proj1 (@watchers_match_registrations Posix.host sample_files no_config
                  sample_editors (Some 0) limit_change w Hrun)).
Defined.

(** ** What a pass does to the tables *)

Lemma releaseWatcher_lookup (p q : string) (w : World) :
  WATCHERS (releaseWatcher p w) !! q =
  if decide (q = p) then released (WATCHERS w !! p) else WATCHERS w !! q.
Proof.
  unfold releaseWatcher, released.
  destruct (WATCHERS w !! p) as [info|] eqn:E; simpl.
  - destruct (refs info - 1 <=? 0)%Z; simpl; destruct (decide (q = p)) as [->|Hne].
    + apply lookup_delete_eq.
    + now apply lookup_delete_ne.
    + apply lookup_insert_eq.
    + now apply lookup_insert_ne.
  - destruct (decide (q = p)) as [->|Hne]; [exact E | reflexivity].
Qed.

Lemma release_fold_lookup (needed : gset string) (q : string) (l : list string) :
  NoDup l ->
  forall w : World,
    WATCHERS (foldl (fun w' p => if decide (p ∈ needed) then w' else releaseWatcher p w')
                w l) !! q =
    if decide (q ∈ l /\ q ∉ needed) then released (WATCHERS w !! q) else WATCHERS w !! q.
Proof.
  induction 1 as [|p l Hp Hnd IH]; intros w.
  - cbn [foldl]. case_decide as Hd; [|reflexivity].
    destruct Hd as [Hin _]. now apply not_elem_of_nil in Hin.
  - cbn [foldl]. rewrite IH. destruct (decide (q = p)) as [->|Hne].
    + rewrite (decide_False (P := p ∈ l /\ p ∉ needed)) by tauto.
      destruct (decide (p ∈ needed)) as [Hin|Hnin].
      * rewrite decide_False; [reflexivity|]. tauto.
      * rewrite releaseWatcher_lookup, decide_True by reflexivity.
        rewrite decide_True; [reflexivity|]. split; [left|exact Hnin].
    + assert (Hw : WATCHERS (if decide (p ∈ needed) then w else releaseWatcher p w) !! q
                   = WATCHERS w !! q).
      { destruct (decide (p ∈ needed)); [reflexivity|].
        rewrite releaseWatcher_lookup. now rewrite decide_False. }
      rewrite Hw. destruct (decide (q ∈ l /\ q ∉ needed)) as [[Hin Hnin]|Hn].
      * rewrite decide_True; [reflexivity|]. split; [now right|exact Hnin].
      * rewrite decide_False; [reflexivity|]. intros [Hin Hnin]. apply Hn.
        apply elem_of_cons in Hin. destruct Hin as [->|Hin]; [congruence | tauto].
Qed.

(** The loop at the end of a pass takes one reference from every registered
    path that the pass does not need, removing the entry when that was the
    last one, and leaves the entries of the needed paths as they are. *)
Theorem release_loop_lookup (needed : gset string) (w : World) (q : string) :
  WATCHERS (releaseUnneeded needed w) !! q =
  if decide (q ∈ needed) then WATCHERS w !! q else released (WATCHERS w !! q).
Proof.
  unfold releaseUnneeded.
  rewrite (release_fold_lookup needed q _ (NoDup_elements (dom (WATCHERS w)))).
  destruct (decide (q ∈ needed)) as [Hin|Hnin].
  - rewrite decide_False; [reflexivity|]. tauto.
  - destruct (WATCHERS w !! q) as [info|] eqn:E.
    + rewrite decide_True; [reflexivity|]. split; [|exact Hnin].
      apply elem_of_elements, elem_of_dom. rewrite E. eauto.
    + case_decide; reflexivity.
Qed.

Lemma retainWatcher_outside (p : string) (w : World) :
  outside_tables (retainWatcher p w) = outside_tables w.
Proof. unfold retainWatcher. now destruct (WATCHERS w !! p). Qed.

Lemma releaseWatcher_outside (p : string) (w : World) :
  outside_tables (releaseWatcher p w) = outside_tables w.
Proof.
  unfold releaseWatcher. destruct (WATCHERS w !! p) as [info|]; [|reflexivity].
  now destruct (refs info - 1 <=? 0)%Z.
Qed.

Lemma readFileTruncated_outside `{Host} (p : string) (maxBytes : Z) (w : World) :
  outside_tables (readFileTruncated p maxBytes w).2 = outside_tables w.
Proof.
  unfold readFileTruncated.
  destruct (fs_stat (fs w) p) as [st|]; [|reflexivity].
  destruct (cache_hit st (CACHE w !! p)); [reflexivity|].
  now destruct (fs_readFile (fs w) p).
Qed.

Lemma resolveItem_outside `{Host} (ps : Pass) (st : Resolving) (it : Item) :
  outside_tables (rs_world (resolveItem ps st it)) = outside_tables (rs_world st).
Proof.
  unfold resolveItem.
  destruct (pass_onlyExisting ps && negb (pathExists (it_absPath it) (rs_world st)));
    [reflexivity|].
  destruct (pathExists (it_absPath it) (rs_world st)).
  - pose proof (readFileTruncated_outside (it_absPath it) (pass_maxBytes ps)
                  (retainWatcher (it_absPath it) (rs_world st))) as Ho.
    destruct (readFileTruncated _ _ _) as [txt w2]. simpl in Ho.
    rewrite retainWatcher_outside in Ho.
    destruct (pass_showInline ps); [exact Ho|].
    destruct (pass_showHover ps); exact Ho.
  - destruct (pass_showInline ps); [reflexivity|].
    destruct (pass_showHover ps); reflexivity.
Qed.

Lemma resolve_fold_outside `{Host} (ps : Pass) (l : list Item) (st : Resolving) :
  outside_tables (rs_world (foldl (resolveItem ps) st l)) = outside_tables (rs_world st).
Proof.
  revert st. induction l as [|it l IH]; intros st; simpl; [reflexivity|].
  rewrite IH. apply resolveItem_outside.
Qed.

Lemma releaseUnneeded_outside (needed : gset string) (w : World) :
  outside_tables (releaseUnneeded needed w) = outside_tables w.
Proof.
  unfold releaseUnneeded. generalize (elements (dom (WATCHERS w))).
  intros l. revert w. induction l as [|p l IH]; intros w; simpl; [reflexivity|].
  rewrite IH. destruct (decide (p ∈ needed)); [reflexivity|].
  apply releaseWatcher_outside.
Qed.

Lemma updateDecorations_end_outside `{Host} (ps : Pass) (w : World) :
  outside_tables (updateDecorations_end ps w) = outside_tables w.
Proof.
  unfold updateDecorations_end. rewrite releaseUnneeded_outside.
  unfold setDecorations. 
  change (outside_tables (with_editors _ (rs_world (resolveAll ps w))))
    with (outside_tables (rs_world (resolveAll ps w))).
  apply resolve_fold_outside.
Qed.

(** A pass that completes writes no file, changes neither the configuration
    nor the set of suspended calls, leaves every other editor as it is, and
    changes no document: only the decorations of its own editor. *)
Theorem pass_changes_decorations_only `{Host} (ps : Pass) (w : World) :
  let w' := updateDecorations_end ps w in
  fs w' = fs w /\ config w' = config w /\ inflight w' = inflight w
  /\ (forall ed, ed <> pass_editor ps -> editors w' !! ed = editors w !! ed)
  /\ (forall ed, document <$> editors w' !! ed = document <$> editors w !! ed).
Proof.
  intros w'. pose proof (updateDecorations_end_outside ps w) as Ho.
  fold w' in Ho. unfold outside_tables in Ho. injection Ho as Hfs Hcfg _ Hin _ _ _ _.
  split; [exact Hfs|]. split; [exact Hcfg|]. split; [exact Hin|].
  assert (Hed : editors w' =
                alter (fun e => mkEditor (fsPath e) (getText e)
                                  (rs_inline (resolveAll ps w)) (rs_hide (resolveAll ps w)))
                  (pass_editor ps) (editors w)).
  { unfold w', updateDecorations_end. rewrite releaseUnneeded_editors.
    unfold setDecorations. simpl. now rewrite resolveAll_editors. }
  rewrite Hed. split.
  - intros ed Hne. now rewrite lookup_alter_ne.
  - intros ed. destruct (decide (ed = pass_editor ps)) as [->|Hne].
    + rewrite lookup_alter_eq. now destruct (editors w !! pass_editor ps).
    + now rewrite lookup_alter_ne.
Qed.

Lemma pathExists_fs (p : string) (w1 w2 : World) :
  fs w1 = fs w2 -> pathExists p w1 = pathExists p w2.
Proof. intros E. unfold pathExists. now rewrite E. Qed.

Lemma outside_fs (w1 w2 : World) : outside_tables w1 = outside_tables w2 -> fs w1 = fs w2.
Proof. unfold outside_tables. now intros [= -> _]. Qed.

Lemma resolveItem_tables `{Host} (ps : Pass) (st : Resolving) (it : Item) :
  let p := it_absPath it in
  WATCHERS (rs_world (resolveItem ps st it)) =
    (if pathExists p (rs_world st)
     then WATCHERS (retainWatcher p (rs_world st))
     else WATCHERS (rs_world st))
  /\ rs_needed (resolveItem ps st it) =
     (if pathExists p (rs_world st) then {[p]} ∪ rs_needed st else rs_needed st).
Proof.
  unfold resolveItem.
  destruct (pathExists (it_absPath it) (rs_world st)) eqn:Hex.
  - rewrite andb_false_r.
    pose proof (readFileTruncated_WATCHERS (it_absPath it) (pass_maxBytes ps)
                  (retainWatcher (it_absPath it) (rs_world st))) as Hw.
    destruct (readFileTruncated _ _ _) as [txt w2]. simpl in Hw.
    destruct (pass_showInline ps); [now split|].
    destruct (pass_showHover ps); now split.
  - destruct (pass_onlyExisting ps); simpl; [now split|].
    destruct (pass_showInline ps); [now split|].
    destruct (pass_showHover ps); now split.
Qed.

Lemma retainWatcher_refs_of (p q : string) (w : World) :
  refs_of (WATCHERS (retainWatcher p w) !! q) =
  (refs_of (WATCHERS w !! q) + if decide (q = p) then 1 else 0)%Z.
Proof.
  unfold retainWatcher, refs_of.
  destruct (WATCHERS w !! p) as [info|] eqn:E; simpl;
    destruct (decide (q = p)) as [->|Hne].
  - rewrite lookup_insert_eq, E. reflexivity.
  - rewrite lookup_insert_ne by congruence. lia.
  - rewrite lookup_insert_eq, E. reflexivity.
  - rewrite lookup_insert_ne by congruence. lia.
Qed.

Lemma resolve_fold_refs `{Host} (ps : Pass) (w : World) (q : string) (l : list Item) :
  pathExists q w = true ->
  forall st : Resolving,
    fs (rs_world st) = fs w ->
    let st' := foldl (resolveItem ps) st l in
    refs_of (WATCHERS (rs_world st') !! q) =
      (refs_of (WATCHERS (rs_world st) !! q) + Z.of_nat (occurrences_of q l))%Z
    /\ (q ∈ rs_needed st \/ 0 < occurrences_of q l -> q ∈ rs_needed st').
Proof.
  intros Hq. induction l as [|it l IH]; intros st Hfs; cbn [foldl].
  - unfold occurrences_of. simpl. split; [lia|]. intros [Hin|Hlt]; [exact Hin | lia].
  - destruct (resolveItem_tables ps st it) as [Hw Hn].
    assert (Hfs' : fs (rs_world (resolveItem ps st it)) = fs w).
    { rewrite <- Hfs. apply outside_fs, resolveItem_outside. }
    destruct (IH _ Hfs') as [Hrefs Hneeded]. cbv zeta in *.
    unfold occurrences_of in *. rewrite filter_cons.
    destruct (decide (it_absPath it = q)) as [Heq|Hne].
    + rewrite Heq, (pathExists_fs q _ w Hfs), Hq in Hw, Hn.
      split.
      * rewrite Hrefs, Hw, retainWatcher_refs_of, decide_True by reflexivity.
        simpl length. lia.
      * intros _. apply Hneeded. left. rewrite Hn.
        apply elem_of_union. left. now apply elem_of_singleton.
    + split.
      * rewrite Hrefs, Hw.
        destruct (pathExists (it_absPath it) (rs_world st)); [|reflexivity].
        rewrite retainWatcher_refs_of, decide_False by congruence. lia.
      * intros Hor. apply Hneeded. destruct Hor as [Hin|Hlt]; [|now right].
        left. rewrite Hn.
        destruct (pathExists (it_absPath it) (rs_world st)); [|exact Hin].
        apply elem_of_union. now right.
Qed.

Lemma release_fold_lookup_needed (needed : gset string) (w : World) (q : string) :
  q ∈ needed ->
  WATCHERS (releaseUnneeded needed w) !! q = WATCHERS w !! q.
Proof.
  intros Hin. unfold releaseUnneeded.
  rewrite (release_fold_lookup needed q _ (NoDup_elements (dom (WATCHERS w)))).
  rewrite decide_False; [reflexivity|]. tauto.
Qed.

(** A pass adds one reference to the watcher of an existing target for each
    occurrence that resolves to it, and its release loop gives none of them
    back: the count of a path that stays referenced grows with every pass. *)
Theorem pass_adds_references `{Host} (ps : Pass) (w : World) (q : string) :
  pathExists q w = true ->
  0 < occurrences_of q (pass_matches ps) ->
  refs_of (WATCHERS (updateDecorations_end ps w) !! q) =
  (refs_of (WATCHERS w !! q) + Z.of_nat (occurrences_of q (pass_matches ps)))%Z.
Proof.
  intros Hq Hocc. unfold updateDecorations_end.
  destruct (resolve_fold_refs ps w q (pass_matches ps) Hq (mkResolving w [] [] ∅) eq_refl)
    as [Hrefs Hneeded].
  fold (resolveAll ps w) in Hrefs, Hneeded. cbv zeta in *.
  rewrite release_fold_lookup_needed.
  - exact Hrefs.
  - apply Hneeded. now right.
Qed.

Lemma pass_adds_references_witness :
  @pathExists "/ws/a/b" sample_world = true
  /\ 0 < occurrences_of "/ws/a/b" (pass_matches early_pass)
  /\ refs_of (WATCHERS (@updateDecorations_end Posix.host early_pass
                          (@updateDecorations_end Posix.host early_pass sample_world))
              !! "/ws/a/b") = 2%Z.
Proof.
  assert (Hocc : 0 < occurrences_of "/ws/a/b" (pass_matches early_pass)).
  { vm_compute. lia. }
  split; [reflexivity|]. split; [exact Hocc|].
  rewrite (@pass_adds_references Posix.host early_pass
             (@updateDecorations_end Posix.host early_pass sample_world) "/ws/a/b"
             eq_refl Hocc).
  reflexivity.
Defined.

(** ** The render plan *)

Lemma resolveItem_decos `{Host} (ps : Pass) (st : Resolving) (it : Item) :
  exists hover : option string,
    deco_key <$> rs_inline (resolveItem ps st it) =
      ((deco_key <$> rs_inline st) ++
         (if shown ps (rs_world st) it && (pass_showInline ps || pass_showHover ps)
          then [(it_range it, hover)] else []))%list
    /\ deco_key <$> rs_hide (resolveItem ps st it) =
       ((deco_key <$> rs_hide st) ++
          (if shown ps (rs_world st) it && pass_showInline ps
           then [(it_range it, hover)] else []))%list.
Proof.
  unfold resolveItem, shown.
  destruct (pathExists (it_absPath it) (rs_world st)) eqn:Hex.
  - rewrite andb_false_r, orb_true_r. simpl.
    destruct (readFileTruncated _ _ _) as [txt w2].
    eexists. destruct (pass_showInline ps); simpl.
    + rewrite !fmap_app. simpl. split; reflexivity.
    + destruct (pass_showHover ps); simpl.
      * rewrite fmap_app. simpl. split; [reflexivity | now rewrite app_nil_r].
      * now rewrite !app_nil_r.
  - rewrite orb_false_r. destruct (pass_onlyExisting ps); simpl.
    + exists None. now rewrite !app_nil_r.
    + eexists. destruct (pass_showInline ps); simpl.
      * rewrite !fmap_app. simpl. split; reflexivity.
      * destruct (pass_showHover ps); simpl.
        -- rewrite fmap_app. simpl. split; [reflexivity | now rewrite app_nil_r].
        -- now rewrite !app_nil_r.
Qed.

Lemma resolve_fold_decos `{Host} (ps : Pass) (w : World) (l : list Item) :
  forall st : Resolving,
    fs (rs_world st) = fs w ->
    let st' := foldl (resolveItem ps) st l in
    exists K : list (Range * option string),
      K.*1 = it_range <$> filter (fun it => shown ps w it = true) l
      /\ deco_key <$> rs_inline st' =
         ((deco_key <$> rs_inline st) ++
            (if pass_showInline ps || pass_showHover ps then K else []))%list
      /\ deco_key <$> rs_hide st' =
         ((deco_key <$> rs_hide st) ++ (if pass_showInline ps then K else []))%list.
Proof.
  induction l as [|it l IH]; intros st Hfs; cbn [foldl].
  - exists []. split; [reflexivity|].
    destruct (pass_showInline ps || pass_showHover ps), (pass_showInline ps);
      now rewrite !app_nil_r.
  - assert (Hfs' : fs (rs_world (resolveItem ps st it)) = fs w).
    { rewrite <- Hfs. apply outside_fs, resolveItem_outside. }
    destruct (IH _ Hfs') as (K & HK & Hinl & Hhid). cbv zeta in *.
    destruct (resolveItem_decos ps st it) as (hover & Hi & Hh).
    assert (Hsh : shown ps (rs_world st) it = shown ps w it).
    { unfold shown. now rewrite (pathExists_fs _ _ w Hfs). }
    rewrite Hsh in Hi, Hh. rewrite filter_cons.
    destruct (shown ps w it) eqn:Hshown.
    + rewrite decide_True by reflexivity.
      exists ((it_range it, hover) :: K). split; [now rewrite !fmap_cons, HK|].
      rewrite Hinl, Hhid, Hi, Hh. simpl.
      destruct (pass_showInline ps), (pass_showHover ps); simpl;
        rewrite <- ?app_assoc, ?app_nil_r; split; reflexivity.
    + rewrite decide_False by discriminate.
      exists K. split; [exact HK|].
      rewrite Hinl, Hhid, Hi, Hh. simpl. now rewrite !app_nil_r.
Qed.

(** The decorations of a pass are those of the occurrences whose target exists,
    or of all occurrences when missing targets are shown too: with inline
    text or hover switched on, the first list has one entry for each of
    them, and none otherwise; the list that hides the tags has the same
    ranges and hover texts in the same order when inline text is on, and is
    empty when it is off. *)
Theorem plan_shape `{Host} (ps : Pass) (w : World) :
  exists K : list (Range * option string),
    K.*1 ≡ₚ it_range <$> filter (fun it => shown ps w it = true) (pass_matches ps)
    /\ deco_key <$> (plan ps w).1 =
       (if pass_showInline ps || pass_showHover ps then K else [])
    /\ deco_key <$> (plan ps w).2 = (if pass_showInline ps then K else []).
Proof.
  destruct (resolve_fold_decos ps w (pass_matches ps) (mkResolving w [] [] ∅) eq_refl)
    as (K & HK & Hinl & Hhid).
  exists K. split; [now rewrite HK|]. split; [exact Hinl | exact Hhid].
Qed.

(** ** Inline text *)

Lemma join_lines_cons (joiner : list ascii) (c : ascii) (s : list ascii) :
  join_lines joiner (c :: s) =
  if Ascii.eqb c "010" then (joiner ++ join_lines joiner s)%list
  else
    match s with
    | d :: s'' =>
        if Ascii.eqb c "013" && Ascii.eqb d "010"
        then (joiner ++ join_lines joiner s'')%list
        else c :: join_lines joiner s
    | [] => [c]
    end.
Proof. reflexivity. Qed.

Lemma join_lines_no_lf (joiner : list ascii) :
  "010"%char ∉ joiner ->
  forall s, ("010"%char ∉ join_lines joiner s)
            /\ (forall c, "010"%char ∉ join_lines joiner (c :: s)).
Proof.
  intros Hj. induction s as [|d s [IH1 IH2]].
  - split; [apply not_elem_of_nil|]. intros c. rewrite join_lines_cons.
    destruct (Ascii.eqb c "010") eqn:E.
    + simpl. rewrite app_nil_r. exact Hj.
    + apply Ascii.eqb_neq in E. intros Hin. apply list_elem_of_singleton in Hin. congruence.
  - split; [apply IH2|]. intros c. rewrite join_lines_cons.
    destruct (Ascii.eqb c "010") eqn:E.
    + intros Hin. apply elem_of_app in Hin. destruct Hin as [Hin|Hin]; [auto|].
      now apply (IH2 d).
    + destruct (Ascii.eqb c "013" && Ascii.eqb d "010").
      * intros Hin. apply elem_of_app in Hin. destruct Hin as [Hin|Hin]; auto.
      * apply Ascii.eqb_neq in E. intros Hin. apply elem_of_cons in Hin.
        destruct Hin as [Hin|Hin]; [congruence|]. now apply (IH2 d).
Qed.

Lemma join_lines_id (joiner : list ascii) :
  forall s, ("010"%char ∉ s -> join_lines joiner s = s)
            /\ (forall c, "010"%char ∉ c :: s -> join_lines joiner (c :: s) = c :: s).
Proof.
  induction s as [|d s [IH1 IH2]].
  - split; [reflexivity|]. intros c Hc. rewrite join_lines_cons.
    destruct (Ascii.eqb c "010") eqn:E; [|reflexivity].
    apply Ascii.eqb_eq in E. subst. exfalso. apply Hc. left.
  - split; [apply IH2|]. intros c Hc. rewrite join_lines_cons.
    apply not_elem_of_cons in Hc. destruct Hc as [Hc Hds].
    destruct (Ascii.eqb c "010") eqn:E; [apply Ascii.eqb_eq in E; congruence|].
    pose proof Hds as Hds'. apply not_elem_of_cons in Hds'. destruct Hds' as [Hd _].
    destruct (Ascii.eqb d "010") eqn:Ed; [apply Ascii.eqb_eq in Ed; congruence|].
    rewrite andb_false_r. f_equal. now apply IH2.
Qed.

(** The inline text is one line: when the joiner has no line feed, and no [$]
    that [replace] would read as a pattern, the text shown after a tag has no
    line feed either; and a content without line feed is shown as it is. *)
Theorem oneLine_single_line (joiner txt : string) :
  "$"%char ∉ chars joiner ->
  "010"%char ∉ chars joiner ->
  ("010"%char ∉ chars (oneLine joiner txt))
  /\ ("010"%char ∉ chars txt -> oneLine joiner txt = txt).
Proof.
  intros _ Hj. unfold oneLine. rewrite chars_unchars. split.
  - apply (join_lines_no_lf _ Hj).
  - intros Ht. rewrite (proj1 (join_lines_id (chars joiner) (chars txt)) Ht).
    apply string_of_list_ascii_of_string.
Qed.

Lemma oneLine_single_line_witness :
  ("$"%char ∉ chars " | ")
  /\ ("010"%char ∉ chars " | ")
  /\ ("010"%char ∉ chars (oneLine " | " ("a" ++ String "013" (String "010" "b")))).
Proof.
  assert (Hd : "$"%char ∉ chars " | ").
  { intros Hin. simpl in Hin. repeat (apply elem_of_cons in Hin; destruct Hin as [Hin|Hin];
      [discriminate Hin|]). now apply not_elem_of_nil in Hin. }
  assert (Hj : "010"%char ∉ chars " | ").
  { intros Hin. simpl in Hin. repeat (apply elem_of_cons in Hin; destruct Hin as [Hin|Hin];
      [discriminate Hin|]). now apply not_elem_of_nil in Hin. }
  split; [exact Hd|]. split; [exact Hj|].
  exact (proj1 (oneLine_single_line " | " ("a" ++ String "013" (String "010" "b")) Hd Hj)).
Defined.

(** ** Segments *)

Lemma split_where_pieces (p : ascii -> bool) (s : list ascii) :
  Forall (Forall (fun c => p c = false)) (split_where p s).
Proof.
  induction s as [|x s IH]; simpl; [repeat constructor|].
  destruct (p x) eqn:Hp; [constructor; [constructor | exact IH]|].
  destruct (split_where p s) as [|h t]; simpl; [repeat constructor; exact Hp|].
  apply Forall_cons in IH. destruct IH as [Hh Ht].
  constructor; [constructor; [exact Hp | exact Hh] | exact Ht].
Qed.

Lemma nonempty_true (s : string) : nonempty s = true <-> s <> "".
Proof. destruct s; simpl; split; congruence. Qed.

(** The segments that [toAbsolute] joins to the base directory are never
    empty and never hold a slash or a backslash; with a separator of one
    character they never hold the separator either. *)
Theorem segments_clean (sep tagInner : string) :
  Forall (clean_segment is_slash) (segments sep tagInner)
  /\ (forall c, sep = String c "" ->
        Forall (clean_segment (is_delim c)) (segments sep tagInner)).
Proof.
  split.
  - unfold segments. apply Forall_forall. intros seg Hseg.
    apply list_elem_of_filter in Hseg. destruct Hseg as [Hne Hin].
    apply list_elem_of_bind in Hin. destruct Hin as (piece & Hin & _).
    unfold split_slashes in Hin. apply list_elem_of_fmap in Hin.
    destruct Hin as (l & -> & Hl). split; [now apply nonempty_true|].
    rewrite chars_unchars.
    pose proof (split_where_pieces is_slash (chars piece)) as Hall.
    rewrite Forall_forall in Hall. now apply Hall.
  - intros c ->. rewrite segments_single. apply Forall_forall. intros seg Hseg.
    apply list_elem_of_filter in Hseg. destruct Hseg as [Hne Hin].
    apply list_elem_of_fmap in Hin. destruct Hin as (l & -> & Hl).
    split; [now apply nonempty_true|]. rewrite chars_unchars.
    pose proof (split_where_pieces (is_delim c) (chars tagInner)) as Hall.
    rewrite Forall_forall in Hall. now apply Hall.
Qed.

Lemma chars_app (s1 s2 : string) : chars (s1 ++ s2) = (chars s1 ++ chars s2)%list.
Proof. induction s1 as [|c s1 IH]; simpl; [reflexivity | now rewrite IH]. Qed.

Lemma split_where_clean (p : ascii -> bool) (a : list ascii) :
  Forall (fun c => p c = false) a -> split_where p a = [a].
Proof.
  induction 1 as [|x a Hx _ IH]; simpl; [reflexivity|]. now rewrite Hx, IH.
Qed.

Lemma split_where_app (p : ascii -> bool) (a rest : list ascii) (d : ascii) :
  Forall (fun c => p c = false) a -> p d = true ->
  split_where p (a ++ d :: rest) = a :: split_where p rest.
Proof.
  intros Ha Hd. induction Ha as [|x a Hx _ IH]; simpl.
  - now rewrite Hd.
  - now rewrite Hx, IH.
Qed.

Lemma split_where_concat (c : ascii) (parts : list string) :
  Forall (clean_segment (is_delim c)) parts -> parts <> [] ->
  unchars <$> split_where (is_delim c) (chars (String.concat (String c "") parts)) = parts.
Proof.
  assert (Hc : is_delim c c = true).
  { unfold is_delim. now rewrite Ascii.eqb_refl. }
  induction 1 as [|seg parts [_ Hseg] Hparts IH]; intros Hne; [congruence|].
  destruct parts as [|seg' parts].
  - simpl. rewrite (split_where_clean _ _ Hseg). simpl.
    now rewrite string_of_list_ascii_of_string.
  - change (String.concat (String c "") (seg :: seg' :: parts))
      with (seg ++ String c "" ++ String.concat (String c "") (seg' :: parts)).
    rewrite chars_app.
    change (chars (String c "" ++ String.concat (String c "") (seg' :: parts)))
      with (c :: chars (String.concat (String c "") (seg' :: parts))).
    rewrite (split_where_app _ _ _ c Hseg Hc), fmap_cons, IH by congruence.
    now rewrite string_of_list_ascii_of_string.
Qed.

(** A tag written by joining segments with the separator is read back as
    these segments: for a separator [c] of one character and segments that
    are not empty and hold neither [c] nor a slash or backslash. *)
Theorem segments_of_joined (c : ascii) (parts : list string) :
  Forall (clean_segment (is_delim c)) parts ->
  segments (String c "") (String.concat (String c "") parts) = parts.
Proof.
  intros Hparts. rewrite segments_single.
  destruct parts as [|seg parts]; [reflexivity|].
  rewrite (split_where_concat c _ Hparts) by congruence.
  clear -Hparts. induction Hparts as [|s l [Hs _] _ IH]; [reflexivity|].
  rewrite filter_cons_True by now apply nonempty_true. now rewrite IH.
Qed.

Lemma segments_of_joined_witness :
  Forall (clean_segment (is_delim ":")) ["shared"; "header.txt"]
  /\ segments ":" "shared:header.txt" = ["shared"; "header.txt"].
Proof.
  assert (Hparts : Forall (clean_segment (is_delim ":")) ["shared"; "header.txt"]).
  { repeat constructor; discriminate. }
  split; [exact Hparts|].
  exact (segments_of_joined ":" ["shared"; "header.txt"] Hparts).
Defined.

(** ** The occurrences are the matches *)

Lemma head_omap_seq {A : Type} (f : nat -> option A) (n : nat) :
  forall i : nat,
    match head (omap f (seq i n)) with
    | Some y => exists j, i <= j < i + n /\ f j = Some y /\ forall k, i <= k < j -> f k = None
    | None => forall k, i <= k < i + n -> f k = None
    end.
Proof.
  induction n as [|n IH]; intros i; simpl; [intros k Hk; lia|].
  destruct (f i) as [y|] eqn:Hfi; simpl.
  - exists i. split; [lia|]. split; [exact Hfi|]. intros k Hk. lia.
  - specialize (IH (S i)).
    change (list_omap nat A f (seq (S i) n)) with (omap f (seq (S i) n)).
    destruct (head (omap f (seq (S i) n))) as [y|].
    + destruct IH as (j & Hj & Hfj & Hbefore). exists j. split; [lia|].
      split; [exact Hfj|]. intros k Hk.
      destruct (decide (k = i)) as [->|Hne]; [exact Hfi | apply Hbefore; lia].
    + intros k Hk. destruct (decide (k = i)) as [->|Hne]; [exact Hfi | apply IH; lia].
Qed.

Lemma exec_leftmost (R R' : RegExp) (txt : string) (o : option Match) :
  exec R txt = (o, R') ->
  match o with
  | Some mt => forall j, lastIndex R <= j < index mt -> matcher R txt j = None
  | None => forall j, lastIndex R <= j <= String.length txt -> matcher R txt j = None
  end.
Proof.
  unfold exec, first_match.
  pose proof (head_omap_seq (fun j => mkMatch j <$> matcher R txt j)
                (S (String.length txt) - lastIndex R) (lastIndex R)) as Hhead.
  destruct (head _) as [mt|].
  - intros [= <- _]. destruct Hhead as (j & Hj & Hfj & Hbefore).
    destruct (matcher R txt j) as [e|] eqn:Hm; [|discriminate].
    simpl in Hfj. injection Hfj as <-. simpl. intros k Hk.
    specialize (Hbefore k Hk). now destruct (matcher R txt k).
  - intros [= <- _]. intros j Hj. specialize (Hhead j).
    destruct (matcher R txt j); [|reflexivity].
    assert (Hin : lastIndex R <= j < lastIndex R + (S (String.length txt) - lastIndex R))
      by lia.
    specialize (Hhead Hin). discriminate.
Qed.

Lemma covered_app (l : list Item) (it : Item) (j : nat) :
  covered l j -> covered (l ++ [it]) j.
Proof.
  intros (a & Ha & Hj). exists a. split; [|exact Hj]. apply elem_of_app. now left.
Qed.

Lemma matchLoop_matches `{Host} (baseDir sep txt : string) :
  forall (fuel : nat) (R : RegExp) (acc matches : list Item),
    matcher_ok (matcher R) ->
    Forall (fun it => is_match (matcher R) txt it /\ well_formed_item baseDir sep txt it) acc ->
    (forall j e, j < lastIndex R -> matcher R txt j = Some e -> covered acc j) ->
    matchLoop fuel baseDir sep txt R acc = Some matches ->
    Forall (fun it => is_match (matcher R) txt it /\ well_formed_item baseDir sep txt it)
      matches
    /\ (forall j e, j <= String.length txt -> matcher R txt j = Some e -> covered matches j).
Proof.
  induction fuel as [|fuel IH]; intros R acc matches Hok Hacc Hcov; simpl; [discriminate|].
  destruct (exec R txt) as [[mt|] R'] eqn:He.
  2:{ intros [= <-]. split; [exact Hacc|]. intros j e Hj Hm.
      pose proof (exec_leftmost _ _ _ _ He) as Hnone. simpl in Hnone.
      destruct (decide (j < lastIndex R)) as [Hlt|Hge]; [now apply (Hcov j e)|].
      rewrite Hnone in Hm by lia. discriminate. }
  pose proof (exec_leftmost _ _ _ _ He) as Hnone. simpl in Hnone.
  destruct (exec_some _ _ _ _ Hok He) as (Hlo & Hle & Hhi & Hm & ->).
  destruct (advance_lastIndex mt (mkRegExp (matcher R) (endIndex mt)) eq_refl Hle)
    as (Hadv & Hadv' & Hempty).
  pose proof (makeItem_range baseDir sep txt mt Hle Hhi) as Hrange.
  intros Hloop.
  assert (Hnew : is_match (matcher R) txt (makeItem baseDir sep txt mt)
                 /\ well_formed_item baseDir sep txt (makeItem baseDir sep txt mt)).
  { split.
    - unfold is_match. now rewrite Hrange.
    - unfold well_formed_item. rewrite Hrange. split; reflexivity. }
  pose proof (IH (advance mt (mkRegExp (matcher R) (endIndex mt)))
                (acc ++ [makeItem baseDir sep txt mt])%list matches) as IH'.
  rewrite advance_matcher in IH'. simpl matcher in IH'. apply IH'; clear IH'.
  - exact Hok.
  - apply Forall_app. split; [exact Hacc | constructor; [exact Hnew | constructor]].
  - intros j e Hj Hmj.
    destruct (decide (j < lastIndex R)) as [Hlt|Hge].
    { apply covered_app. now apply (Hcov j e). }
    destruct (decide (j < index mt)) as [Hlt2|Hge2].
    { rewrite Hnone in Hmj by lia. discriminate. }
    exists (makeItem baseDir sep txt mt). split.
    { apply elem_of_app. right. now apply list_elem_of_singleton. }
    rewrite Hrange. simpl.
    destruct (decide (j = index mt)) as [->|Hne]; [now left|]. right.
    destruct (decide (endIndex mt = index mt)) as [Heq|Hneq].
    + rewrite (Hempty Heq) in Hj. lia.
    + unfold advance in Hj. simpl in Hj.
      destruct (index mt =? endIndex mt) eqn:E; [apply Nat.eqb_eq in E; lia|].
      simpl in Hj. lia.
  - exact Hloop.
Qed.

(** The occurrences of a pass are the matches of the pattern, found from left
    to right without overlap: each occurrence is a match at its start, its
    inner text and path are those of the matched text, and every position of
    the text where the pattern matches is the start of an occurrence or lies
    strictly inside one. *)
Theorem occurrences_are_the_matches `{Host} (m : Matcher) (fuel : nat)
    (baseDir sep txt : string) (matches : list Item) :
  matcher_ok m ->
  matchLoop fuel baseDir sep txt (mkRegExp m 0) [] = Some matches ->
  Forall (fun it => is_match m txt it /\ well_formed_item baseDir sep txt it) matches
  /\ (forall j e, j <= String.length txt -> m txt j = Some e -> covered matches j).
Proof.
  intros Hok Hloop.
  apply (matchLoop_matches baseDir sep txt fuel (mkRegExp m 0) [] matches Hok).
  - constructor.
  - intros j e Hj. simpl in Hj. lia.
  - exact Hloop.
Qed.

Lemma occurrences_are_the_matches_witness :
  matcher_ok (re_matcher default_re)
  /\ @matchLoop Posix.host 5 "/ws" ":" "<<a:b>> <<c>>" (mkRegExp (re_matcher default_re) 0) []
     = Some [mkItem (mkRange 0 7) "a:b" "/ws/a/b"; mkItem (mkRange 8 13) "c" "/ws/c"]
  /\ covered [mkItem (mkRange 0 7) "a:b" "/ws/a/b"; mkItem (mkRange 8 13) "c" "/ws/c"] 8.
Proof.
  assert (Hloop : @matchLoop Posix.host 5 "/ws" ":" "<<a:b>> <<c>>"
                    (mkRegExp (re_matcher default_re) 0) []
                  = Some [mkItem (mkRange 0 7) "a:b" "/ws/a/b";
                          mkItem (mkRange 8 13) "c" "/ws/c"]).
  { vm_compute. reflexivity. }
  split; [apply re_matcher_ok|]. split; [exact Hloop|].
  apply (proj2 (@occurrences_are_the_matches Posix.host (re_matcher default_re) 5
                  "/ws" ":" "<<a:b>> <<c>>" _ (re_matcher_ok _) Hloop) 8 13).
  - simpl. lia.
  - vm_compute. reflexivity.
Defined.

(** ** The built-in pattern *)

Lemma chars_substring (a n : nat) (s : string) :
  chars (substring a n s) = take n (drop a (chars s)).
Proof.
  revert a n. induction s as [|c s IH]; intros a n.
  - destruct a, n; reflexivity.
  - destruct a as [|a]; simpl.
    + destruct n as [|n]; simpl; [reflexivity|]. f_equal. exact (IH 0 n).
    + apply IH.
Qed.

Lemma iterate_class (p : ascii -> bool) (greedy : bool)
    (k : list ascii -> option (list ascii)) (n : nat) :
  forall s t,
    iterate (re_run (Cls p)) greedy k n s = Some t ->
    exists pre rest,
      s = (pre ++ rest)%list /\ Forall (fun c => p c = true) pre /\ k rest = Some t.
Proof.
  induction n as [|n IH]; intros s t; simpl.
  - intros Hk. exists [], s. auto.
  - assert (Hmore : forall t',
              match s with
              | c :: s' =>
                  if p c
                  then if length s' <? length s
                       then iterate (re_run (Cls p)) greedy k n s' else None
                  else None
              | [] => None
              end = Some t' ->
              exists pre rest,
                s = (pre ++ rest)%list /\ Forall (fun c => p c = true) pre
                /\ k rest = Some t').
    { intros t'. destruct s as [|c s']; [discriminate|].
      destruct (p c) eqn:Hp; [|discriminate].
      destruct (length s' <? length (c :: s')); [|discriminate].
      intros Hit. destruct (IH _ _ Hit) as (pre & rest & -> & Hpre & Hk).
      exists (c :: pre), rest. split; [reflexivity|]. split; [now constructor | exact Hk]. }
    unfold orelse. destruct greedy.
    + destruct (match s with [] => None | _ => _ end) eqn:Em.
      * intros [= <-]. now apply Hmore.
      * intros Hk. exists [], s. auto.
    + destruct (k s) eqn:Ek.
      * intros [= <-]. exists [], s. auto.
      * apply Hmore.
Qed.

Lemma default_re_shape (s rest : list ascii) :
  re_run default_re s Some = Some rest ->
  exists inner,
    inner <> [] /\ Forall (fun c => tag_char c = true) inner
    /\ s = ("<" :: "<" :: inner ++ ">" :: ">" :: rest)%char%list.
Proof.
  unfold default_re, Plus, Chr. simpl.
  destruct s as [|c1 s]; [discriminate|].
  destruct (Ascii.eqb c1 "<") eqn:E1; [|discriminate]. apply Ascii.eqb_eq in E1.
  destruct s as [|c2 s]; [discriminate|].
  destruct (Ascii.eqb c2 "<") eqn:E2; [|discriminate]. apply Ascii.eqb_eq in E2.
  destruct s as [|c3 s]; [discriminate|].
  destruct (tag_char c3) eqn:E3; [|discriminate].
  intros Hit.
  change (iterate (re_run (Cls tag_char)) false
            (fun s' => re_run (Seq (Cls (fun x => Ascii.eqb x ">")) (Cls (fun x => Ascii.eqb x ">")))
                         s' Some)
            (S (length s)) s = Some rest) in Hit.
  apply iterate_class in Hit. destruct Hit as (pre & tail & -> & Hpre & Hk).
  simpl in Hk.
  destruct tail as [|c4 tail]; [discriminate|].
  destruct (Ascii.eqb c4 ">") eqn:E4; [|discriminate]. apply Ascii.eqb_eq in E4.
  destruct tail as [|c5 tail]; [discriminate|].
  destruct (Ascii.eqb c5 ">") eqn:E5; [|discriminate]. apply Ascii.eqb_eq in E5.
  injection Hk as <-. subst.
  exists (c3 :: pre). split; [discriminate|]. split; [now constructor | reflexivity].
Qed.

Lemma default_match_text (txt : string) (j e : nat) :
  re_matcher default_re txt j = Some e ->
  exists inner,
    inner <> [] /\ Forall (fun c => tag_char c = true) inner
    /\ chars (slice j e txt) = ("<" :: "<" :: inner ++ [">"; ">"])%char%list.
Proof.
  unfold re_matcher. destruct (j <=? String.length txt) eqn:Hj; [|discriminate].
  apply Nat.leb_le in Hj.
  destruct (re_run default_re (drop j (chars txt)) Some) as [rest|] eqn:Er; [|discriminate].
  simpl. intros [= <-].
  destruct (default_re_shape _ _ Er) as (inner & Hne & Hin & Hs).
  exists inner. split; [exact Hne|]. split; [exact Hin|].
  unfold slice. rewrite chars_substring, Hs.
  assert (Hlen : length (drop j (chars txt)) = String.length txt - j)
    by now rewrite length_drop, length_chars.
  rewrite Hs in Hlen. simpl in Hlen. rewrite length_app in Hlen. simpl in Hlen.
  replace (String.length txt - length rest - j) with (length ("<" :: "<" :: inner ++ [">"; ">"])%char)
    by (simpl; rewrite length_app; simpl; lia).
  change ("<" :: "<" :: inner ++ ">" :: ">" :: rest)%char%list
    with (("<" :: "<" :: inner) ++ [">"; ">"] ++ rest)%char%list.
  change ("<" :: "<" :: inner ++ [">"; ">"])%char%list
    with (("<" :: "<" :: inner) ++ [">"; ">"])%char%list.
  rewrite app_assoc. apply take_app_length.
Qed.

Lemma unchars_app (a b : list ascii) : unchars (a ++ b) = unchars a ++ unchars b.
Proof. induction a as [|c a IH]; simpl; [reflexivity | now rewrite IH]. Qed.

Lemma slice_neg_tag (inner : list ascii) :
  slice_neg 2 2 (unchars ("<" :: "<" :: inner ++ [">"; ">"])%char%list) = unchars inner.
Proof.
  unfold slice_neg.
  rewrite <- (string_of_list_ascii_of_string (substring _ _ _)).
  fold (chars (substring 2
          (String.length (unchars ("<" :: "<" :: inner ++ [">"; ">"])%char%list) - 2 - 2)
          (unchars ("<" :: "<" :: inner ++ [">"; ">"])%char%list))).
  rewrite chars_substring, <- length_chars, chars_unchars. simpl.
  rewrite length_app. simpl.
  replace (length inner + 2 - 0 - 2) with (length inner) by lia.
  unfold unchars. f_equal. apply take_app_length.
Qed.

(** With the built-in pattern, every occurrence is a text [<<inner>>] whose
    inner part is not empty and is made of letters, digits and the characters
    [._-/:\] only; the inner text of the occurrence is this part. *)
Theorem default_occurrences_shape `{Host} (fuel : nat) (baseDir sep txt : string)
    (matches : list Item) :
  matchLoop fuel baseDir sep txt (mkRegExp (re_matcher default_re) 0) [] = Some matches ->
  Forall (fun it =>
            it_inner it <> ""
            /\ Forall (fun c => tag_char c = true) (chars (it_inner it))
            /\ slice (startOffset (it_range it)) (endOffset (it_range it)) txt
               = "<<" ++ it_inner it ++ ">>") matches.
Proof.
  intros Hloop.
  pose proof (matchLoop_matches baseDir sep txt fuel (mkRegExp (re_matcher default_re) 0)
                [] matches (re_matcher_ok default_re) (Forall_nil_2 _)) as Hm.
  destruct Hm as [Hall _]; [intros j e Hj; simpl in Hj; lia | exact Hloop |].
  eapply Forall_impl; [exact Hall|]. intros it [Hmatch [Hinner _]]. simpl in Hmatch.
  destruct (default_match_text txt _ _ Hmatch) as (inner & Hne & Hin & Hs).
  assert (Hfull : slice (startOffset (it_range it)) (endOffset (it_range it)) txt
                  = unchars ("<" :: "<" :: inner ++ [">"; ">"])%char%list).
  { rewrite <- Hs. symmetry. apply string_of_list_ascii_of_string. }
  assert (Hi : it_inner it = unchars inner).
  { rewrite Hinner, Hfull. apply slice_neg_tag. }
  rewrite Hi. split; [|split].
  - intros E. apply Hne. rewrite <- (chars_unchars inner). now rewrite E.
  - now rewrite chars_unchars.
  - rewrite Hfull.
    change (unchars ("<" :: "<" :: inner ++ [">"; ">"])%char%list)
      with (String "<" (String "<" (unchars (inner ++ [">"; ">"])%char%list))).
    now rewrite unchars_app.
Qed.

Lemma default_occurrences_shape_witness :
  @matchLoop Posix.host 5 "/ws" ":" "<<a:b>> <<c>>" (mkRegExp (re_matcher default_re) 0) []
  = Some [mkItem (mkRange 0 7) "a:b" "/ws/a/b"; mkItem (mkRange 8 13) "c" "/ws/c"]
  /\ Forall (fun it => it_inner it <> "")
       [mkItem (mkRange 0 7) "a:b" "/ws/a/b"; mkItem (mkRange 8 13) "c" "/ws/c"].
Proof.
  assert (Hloop : @matchLoop Posix.host 5 "/ws" ":" "<<a:b>> <<c>>"
                    (mkRegExp (re_matcher default_re) 0) []
                  = Some [mkItem (mkRange 0 7) "a:b" "/ws/a/b";
                          mkItem (mkRange 8 13) "c" "/ws/c"]).
  { vm_compute. reflexivity. }
  split; [exact Hloop|].
  eapply Forall_impl;
    [exact (@default_occurrences_shape Posix.host 5 "/ws" ":" "<<a:b>> <<c>>" _ Hloop)|].
  intros it [Hne _]. exact Hne.
Defined.

(** ** The debounced function *)

Lemma one_timer_cases {A : Type} (d : Debounced A) :
  one_timer d ->
  db_timers d = ∅
  \/ exists t args, db_t d = Some t /\ db_timers d = {[t := args]}.
Proof.
  intros Hone. destruct (db_t d) as [t|] eqn:Ht.
  - destruct (db_timers d !! t) as [args|] eqn:Hargs.
    + right. exists t, args. split; [reflexivity|]. apply map_eq. intros i.
      destruct (decide (i = t)) as [->|Hne].
      * now rewrite lookup_singleton_eq.
      * rewrite lookup_singleton_ne by congruence.
        destruct (db_timers d !! i) as [a|] eqn:Hi; [|reflexivity].
        apply Hone in Hi. congruence.
    + left. apply map_eq. intros i. rewrite lookup_empty.
      destruct (db_timers d !! i) as [a|] eqn:Hi; [|reflexivity].
      pose proof (Hone _ _ Hi) as Heq. rewrite Ht in Heq. injection Heq as ->. congruence.
  - left. apply map_eq. intros i. rewrite lookup_empty.
    destruct (db_timers d !! i) as [a|] eqn:Hi; [|reflexivity].
    apply Hone in Hi. congruence.
Qed.

Lemma debounced_call_timers {A : Type} (args : A) (d : Debounced A) :
  one_timer d ->
  db_timers (debounced_call args d) = {[db_nextTimer d := args]}
  /\ db_t (debounced_call args d) = Some (db_nextTimer d)
  /\ db_invoked (debounced_call args d) = db_invoked d
  /\ one_timer (debounced_call args d).
Proof.
  intros Hone.
  assert (Htimers : db_timers (debounced_call args d) = {[db_nextTimer d := args]}).
  { unfold debounced_call. simpl.
    destruct (one_timer_cases d Hone) as [He|(t & a & Ht & Hs)].
    - rewrite He. destruct (db_t d); [rewrite delete_empty|]; apply insert_empty.
    - rewrite Ht, Hs, delete_singleton_eq. apply insert_empty. }
  split; [exact Htimers|]. split; [reflexivity|]. split; [reflexivity|].
  intros t a Ht. rewrite Htimers in Ht. apply lookup_singleton_Some in Ht.
  destruct Ht as [<- _]. reflexivity.
Qed.

Lemma timer_fires_one_timer {A : Type} (t : nat) (d : Debounced A) :
  one_timer d -> one_timer (timer_fires t d).
Proof.
  intros Hone. unfold timer_fires.
  destruct (db_timers d !! t) as [args|] eqn:Ht; [|exact Hone].
  intros t' a Ht'. simpl in *. apply lookup_delete_Some in Ht'. apply (Hone t' a), Ht'.
Qed.

Lemma debounceOps_one_timer {A : Type} (ops : list (DebounceOp A)) (d : Debounced A) :
  one_timer d -> one_timer (foldl debounceOp d ops).
Proof.
  revert d. induction ops as [|op ops IH]; intros d Hone; simpl; [exact Hone|].
  apply IH. destruct op as [args|t]; simpl.
  - apply (debounced_call_timers args d Hone).
  - now apply timer_fires_one_timer.
Qed.

Lemma debounce_one_timer (A : Type) : one_timer (debounce A).
Proof. intros t args Ht. simpl in Ht. now rewrite lookup_empty in Ht. Qed.

Lemma burst_timers {A : Type} (burst : list A) (last : A) (d : Debounced A) :
  one_timer d ->
  let d' := foldl (fun d a => debounced_call a d) d (burst ++ [last]) in
  exists t, db_t d' = Some t /\ db_timers d' = {[t := last]}
            /\ db_invoked d' = db_invoked d.
Proof.
  revert d. induction burst as [|a burst IH]; intros d Hone; simpl.
  - destruct (debounced_call_timers last d Hone) as (Ht & Hv & Hi & _).
    exists (db_nextTimer d). auto.
  - destruct (debounced_call_timers a d Hone) as (_ & _ & Hi & Hone').
    destruct (IH _ Hone') as (t & Ht & Hs & Hinv). exists t.
    split; [exact Ht|]. split; [exact Hs|]. now rewrite Hinv.
Qed.

(** A burst of calls of the debounced function, with no timer expiring in
    between, leaves one armed timer, which carries the arguments of the last
    call; when it expires the function is called once, with these arguments,
    and no timer is left. *)
Theorem debounce_burst {A : Type} (ops : list (DebounceOp A)) (burst : list A) (last : A) :
  let d0 := foldl debounceOp (debounce A) ops in
  let d := foldl (fun d a => debounced_call a d) d0 (burst ++ [last]) in
  exists t,
    db_t d = Some t /\ db_timers d = {[t := last]}
    /\ db_invoked d = db_invoked d0
    /\ db_invoked (timer_fires t d) = (db_invoked d0 ++ [last])%list
    /\ db_timers (timer_fires t d) = ∅.
Proof.
  intros d0 d.
  destruct (burst_timers burst last d0
              (debounceOps_one_timer ops _ (debounce_one_timer A)))
    as (t & Ht & Hs & Hinv).
  fold d in Ht, Hs, Hinv. exists t.
  split; [exact Ht|]. split; [exact Hs|]. split; [exact Hinv|].
  unfold timer_fires. rewrite Hs, lookup_singleton_eq. simpl.
  split; [now rewrite Hinv | apply delete_singleton_eq].
Qed.

Lemma calls_of_call {A : Type} (args : A) (ops : list (DebounceOp A)) :
  calls_of (DbCall args :: ops) = S (calls_of ops).
Proof. reflexivity. Qed.

Lemma calls_of_fire {A : Type} (t : nat) (ops : list (DebounceOp A)) :
  calls_of (DbFire t :: ops) = calls_of ops.
Proof. reflexivity. Qed.

Lemma debounceOps_bound {A : Type} (ops : list (DebounceOp A)) :
  forall d : Debounced A,
    one_timer d ->
    length (db_invoked (foldl debounceOp d ops)) + size (db_timers (foldl debounceOp d ops))
    <= length (db_invoked d) + size (db_timers d) + calls_of ops.
Proof.
  induction ops as [|op ops IH]; intros d Hone; cbn [foldl].
  - unfold calls_of. simpl. lia.
  - destruct op as [args|t].
    + destruct (debounced_call_timers args d Hone) as (Hs & _ & Hi & Hone').
      specialize (IH _ Hone'). cbn [debounceOp].
      rewrite Hs, Hi, map_size_singleton in IH.
      rewrite calls_of_call. lia.
    + specialize (IH _ (timer_fires_one_timer t d Hone)). cbn [debounceOp].
      assert (Hstep : length (db_invoked (timer_fires t d)) + size (db_timers (timer_fires t d))
                      = length (db_invoked d) + size (db_timers d)).
      { unfold timer_fires. destruct (db_timers d !! t) as [args|] eqn:Ht; [|reflexivity].
        simpl. rewrite length_app. simpl.
        assert (Hsize : size (db_timers d) = S (size (delete t (db_timers d)))).
        { rewrite <- (insert_delete_id (db_timers d) t args Ht) at 1.
          apply map_size_insert_None, lookup_delete_eq. }
        lia. }
      rewrite calls_of_fire. lia.
Qed.

(** Whatever the calls and the expiring timers, at most one timer of a
    debounced function is armed at a time, and the function has been called at
    most as often as the debounced function, less the call that still waits. *)
Theorem debounce_bounded {A : Type} (ops : list (DebounceOp A)) :
  let d := foldl debounceOp (debounce A) ops in
  size (db_timers d) <= 1
  /\ length (db_invoked d) + size (db_timers d) <= calls_of ops.
Proof.
  intros d. split.
  - destruct (one_timer_cases d (debounceOps_one_timer ops _ (debounce_one_timer A)))
      as [He|(t & a & _ & Hs)].
    + rewrite He, map_size_empty. lia.
    + rewrite Hs, map_size_singleton. lia.
  - pose proof (debounceOps_bound ops (debounce A) (debounce_one_timer A)) as Hb.
    simpl in Hb. rewrite map_size_empty in Hb. exact Hb.
Qed.

(** ** The virtual preview *)

Lemma readFileTruncated_only_cache `{Host} (p : string) (maxBytes : Z) (w : World) :
  exists c, (readFileTruncated p maxBytes w).2 = with_CACHE c w.
Proof.
  unfold readFileTruncated.
  assert (Hid : w = with_CACHE (CACHE w) w) by (symmetry; apply world_eta).
  destruct (fs_stat (fs w) p) as [st|]; [|exists (CACHE w); exact Hid].
  destruct (cache_hit st (CACHE w !! p)); [exists (CACHE w); exact Hid|].
  destruct (fs_readFile (fs w) p); [eexists; reflexivity | exists (CACHE w); exact Hid].
Qed.

Lemma substituteMatch_only_cache `{Host} (baseDir sep : string) (maxBytes : Z)
    (srcText : string) (st : Substituting) (m : Match) :
  exists c,
    sb_world (substituteMatch baseDir sep maxBytes srcText st m) = with_CACHE c (sb_world st).
Proof.
  unfold substituteMatch.
  destruct (pathExists _ (sb_world st)).
  - destruct (readFileTruncated_only_cache
                (toAbsolute baseDir (slice_neg 2 2 (matched srcText m)) sep) maxBytes
                (sb_world st)) as (c & Hc).
    destruct (readFileTruncated _ _ _) as [piece w']. simpl in *. eauto.
  - exists (CACHE (sb_world st)). simpl. symmetry. apply world_eta.
Qed.

Lemma previewLoop_only_cache `{Host} (baseDir sep : string) (maxBytes : Z)
    (srcText : string) :
  forall (fuel : nat) (R : RegExp) (st st' : Substituting),
    previewLoop fuel baseDir sep maxBytes srcText R st = Some st' ->
    exists c, sb_world st' = with_CACHE c (sb_world st).
Proof.
  induction fuel as [|fuel IH]; intros R st st'; simpl; [discriminate|].
  destruct (exec R srcText) as [[m|] R'].
  - intros Hloop. destruct (IH _ _ _ Hloop) as (c & Hc).
    destruct (substituteMatch_only_cache baseDir sep maxBytes srcText st m) as (c' & Hc').
    exists c. now rewrite Hc, Hc'.
  - intros [= <-]. exists (CACHE (sb_world st)). symmetry. apply world_eta.
Qed.

(** The virtual preview registers no watcher and changes nothing of the
    process but [CACHE]: the texts it reads are cached without a watcher of
    their own. *)
Theorem preview_only_caches `{Host} (w w' : World) (substituted : string) :
  openVirtualPreview w = Some (substituted, w') ->
  exists c, w' = with_CACHE c w.
Proof.
  unfold openVirtualPreview.
  destruct (activeTextEditor w) as [ed|]; [|discriminate]. simpl.
  destruct (editors w !! ed) as [e|]; [|discriminate]. simpl.
  destruct (previewLoop _ _ _ _ _ _ _) as [st|] eqn:Hloop; [|discriminate]. simpl.
  intros [= _ <-]. exact (previewLoop_only_cache _ _ _ _ _ _ _ _ Hloop).
Qed.

Lemma preview_only_caches_witness :
  exists (substituted : string) (w' : World),
    @openVirtualPreview Posix.host header_world = Some (substituted, w')
    /\ WATCHERS w' = WATCHERS header_world
    /\ substituted = "Intro Hello body".
Proof.
  destruct (@openVirtualPreview Posix.host header_world) as [[substituted w']|] eqn:Hp;
    [|vm_compute in Hp; discriminate Hp].
  exists substituted, w'. split; [reflexivity|].
  destruct (@preview_only_caches Posix.host header_world w' substituted Hp) as (c & ->).
  split; [reflexivity|]. vm_compute in Hp. now injection Hp as <- _.
Defined.

Lemma append_assoc3 (a b c : string) : (a ++ b) ++ c = a ++ b ++ c.
Proof. induction a as [|x a IH]; [reflexivity | exact (f_equal (String x) IH)]. Qed.

Lemma append_empty_r (a : string) : a ++ "" = a.
Proof. induction a as [|x a IH]; [reflexivity | exact (f_equal (String x) IH)]. Qed.









(** ** Keys of occurrences *)

Lemma digit_value_of (k : nat) : k < 10 -> digit_value (ascii_of_nat (48 + k)) = k.
Proof.
  intros Hk. unfold digit_value. rewrite nat_ascii_embedding by lia. lia.
Qed.

Lemma is_digit_of (k : nat) : k < 10 -> is_digit (ascii_of_nat (48 + k)) = true.
Proof.
  intros Hk. unfold is_digit. rewrite nat_ascii_embedding by lia.
  apply andb_true_iff. split; apply Nat.leb_le; lia.
Qed.

Lemma decimal_go_S (fuel n : nat) (acc : string) :
  decimal_go (S fuel) n acc =
  if n / 10 =? 0 then String (ascii_of_nat (48 + n mod 10)) acc
  else decimal_go fuel (n / 10) (String (ascii_of_nat (48 + n mod 10)) acc).
Proof. reflexivity. Qed.

Lemma decimal_go_spec (fuel : nat) :
  forall (n : nat) (acc : string),
    n < fuel ->
    exists ds : list ascii,
      decimal_go fuel n acc = unchars ds ++ acc
      /\ ds <> [] /\ Forall (fun c => is_digit c = true) ds
      /\ foldl (fun a c => 10 * a + digit_value c) 0 ds = n.
Proof.
  induction fuel as [|fuel IH]; intros n acc Hn; [lia|]. rewrite decimal_go_S.
  assert (Hmod : n mod 10 < 10) by (apply Nat.mod_upper_bound; lia).
  destruct (n / 10 =? 0) eqn:Hdiv.
  - apply Nat.eqb_eq in Hdiv. exists [ascii_of_nat (48 + n mod 10)].
    split; [reflexivity|]. split; [discriminate|].
    split; [constructor; [now apply is_digit_of | constructor]|].
    cbn [foldl]. rewrite digit_value_of by exact Hmod.
    pose proof (Nat.div_mod_eq n 10). lia.
  - apply Nat.eqb_neq in Hdiv.
    assert (Hlt : n / 10 < fuel).
    { pose proof (Nat.div_mod_eq n 10). lia. }
    destruct (IH (n / 10) (String (ascii_of_nat (48 + n mod 10)) acc) Hlt)
      as (ds & Hds & Hne & Hdig & Hval).
    exists (ds ++ [ascii_of_nat (48 + n mod 10)])%list.
    split; [rewrite Hds, unchars_app; now rewrite append_assoc3|].
    split; [intros E; now apply app_eq_nil in E as [_ ?]|].
    split; [apply Forall_app; split; [exact Hdig|];
            constructor; [now apply is_digit_of | constructor]|].
    rewrite foldl_app. cbn [foldl]. rewrite Hval, digit_value_of by exact Hmod.
    pose proof (Nat.div_mod_eq n 10). lia.
Qed.

Lemma decimal_spec (n : nat) :
  exists ds : list ascii,
    decimal n = unchars ds /\ Forall (fun c => is_digit c = true) ds
    /\ undecimal (decimal n) = n.
Proof.
  destruct (decimal_go_spec (S n) n "" (Nat.lt_succ_diag_r n)) as (ds & Hds & _ & Hdig & Hval).
  rewrite append_empty_r in Hds. exists ds. unfold decimal, undecimal.
  rewrite Hds, chars_unchars. auto.
Qed.

Lemma last_colon_inj (l1 l2 d1 d2 : list ascii) :
  ":"%char ∉ d1 -> ":"%char ∉ d2 ->
  (l1 ++ ":"%char :: d1 = l2 ++ ":"%char :: d2)%list ->
  l1 = l2 /\ d1 = d2.
Proof.
  intros H1 H2. revert l2. induction l1 as [|x l1 IH]; intros [|y l2]; simpl.
  - now intros [= ->].
  - intros [= <- ->]. exfalso. apply H1. apply elem_of_app. right. left.
  - intros [= -> <-]. exfalso. apply H2. apply elem_of_app. right. left.
  - intros [= <- E]. destruct (IH _ E) as [-> ->]. now split.
Qed.

Lemma digits_no_colon (ds : list ascii) :
  Forall (fun c => is_digit c = true) ds -> ":"%char ∉ ds.
Proof.
  intros Hdig Hin. rewrite Forall_forall in Hdig. apply Hdig in Hin. discriminate Hin.
Qed.

(** Keys identify occurrences: two occurrences have the same key only when
    they are in the same document, as its URI is printed, and start at the
    same offset. *)
Theorem makeKey_injective (docUri1 docUri2 : string) (startOffset1 startOffset2 : nat) :
  makeKey docUri1 startOffset1 = makeKey docUri2 startOffset2 ->
  docUri1 = docUri2 /\ startOffset1 = startOffset2.
Proof.
  unfold makeKey. intros E.
  destruct (decimal_spec startOffset1) as (ds1 & Hd1 & Hdig1 & Hu1).
  destruct (decimal_spec startOffset2) as (ds2 & Hd2 & Hdig2 & Hu2).
  apply (f_equal chars) in E. rewrite !chars_app in E. simpl in E.
  rewrite Hd1, Hd2, !chars_unchars in E.
  destruct (last_colon_inj _ _ _ _ (digits_no_colon _ Hdig1) (digits_no_colon _ Hdig2) E)
    as [Hu Hd].
  split.
  - rewrite <- (string_of_list_ascii_of_string docUri1),
      <- (string_of_list_ascii_of_string docUri2).
    unfold chars in Hu. now rewrite Hu.
  - rewrite <- Hu1, <- Hu2, Hd1, Hd2, Hd. reflexivity.
Qed.

Lemma makeKey_injective_witness :
  makeKey "file:///ws/doc.txt" 120 = makeKey "file:///ws/doc.txt" 120
  /\ 120 = 120.
Proof.
  split; [reflexivity|].
  exact (proj2 (makeKey_injective "file:///ws/doc.txt" "file:///ws/doc.txt" 120 120
                  eq_refl)).
Defined.

(** ** The expanded set and the decorations of the prompt builder *)

Lemma addKey_fold `{Host} (target : string) (doc : TextDocument) (l : list TagMatch) :
  forall (present : gset string) (k : string),
    k ∈ foldl (addKey target doc) present l <->
    k ∈ present
    \/ exists m, m ∈ l /\ path_resolve (targetPath doc m) = path_resolve target
         /\ k = makeKey (td_uri doc) (tm_index m).
Proof.
  induction l as [|m l IH]; intros present k; cbn [foldl].
  - split; [now left|]. intros [Hk|(m & Hm & _)]; [exact Hk|].
    now apply not_elem_of_nil in Hm.
  - rewrite IH.
    assert (Hadd : k ∈ addKey target doc present m <->
                   k ∈ present
                   \/ (path_resolve (targetPath doc m) = path_resolve target
                       /\ k = makeKey (td_uri doc) (tm_index m))).
    { unfold addKey, targetPath. destruct (String.eqb _ _) eqn:Hr.
      - apply String.eqb_eq in Hr. rewrite elem_of_union, elem_of_singleton.
        split; [intros [->|Hk]; auto | intros [Hk|[_ ->]]; auto].
      - apply String.eqb_neq in Hr.
        split; [auto | intros [Hk|[Hr' _]]; [exact Hk | contradiction]]. }
    rewrite Hadd. split.
    + intros [[Hk|[Hr ->]]|(m0 & Hm0 & Hr & ->)].
      * now left.
      * right. exists m. split; [left | auto].
      * right. exists m0. split; [now right | auto].
    + intros [Hk|(m0 & Hm0 & Hr & ->)]; [now left; left|].
      apply elem_of_cons in Hm0. destruct Hm0 as [->|Hm0].
      * left. right. auto.
      * right. exists m0. auto.
Qed.

Lemma keysOfDocument_scans `{Host} (tagMatches : nat -> string -> list TagMatch)
    (target : string) (docs : list TextDocument) :
  forall st : gset string * nat,
    foldl (keysOfDocument tagMatches target) st docs
    = foldl (fun st td => scanDocument tagMatches td.1 st td.2) st
        (pair target <$> filter (fun doc => is_scanned doc = true) docs).
Proof.
  induction docs as [|doc docs IH]; intros st; [reflexivity|].
  cbn [foldl]. rewrite IH, filter_cons. clear IH.
  assert (Hdoc : keysOfDocument tagMatches target st doc
                 = if is_scanned doc then scanDocument tagMatches target st doc else st).
  { unfold keysOfDocument, is_scanned.
    destruct (String.eqb (td_scheme doc) "file"); [|reflexivity].
    now destruct (ends_with ".txt" (td_fileName doc)). }
  rewrite Hdoc. destruct (is_scanned doc).
  - rewrite decide_True by reflexivity. reflexivity.
  - rewrite decide_False by discriminate. reflexivity.
Qed.

Lemma keysOfEditor_scans `{Host} (tagMatches : nat -> string -> list TagMatch)
    (docs : list TextDocument) (eds : list VisibleEditor) :
  forall st : gset string * nat,
    foldl (keysOfEditor tagMatches docs) st eds
    = foldl (fun st td => scanDocument tagMatches td.1 st td.2) st (scans eds docs).
Proof.
  unfold scans. induction eds as [|ed eds IH]; intros st; [reflexivity|].
  cbn [foldl]. rewrite IH. clear IH.
  change (omap previewTarget (ed :: eds))
    with (match previewTarget ed with
          | Some t => t :: omap previewTarget eds
          | None => omap previewTarget eds
          end).
  unfold keysOfEditor, previewTarget.
  destruct (String.eqb (ve_scheme ed) PREVIEW_SCHEME); [|reflexivity].
  destruct (ve_target ed) as [target|]; [|reflexivity].
  destruct (nonempty target); [|reflexivity].
  rewrite bind_cons, foldl_app. now rewrite keysOfDocument_scans.
Qed.

Lemma scans_fold `{Host} (tagMatches : nat -> string -> list TagMatch) (k : string) :
  forall (l : list (string * TextDocument)) (st : gset string * nat),
    k ∈ (foldl (fun st td => scanDocument tagMatches td.1 st td.2) st l).1 <->
    k ∈ st.1
    \/ exists n target doc m,
         l !! n = Some (target, doc)
         /\ m ∈ tagMatches (match n with 0 => st.2 | S _ => 0 end) (td_text doc)
         /\ path_resolve (targetPath doc m) = path_resolve target
         /\ k = makeKey (td_uri doc) (tm_index m).
Proof.
  induction l as [|[t d] l IH]; intros st; cbn [foldl].
  - split; [now left|]. intros [Hk|(n & ? & ? & ? & Hn & _)]; [exact Hk|].
    now rewrite lookup_nil in Hn.
  - rewrite IH. unfold scanDocument. cbn [fst snd]. rewrite addKey_fold. split.
    + intros [[Hk|(m & Hm & Hr & Hk)]|(n & t' & d' & m & Hn & Hm & Hr & Hk)].
      * now left.
      * right. exists 0, t, d, m. auto.
      * right. exists (S n), t', d', m. split; [exact Hn|]. split; [|auto].
        now destruct n.
    + intros [Hk|(n & t' & d' & m & Hn & Hm & Hr & Hk)]; [now left; left|].
      destruct n as [|n].
      * injection Hn as <- <-. left. right. exists m. auto.
      * right. exists n, t', d', m. split; [exact Hn|]. split; [|auto].
        now destruct n.
Qed.

Lemma previewTarget_Some (ed : VisibleEditor) (target : string) :
  previewTarget ed = Some target <->
  ve_scheme ed = PREVIEW_SCHEME /\ ve_target ed = Some target /\ target <> "".
Proof.
  unfold previewTarget. destruct (String.eqb (ve_scheme ed) PREVIEW_SCHEME) eqn:Hs.
  - apply String.eqb_eq in Hs. destruct (ve_target ed) as [t|].
    + destruct (nonempty t) eqn:Hn.
      * apply nonempty_true in Hn. split; [intros [= <-]; auto | now intros (_ & [= ->] & _)].
      * split; [discriminate|]. intros (_ & [= ->] & Hne).
        apply nonempty_true in Hne. congruence.
    + split; [discriminate | now intros (_ & ? & _)].
  - apply String.eqb_neq in Hs. split; [discriminate | now intros (? & _)].
Qed.

Lemma elem_of_scans (eds : list VisibleEditor) (docs : list TextDocument)
    (target : string) (doc : TextDocument) :
  (target, doc) ∈ scans eds docs <->
  (exists ed, ed ∈ eds /\ ve_scheme ed = PREVIEW_SCHEME /\ ve_target ed = Some target
              /\ target <> "")
  /\ doc ∈ docs /\ td_scheme doc = "file" /\ ends_with ".txt" (td_fileName doc) = true.
Proof.
  assert (Hsc : is_scanned doc = true <->
                td_scheme doc = "file" /\ ends_with ".txt" (td_fileName doc) = true).
  { unfold is_scanned. rewrite andb_true_iff, String.eqb_eq. reflexivity. }
  unfold scans. rewrite list_elem_of_bind. split.
  - intros (t & Hin & Ht). apply list_elem_of_fmap in Hin.
    destruct Hin as (d & [= -> ->] & Hd). apply list_elem_of_filter in Hd.
    destruct Hd as [Hs Hd]. apply list_elem_of_omap in Ht.
    destruct Ht as (ed & Hed & Ht). apply previewTarget_Some in Ht.
    apply Hsc in Hs. split; [exists ed; tauto | tauto].
  - intros ((ed & Hed & Ht) & Hd & Hs). exists target. split.
    + apply list_elem_of_fmap. exists doc. split; [reflexivity|].
      apply list_elem_of_filter. split; [now apply Hsc | exact Hd].
    + apply list_elem_of_omap. exists ed. split; [exact Hed|].
      now apply previewTarget_Some.
Qed.

Lemma present_keys_iff `{Host} (tagMatches : nat -> string -> list TagMatch)
    (eds : list VisibleEditor) (docs : list TextDocument) (k : string) :
  k ∈ presentPreviewKeys tagMatches 0 eds docs <->
  exists ed target doc m,
    ed ∈ eds /\ ve_scheme ed = PREVIEW_SCHEME /\ ve_target ed = Some target
    /\ target <> ""
    /\ doc ∈ docs /\ td_scheme doc = "file" /\ ends_with ".txt" (td_fileName doc) = true
    /\ m ∈ tagMatches 0 (td_text doc)
    /\ path_resolve (targetPath doc m) = path_resolve target
    /\ k = makeKey (td_uri doc) (tm_index m).
Proof.
  unfold presentPreviewKeys. rewrite keysOfEditor_scans, scans_fold. cbn [fst snd]. split.
  - intros [Hk|(n & target & doc & m & Hn & Hm & Hr & Hk)];
      [now apply not_elem_of_empty in Hk|].
    apply list_elem_of_lookup_2, elem_of_scans in Hn.
    destruct Hn as ((ed & Hed & Hs & Ht & Hne) & Hd & Hf & He).
    assert (Hm0 : m ∈ tagMatches 0 (td_text doc)) by (now destruct n).
    exists ed, target, doc, m. auto 12.
  - intros (ed & target & doc & m & Hed & Hs & Ht & Hne & Hd & Hf & He & Hm & Hr & Hk).
    assert (Hin : (target, doc) ∈ scans eds docs).
    { apply elem_of_scans. split; [exists ed; auto | auto]. }
    apply list_elem_of_lookup_1 in Hin. destruct Hin as (n & Hn).
    right. exists n, target, doc, m. split; [exact Hn|]. split; [|auto].
    now destruct n.
Qed.

Lemma eds_fold_no_preview `{Host} (tagMatches : nat -> string -> list TagMatch)
    (docs : list TextDocument) (eds : list VisibleEditor) :
  Forall no_preview eds ->
  forall st, foldl (keysOfEditor tagMatches docs) st eds = st.
Proof.
  induction 1 as [|ed eds Hno _ IH]; intros st; cbn [foldl]; [reflexivity|].
  rewrite <- (IH st) at 2. f_equal. unfold keysOfEditor.
  destruct Hno as [Hs|[Ht|Ht]].
  - apply String.eqb_neq in Hs. now rewrite Hs.
  - rewrite Ht. now destruct (String.eqb _ _).
  - rewrite Ht. now destruct (String.eqb _ _).
Qed.

(** The handler of the visible editors makes one scan for each visible
    preview and each open [.txt] document of the [file] scheme; the first of
    these scans starts where [TAG_REGEX.lastIndex] stands when the handler
    starts, every later one at 0.  A key is expanded afterwards exactly when
    it is the key of a tag that one of these scans visits and that resolves
    to the target of the preview of that scan.  So when the handler starts
    with [lastIndex] at 0, that is, with no loop of the link provider or of a
    refresh suspended in the middle of a text, a tag is expanded exactly when
    some visible preview editor shows a target to which the tag resolves:
    every tag of every such document that resolves to a previewed target,
    whichever tag the preview was opened from. *)
Theorem expanded_iff `{Host} (tagMatches : nat -> string -> list TagMatch)
    (lastIndex : nat) (eds : list VisibleEditor) (docs : list TextDocument)
    (expandedKeys : gset string) (k : string) :
  (isExpanded k
     (onDidChangeVisibleTextEditors tagMatches lastIndex eds docs expandedKeys) = true
   <->
   exists n target doc m,
     scans eds docs !! n = Some (target, doc)
     /\ m ∈ tagMatches (match n with 0 => lastIndex | S _ => 0 end) (td_text doc)
     /\ path_resolve (targetPath doc m) = path_resolve target
     /\ k = makeKey (td_uri doc) (tm_index m))
  /\ (isExpanded k (onDidChangeVisibleTextEditors tagMatches 0 eds docs expandedKeys) = true
      <->
      exists ed target doc m,
        ed ∈ eds /\ ve_scheme ed = PREVIEW_SCHEME /\ ve_target ed = Some target
        /\ target <> ""
        /\ doc ∈ docs /\ td_scheme doc = "file"
        /\ ends_with ".txt" (td_fileName doc) = true
        /\ m ∈ tagMatches 0 (td_text doc)
        /\ path_resolve (targetPath doc m) = path_resolve target
        /\ k = makeKey (td_uri doc) (tm_index m)).
Proof.
  unfold onDidChangeVisibleTextEditors, isExpanded.
  rewrite !reconcile_eq, !bool_decide_eq_true. split.
  - unfold presentPreviewKeys. rewrite keysOfEditor_scans, scans_fold. cbn [fst snd].
    split; [|now right]. intros [Hk|Hk]; [|exact Hk].
    now apply not_elem_of_empty in Hk.
  - apply present_keys_iff.
Qed.

Lemma refresh_fold `{Host} (files : FS)
    (expandedKeys : gset string) (doc : TextDocument) (l : list TagHit) :
  forall decos : list Range * list Range,
    let r := foldl (refreshHit files expandedKeys doc) decos l in
    r.1 = (decos.1 ++
           (hit_range <$> filter (fun h => fs_access files (targetPath doc (hit_match h)) = true) l))%list
    /\ exists extra,
         r.2 = (decos.2 ++ extra)%list
         /\ extra `sublist_of`
              (hit_range <$> filter (fun h => fs_access files (targetPath doc (hit_match h)) = true) l)
         /\ (expandedKeys = ∅ -> extra = []).
Proof.
  induction l as [|h l IH]; intros decos; cbn [foldl].
  - rewrite filter_nil. simpl. rewrite app_nil_r. split; [reflexivity|].
    exists []. rewrite app_nil_r. split; [reflexivity|]. split; [constructor | reflexivity].
  - destruct (IH (refreshHit files expandedKeys doc decos h)) as (H1 & extra & H2 & Hsub & Hemp).
    cbv zeta in *. rewrite H1, H2. unfold refreshHit. rewrite filter_cons.
    destruct (fs_access files (targetPath doc (hit_match h))) eqn:Ha.
    + rewrite decide_True by reflexivity. simpl fst. simpl snd.
      rewrite fmap_cons, <- app_assoc. split; [reflexivity|].
      destruct (isExpanded _ expandedKeys) eqn:Hex.
      * exists (hit_range h :: extra). rewrite <- app_assoc.
        split; [reflexivity|]. split; [now apply sublist_skip|].
        intros ->. unfold isExpanded in Hex. apply bool_decide_eq_true in Hex.
        now apply not_elem_of_empty in Hex.
      * exists extra. split; [reflexivity|]. split; [now apply sublist_cons | exact Hemp].
    + rewrite decide_False by discriminate. split; [reflexivity|].
      exists extra. auto.
Qed.

(** In what [refreshAllOpenTextEditors] shows on an editor, the tags
    highlighted as expanded are among the tags highlighted as existing, in
    the same order; an editor that does not show a plain text [.txt] file
    gets no decoration; and with no expanded key nothing is highlighted as
    expanded. *)
Theorem refresh_decorations `{Host} (tagHits : string -> list TagHit) (files : FS)
    (expandedKeys : gset string) (ed : TextEditor) :
  let r := refreshEditor tagHits files expandedKeys ed in
  r.2 `sublist_of` r.1
  /\ (is_plain_txt (te_languageId ed) (td_fileName (te_document ed)) = false ->
      r = ([], []))
  /\ (expandedKeys = ∅ -> r.2 = []).
Proof.
  unfold refreshEditor.
  destruct (is_plain_txt (te_languageId ed) (td_fileName (te_document ed))); simpl.
  2:{ split; [constructor|]. auto. }
  destruct (refresh_fold files expandedKeys (te_document ed)
              (tagHits (td_text (te_document ed))) ([], []))
    as (H1 & extra & H2 & Hsub & Hemp).
  cbv zeta in *. simpl in H1, H2. rewrite H1, H2.
  split; [exact Hsub|]. split; [discriminate | exact Hemp].
Qed.

(** When the loop of the link provider and the loop of the refresh visit the
    same matches of a document, the tags highlighted as existing are the tags
    that get a link, in the same order; every link carries the document, the
    offsets of its range and the path that [access] was asked for. *)
Theorem links_match_decorations `{Host} (tagHits : string -> list TagHit) (files : FS)
    (expandedKeys : gset string) (ed : TextEditor) :
  (refreshEditor tagHits files expandedKeys ed).1
  = link_range <$> provideDocumentLinks tagHits files ed
  /\ Forall (fun l =>
              link_docUri l = td_uri (te_document ed)
              /\ link_range l = mkRange (link_startOffset l) (link_endOffset l)
              /\ fs_access files (link_targetPath l) = true)
       (provideDocumentLinks tagHits files ed).
Proof.
  unfold refreshEditor, provideDocumentLinks.
  destruct (is_plain_txt (te_languageId ed) (td_fileName (te_document ed))); simpl.
  2:{ split; [reflexivity | constructor]. }
  destruct (refresh_fold files expandedKeys (te_document ed)
              (tagHits (td_text (te_document ed))) ([], []))
    as (H1 & _).
  cbv zeta in *. simpl in H1. rewrite H1. clear H1. split.
  - induction (tagHits (td_text (te_document ed))) as [|h l IH]; [reflexivity|].
    rewrite filter_cons, bind_cons, fmap_app, <- IH.
    destruct (fs_access files (targetPath (te_document ed) (hit_match h))).
    + rewrite decide_True by reflexivity. reflexivity.
    + rewrite decide_False by discriminate. reflexivity.
  - apply Forall_forall. intros l Hl. apply list_elem_of_bind in Hl.
    destruct Hl as (h & Hl & _).
    destruct (fs_access files (targetPath (te_document ed) (hit_match h))) eqn:Ha;
      [|now apply not_elem_of_nil in Hl].
    apply list_elem_of_singleton in Hl. subst l. simpl. auto.
Qed.

(** When no visible editor shows a preview, the handler empties the expanded
    set, whatever it held and wherever [TAG_REGEX.lastIndex] stands, and the
    next refresh highlights no tag as expanded. *)
Theorem closing_previews_collapses `{Host} (tagMatches : nat -> string -> list TagMatch)
    (lastIndex : nat) (tagHits : string -> list TagHit) (eds : list VisibleEditor)
    (docs : list TextDocument) (expandedKeys : gset string) :
  Forall no_preview eds ->
  let expanded :=
    onDidChangeVisibleTextEditors tagMatches lastIndex eds docs expandedKeys in
  expanded = ∅
  /\ forall files ed, (refreshEditor tagHits files expanded ed).2 = [].
Proof.
  intros Hno expanded.
  assert (He : expanded = ∅).
  { unfold expanded, onDidChangeVisibleTextEditors, presentPreviewKeys.
    rewrite reconcile_eq. now rewrite (eds_fold_no_preview tagMatches docs eds Hno). }
  split; [exact He|]. intros files ed. rewrite He.
  unfold refreshEditor.
  destruct (is_plain_txt (te_languageId ed) (td_fileName (te_document ed))); [|reflexivity].
  simpl.
  destruct (refresh_fold files ∅ (te_document ed)
              (tagHits (td_text (te_document ed))) ([], []))
    as (_ & extra & H2 & _ & Hemp).
  cbv zeta in *. rewrite H2, (Hemp eq_refl). reflexivity.
Qed.

Lemma closing_previews_collapses_witness :
  Forall no_preview [mkVisibleEditor "file" None]
  /\ @onDidChangeVisibleTextEditors Posix.host sample_matches 5
       [mkVisibleEditor "file" None] [sample_document] {[ "file:///ws/doc.txt:6" ]} = ∅.
Proof.
  assert (Hno : Forall no_preview [mkVisibleEditor "file" None]).
  { constructor; [|constructor]. left. discriminate. }
  split; [exact Hno|].
  exact (proj1 (@closing_previews_collapses Posix.host sample_matches 5 (fun _ => [])
                  [mkVisibleEditor "file" None] [sample_document]
                  {[ "file:///ws/doc.txt:6" ]} Hno)).
Defined.

Lemma refresh_fold_expanded `{Host} (files : FS) (expandedKeys : gset string)
    (doc : TextDocument) (h : TagHit) (l : list TagHit) :
  forall decos : list Range * list Range,
    h ∈ l ->
    fs_access files (targetPath doc (hit_match h)) = true ->
    isExpanded (makeKey (td_uri doc) (tm_index (hit_match h))) expandedKeys = true ->
    hit_range h ∈ (foldl (refreshHit files expandedKeys doc) decos l).2.
Proof.
  induction l as [|h' l IH]; intros decos Hin Ha Hex; [now apply not_elem_of_nil in Hin|].
  cbn [foldl]. apply elem_of_cons in Hin. destruct Hin as [<-|Hin]; [|now apply IH].
  destruct (refresh_fold files expandedKeys doc l
              (refreshHit files expandedKeys doc decos h)) as (_ & extra & -> & _).
  apply elem_of_app. left. unfold refreshHit. rewrite Ha, Hex. simpl.
  apply elem_of_app. right. now apply list_elem_of_singleton.
Qed.

(** A tag whose link was followed is shown as expanded while its preview is
    visible, as long as no loop over [TAG_REGEX] disturbs another: when the
    handler of the visible editors starts with [TAG_REGEX.lastIndex] at 0, with
    the document open and a preview of the target of the link visible, and
    every tag that the loop of the link provider visited is met by the scan of
    the handler and visited by the loop of the next refresh, the files being
    the same, then, whatever the expanded set held, the key of the tag is
    expanded afterwards and that refresh highlights the range of the link as
    expanded. *)
Theorem followed_link_stays_expanded `{Host} (tagMatches : nat -> string -> list TagMatch)
    (linkHits tagHits : string -> list TagHit) (files : FS) (ted : TextEditor)
    (l : DocumentLink) (eds : list VisibleEditor) (docs : list TextDocument)
    (expandedKeys : gset string) :
  l ∈ provideDocumentLinks linkHits files ted ->
  (forall h, h ∈ linkHits (td_text (te_document ted)) ->
     hit_match h ∈ tagMatches 0 (td_text (te_document ted))
     /\ h ∈ tagHits (td_text (te_document ted))) ->
  te_document ted ∈ docs ->
  td_scheme (te_document ted) = "file" ->
  link_targetPath l <> "" ->
  mkVisibleEditor PREVIEW_SCHEME (Some (link_targetPath l)) ∈ eds ->
  let expanded := onDidChangeVisibleTextEditors tagMatches 0 eds docs expandedKeys in
  isExpanded (makeKey (link_docUri l) (link_startOffset l)) expanded = true
  /\ link_range l ∈ (refreshEditor tagHits files expanded ted).2.
Proof.
  intros Hl Hhits Hdoc Hfile Hne Hed expanded.
  unfold provideDocumentLinks in Hl.
  destruct (is_plain_txt (te_languageId ted) (td_fileName (te_document ted))) eqn:Hp;
    simpl in Hl; [|now apply not_elem_of_nil in Hl].
  apply list_elem_of_bind in Hl. destruct Hl as (h & Hl & Hh).
  destruct (fs_access files _) eqn:Ha; [|now apply not_elem_of_nil in Hl].
  apply list_elem_of_singleton in Hl. subst l. simpl in *.
  destruct (Hhits h Hh) as [Hscan Hvisit].
  assert (Hex : isExpanded (makeKey (td_uri (te_document ted)) (tm_index (hit_match h)))
                  expanded = true).
  { unfold expanded, onDidChangeVisibleTextEditors, isExpanded.
    rewrite reconcile_eq, bool_decide_eq_true. apply present_keys_iff.
    unfold is_plain_txt in Hp. apply andb_true_iff in Hp. destruct Hp as [_ Htxt].
    exists (mkVisibleEditor PREVIEW_SCHEME
              (Some (targetPath (te_document ted) (hit_match h)))),
      (targetPath (te_document ted) (hit_match h)), (te_document ted), (hit_match h).
    split; [exact Hed|]. split; [reflexivity|]. split; [reflexivity|]. split; [exact Hne|].
    split; [exact Hdoc|]. split; [exact Hfile|]. split; [exact Htxt|].
    split; [exact Hscan|]. split; reflexivity. }
  split; [exact Hex|].
  unfold refreshEditor. rewrite Hp. simpl.
  now apply refresh_fold_expanded.
Qed.

Lemma followed_link_stays_expanded_witness :
  sample_link ∈ @provideDocumentLinks Posix.host sample_hits (fs header_world)
                  sample_text_editor
  /\ (forall h, h ∈ sample_hits (td_text sample_document) ->
        hit_match h ∈ sample_matches 0 (td_text sample_document)
        /\ h ∈ sample_hits (td_text sample_document))
  /\ link_range sample_link ∈
       (@refreshEditor Posix.host sample_hits (fs header_world)
          (@onDidChangeVisibleTextEditors Posix.host sample_matches 0
             [mkVisibleEditor PREVIEW_SCHEME (Some (link_targetPath sample_link))]
             [sample_document] ∅)
          sample_text_editor).2.
Proof.
  assert (Hhits : forall h, h ∈ sample_hits (td_text sample_document) ->
            hit_match h ∈ sample_matches 0 (td_text sample_document)
            /\ h ∈ sample_hits (td_text sample_document)).
  { intros h Hh. split; [|exact Hh]. now apply list_elem_of_fmap_2. }
  assert (Hl : sample_link ∈ @provideDocumentLinks Posix.host sample_hits (fs header_world)
                                sample_text_editor).
  { vm_compute. left. }
  split; [exact Hl|]. split; [exact Hhits|].
  apply (@followed_link_stays_expanded Posix.host sample_matches sample_hits sample_hits
           (fs header_world) sample_text_editor sample_link
           [mkVisibleEditor PREVIEW_SCHEME (Some (link_targetPath sample_link))]
           [sample_document] ∅ Hl Hhits).
  - left.
  - reflexivity.
  - discriminate.
  - left.
Defined.
